(** * proxy.c: a multithreaded caching HTTP proxy

    A shallow embedding of [proxy.c] and the properties of its LRU object
    cache, its bounded hand-off queue, its URI parser and its request handler.

    Conventions of the embedding.
    - A C [int] is a [Z]; every arithmetic result stored in an [int] goes
      through [int_wrap] (two's complement, 32 bits).
    - A pointer to a [cache_block_t] is an [option positive]: [None] is
      [NULL], [Some a] the address of a block in the heap. Dereferencing an
      address that is not allocated is a fault: the operation yields [None].
    - A NUL-terminated C string is the [string] of its bytes before the
      terminator; a raw buffer (what the buffered reader delivers and what is
      written to a socket) is a [list byte].
    - A [char] array of a fixed size holds a C string shorter than its size;
      writing a longer one into it is undefined, and the operation yields
      [None].
    - A semaphore is its counter. The embedding is sequential: a [P] on a
      counter that is zero would block for ever and yields [None]. *)

From Stdlib Require Import ZArith Ascii String DecimalString.
From Stdlib Require DecimalPos.
From Stdlib.Strings Require Import Byte.
From stdpp Require Import base option strings numbers gmap fin_maps list.

Open Scope Z_scope.

(** ** Configuration constants ([#define]s at the top of proxy.c) *)

Definition MAX_CACHE_SIZE : Z := 1049000.
Definition MAX_OBJECT_SIZE : Z := 102400.
Definition MAXLINE : Z := 8192.
Definition NTHREADS : Z := 4.
Definition SBUFSIZE : Z := 16.

(** ** The C layer: machine integers, semaphores, <string.h> *)

Module C.

Definition INT_MIN : Z := - 2 ^ 31.
Definition INT_MAX : Z := 2 ^ 31 - 1.

(** The value an [int] holds after a result [z] is stored in it. *)
Definition int_wrap (z : Z) : Z := (z + 2 ^ 31) mod 2 ^ 32 - 2 ^ 31.

(** An [int] or [size_t] operand converted to [size_t] (64 bits). *)
Definition size_wrap (z : Z) : Z := z mod 2 ^ 64.

(** [P(&s)]: decrement, or block when the counter is zero. *)
Definition P (s : Z) : option Z := if 0 <? s then Some (s - 1) else None.

(** [V(&s)]: increment. *)
Definition V (s : Z) : Z := s + 1.

Definition code (c : ascii) : Z := Z.of_nat (nat_of_ascii c).

Definition isupper (c : ascii) : bool := (65 <=? code c) && (code c <=? 90).

Definition isdigit (c : ascii) : bool := (48 <=? code c) && (code c <=? 57).

(** [isspace] in the C locale: space, \t, \n, \v, \f, \r. *)
Definition isspace (c : ascii) : bool :=
  (code c =? 32) || ((9 <=? code c) && (code c <=? 13)).

Definition tolower (c : ascii) : ascii :=
  if isupper c then ascii_of_nat (nat_of_ascii c + 32) else c.

(** [strcmp]: C fixes only the sign of the result, which is that of the
    first pair of bytes that differ (the end of a string is below every
    byte); the embedding returns -1, 0 or 1. *)
Fixpoint strcmp (s1 s2 : string) : Z :=
  match s1, s2 with
  | EmptyString, EmptyString => 0
  | EmptyString, String _ _ => -1
  | String _ _, EmptyString => 1
  | String c1 r1, String c2 r2 =>
      if code c1 <? code c2 then -1
      else if code c2 <? code c1 then 1
      else strcmp r1 r2
  end.

(** [strncasecmp]: as [strcmp] on the lower-cased bytes, over at most [n]
    bytes. *)
Fixpoint strncasecmp (s1 s2 : string) (n : nat) : Z :=
  match n with
  | O => 0
  | S n' =>
      match s1, s2 with
      | EmptyString, EmptyString => 0
      | EmptyString, String _ _ => -1
      | String _ _, EmptyString => 1
      | String c1 r1, String c2 r2 =>
          if code (tolower c1) <? code (tolower c2) then -1
          else if code (tolower c2) <? code (tolower c1) then 1
          else strncasecmp r1 r2 n'
      end
  end.

(** [strcasecmp]: [strncasecmp] with no bound. *)
Fixpoint strcasecmp (s1 s2 : string) : Z :=
  match s1, s2 with
  | EmptyString, EmptyString => 0
  | EmptyString, String _ _ => -1
  | String _ _, EmptyString => 1
  | String c1 r1, String c2 r2 =>
      if code (tolower c1) <? code (tolower c2) then -1
      else if code (tolower c2) <? code (tolower c1) then 1
      else strcasecmp r1 r2
  end.

Fixpoint drop (n : nat) (s : string) : string :=
  match n, s with
  | O, _ => s
  | S _, EmptyString => EmptyString
  | S n', String _ r => drop n' r
  end.

Fixpoint take (n : nat) (s : string) : string :=
  match n, s with
  | O, _ => EmptyString
  | S _, EmptyString => EmptyString
  | S n', String c r => String c (take n' r)
  end.

(** [strstr(hay, needle)]: the offset of the first occurrence of [needle] in
    [hay] (the result pointer minus [hay]), [None] for [NULL]. *)
Fixpoint strstr (hay needle : string) : option nat :=
  if String.prefix needle hay then Some O
  else match hay with
       | EmptyString => None
       | String _ r => S <$> strstr r needle
       end.

Fixpoint skip_space (s : string) : string :=
  match s with
  | String c r => if isspace c then skip_space r else s
  | EmptyString => EmptyString
  end.

Fixpoint digits (acc : Z) (s : string) : Z :=
  match s with
  | String c r => if isdigit c then digits (10 * acc + (code c - 48)) r else acc
  | EmptyString => acc
  end.

(** The number a text starts with: leading white space, an optional sign,
    then decimal digits up to the first byte that is not one; 0 when there
    is no digit. *)
Definition decimal (s : string) : Z :=
  match skip_space s with
  | String "-" r => - digits 0 r
  | String "+" r => digits 0 r
  | r => digits 0 r
  end.

Definition LONG_MIN : Z := - 2 ^ 63.
Definition LONG_MAX : Z := 2 ^ 63 - 1.

(** [strtol(s, NULL, 10)]: the number the text starts with, or the nearest
    [long] when it does not fit one. *)
Definition strtol (s : string) : Z := Z.max LONG_MIN (Z.min LONG_MAX (decimal s)).

(** [atoi(s)], an [int]: the C library computes [(int) strtol(s, NULL, 10)],
    so a number that does not fit an [int] is cut to 32 bits. *)
Definition atoi (s : string) : Z := int_wrap (strtol s).

(** [strcpy(dst, src)] where [dst] is a [char] array of [size] bytes: the
    array then holds [src] and its NUL. Writing past the end of the array
    is undefined: the embedding stops there. *)
Definition strcpy (size : Z) (src : string) : option string :=
  if Z.of_nat (String.length src) <? size then Some src else None.

(** [sprintf(dst, format, ...)] where [dst] is an array of [size] bytes and
    [text] is what the format expands to. *)
Definition sprintf (size : Z) (text : string) : option string := strcpy size text.

(** [strcat(dst, src)] where [dst] is an array of [size] bytes. *)
Definition strcat (size : Z) (dst src : string) : option string :=
  strcpy size (dst +:+ src).

(** [sprintf("%d")]. *)
Definition sprintf_d (z : Z) : string := NilZero.string_of_int (Z.to_int z).

(** The C string a buffer holds: its bytes before the first NUL. *)
Fixpoint cstring (buf : list byte) : string :=
  match buf with
  | [] => EmptyString
  | b :: r => if Byte.eqb b x00 then EmptyString
              else String (ascii_of_byte b) (cstring r)
  end.

(** The bytes of a C string, as [Rio_writen(fd, s, strlen(s))] sends them. *)
Definition bytes (s : string) : list byte := list_byte_of_string s.

Definition CRLF : string := String "013" (String "010" EmptyString).

End C.

(** ** The LRU object cache *)

Module Cache.

Record cache_block_t := Block {
  uri : string;
  content : list byte;
  content_size : Z;
  prev : option positive;
  next : option positive
}.

Record cache_t := CacheT {
  head : option positive;
  tail : option positive;
  current_size : Z;
  mutex : Z;
  w : Z;
  readcnt : Z
}.

(** The memory the cache lives in: the allocated blocks and the global
    [cache]. *)
Record mem := Mem {
  heap : gmap positive cache_block_t;
  cache : cache_t
}.

(** Memory when [main] starts: nothing allocated, the global zeroed. *)
Definition boot : mem :=
  Mem ∅ (CacheT None None 0 0 0 0).

Definition cache_init (m : mem) : mem :=
  Mem (heap m) (CacheT None None 0 1 1 0).

(** The search loop of [cache_find]: [block] runs down the [next] links
    until a block's uri compares equal or [NULL] is reached. [fuel] bounds the
    number of turns; [cache_find] gives one more than there are blocks, so
    the fuel runs out only on a list that loops. *)
Fixpoint find_loop (fuel : nat) (h : gmap positive cache_block_t)
    (u : string) (block : option positive) : option (option positive) :=
  match block with
  | None => Some None
  | Some a =>
      match fuel with
      | O => None
      | S fuel' =>
          b ← h !! a;
          if C.strcmp (uri b) u =? 0 then Some (Some a)
          else find_loop fuel' h u (next b)
      end
  end.

(** [cache_find(uri)]: the pointer returned, and the memory after the
    call. *)
Definition cache_find (u : string) (m : mem) : option (option positive * mem) :=
  let c := cache m in
  mutex1 ← C.P (mutex c);
  let readcnt1 := C.int_wrap (readcnt c + 1) in
  w1 ← (if readcnt1 =? 1 then C.P (w c) else Some (w c));
  let mutex2 := C.V mutex1 in
  block ← find_loop (S (size (heap m))) (heap m) u (head c);
  mutex3 ← C.P mutex2;
  let readcnt2 := C.int_wrap (readcnt1 - 1) in
  let w2 := if readcnt2 =? 0 then C.V w1 else w1 in
  let mutex4 := C.V mutex3 in
  Some (block, Mem (heap m) (CacheT (head c) (tail c) (current_size c) mutex4 w2 readcnt2)).

Definition set_next (nx : option positive) (b : cache_block_t) : cache_block_t :=
  Block (uri b) (content b) (content_size b) (prev b) nx.

Definition set_prev (pv : option positive) (b : cache_block_t) : cache_block_t :=
  Block (uri b) (content b) (content_size b) pv (next b).

(** [p->field = v] through a pointer [p] that is not [NULL]: a fault when
    [p] is not allocated. *)
Definition store (f : cache_block_t → cache_block_t) (p : positive)
    (h : gmap positive cache_block_t) : option (gmap positive cache_block_t) :=
  b ← h !! p; Some (<[p := f b]> h).

(** One turn of the eviction loop of [cache_insert]: unlink and free the
    tail. *)
Definition evict_body (m : mem) : option mem :=
  let c := cache m in
  temp ← tail c;
  b ← heap m !! temp;
  let current_size1 := C.int_wrap (current_size c - content_size b) in
  h1 ← match prev b with
       | Some p => store (set_next None) p (heap m)
       | None => Some (heap m)
       end;
  let tail1 := prev b in
  let head1 := if bool_decide (head c = Some temp) then None else head c in
  let h2 := delete temp h1 in
  Some (Mem h2 (CacheT head1 tail1 current_size1 (mutex c) (w c) (readcnt c))).

(** The eviction loop of [cache_insert]; [fuel] bounds the number of
    turns. Every turn frees a block, so [cache_insert] gives as much fuel as
    there are blocks. *)
Fixpoint evict_loop (fuel : nat) (size : Z) (m : mem) : option mem :=
  let c := cache m in
  if (C.int_wrap (current_size c + size) >? MAX_CACHE_SIZE)
     && bool_decide (tail c ≠ None) then
    match fuel with
    | O => None
    | S fuel' => m1 ← evict_body m; evict_loop fuel' size m1
    end
  else Some m.

(** [Malloc(n)] with an [int] argument: the size is converted to [size_t],
    so a negative [int] asks for more than [PTRDIFF_MAX] bytes, which cannot
    be served; the wrapper then ends the process, and [cache_insert] does
    not return. Any other request is served, one of 0 bytes as well. *)
Definition Malloc_ok (n : Z) : bool := 0 <=? n.

(** [memcpy(dst, src, n)] into a fresh buffer of [n] bytes. *)
Definition memcpy (src : list byte) (n : Z) : list byte := take (Z.to_nat n) src.

(** [cache_insert(uri, content, content_size)]. The new block gets an
    address that is not allocated. *)
Definition cache_insert (u : string) (body : list byte) (size : Z) (m : mem)
    : option mem :=
  if size >? MAX_OBJECT_SIZE then Some m
  else
    let c := cache m in
    w1 ← C.P (w c);
    m1 ← evict_loop (base.size (heap m)) size
            (Mem (heap m) (CacheT (head c) (tail c) (current_size c) (mutex c) w1 (readcnt c)));
    let c1 := cache m1 in
    let new_block := fresh (dom (heap m1)) in
    if Malloc_ok size then
      let b := Block u (memcpy body size) size None (head c1) in
      let h1 := <[new_block := b]> (heap m1) in
      h2 ← match head c1 with
           | Some hd => store (set_prev (Some new_block)) hd h1
           | None => Some h1
           end;
      let tail1 := if bool_decide (tail c1 = None) then Some new_block else tail c1 in
      let current_size1 := C.int_wrap (current_size c1 + size) in
      Some (Mem h2 (CacheT (Some new_block) tail1 current_size1 (mutex c1) (C.V (w c1)) (readcnt c1)))
    else None.

(** The blocks on the list, from [p] down the [next] links. *)
Fixpoint walk (fuel : nat) (h : gmap positive cache_block_t)
    (p : option positive) : list cache_block_t :=
  match p, fuel with
  | Some a, S fuel' =>
      match h !! a with
      | Some b => b :: walk fuel' h (next b)
      | None => []
      end
  | _, _ => []
  end.

(** The live entries, most recently inserted first. *)
Definition live (m : mem) : list cache_block_t :=
  walk (size (heap m)) (heap m) (head (cache m)).

Definition live_uris (m : mem) : list string := uri <$> live m.

Definition live_bytes (m : mem) : Z := foldr Z.add 0 (content_size <$> live m).

(** A call of the cache's interface. *)
Inductive call :=
| Insert (u : string) (body : list byte) (size : Z)
| Find (u : string).

Definition do_call (k : call) (m : mem) : option mem :=
  match k with
  | Insert u body size => cache_insert u body size m
  | Find u => snd <$> cache_find u m
  end.

(** A sequence of calls, each one completing before the next starts. *)
Fixpoint run (ks : list call) (m : mem) : option mem :=
  match ks with
  | [] => Some m
  | k :: ks' => m' ← do_call k m; run ks' m'
  end.

(** The uris of the inserts of [ks] that were not refused for their size, in
    call order. *)
Fixpoint admitted (ks : list call) : list string :=
  match ks with
  | [] => []
  | Insert u _ size :: ks' =>
      if size >? MAX_OBJECT_SIZE then admitted ks' else u :: admitted ks'
  | Find _ :: ks' => admitted ks'
  end.

(** A call whose length argument is a byte count. *)
Definition sized (k : call) : Prop :=
  match k with
  | Insert _ _ size => 0 ≤ size
  | Find _ => True
  end.

(** The states the cache goes through after [cache_init]. *)
Definition reachable (m : mem) : Prop :=
  ∃ ks, run ks (cache_init boot) = Some m.

End Cache.

(** ** The bounded hand-off queue *)

Module Sbuf.

Record sbuf_t := SbufT {
  buf : list Z;
  n : Z;
  front : Z;
  rear : Z;
  mutex : Z;
  slots : Z;
  items : Z
}.

(** [sbuf_init(sp, n)]: [Calloc] gives [n] zeroed slots. *)
Definition sbuf_init (n : Z) : sbuf_t :=
  SbufT (replicate (Z.to_nat n) 0) n 0 0 1 n 0.

(** The slot [i % n] of an array of [len] ints: C's [%] truncates towards
    zero; dividing by zero or indexing outside the array is a fault. *)
Definition slot (i n : Z) (len : nat) : option nat :=
  if n =? 0 then None
  else
    let k := Z.rem i n in
    if (0 <=? k) && (k <? Z.of_nat len) then Some (Z.to_nat k) else None.

Definition sbuf_insert (item : Z) (sp : sbuf_t) : option sbuf_t :=
  slots1 ← C.P (slots sp);
  mutex1 ← C.P (mutex sp);
  let rear1 := C.int_wrap (rear sp + 1) in
  k ← slot rear1 (n sp) (length (buf sp));
  let buf1 := <[k := item]> (buf sp) in
  Some (SbufT buf1 (n sp) (front sp) rear1 (C.V mutex1) slots1 (C.V (items sp))).

Definition sbuf_remove (sp : sbuf_t) : option (Z * sbuf_t) :=
  items1 ← C.P (items sp);
  mutex1 ← C.P (mutex sp);
  let front1 := C.int_wrap (front sp + 1) in
  k ← slot front1 (n sp) (length (buf sp));
  item ← buf sp !! k;
  Some (item, SbufT (buf sp) (n sp) front1 (rear sp) (C.V mutex1) (C.V (slots sp)) items1).

(** [sbuf_insert] of each descriptor of [xs], in order. *)
Fixpoint insert_all (xs : list Z) (sp : sbuf_t) : option sbuf_t :=
  match xs with
  | [] => Some sp
  | x :: xs' => sp' ← sbuf_insert x sp; insert_all xs' sp'
  end.

(** [k] calls of [sbuf_remove]; the descriptors they return, in order. *)
Fixpoint remove_all (k : nat) (sp : sbuf_t) : option (list Z * sbuf_t) :=
  match k with
  | O => Some ([], sp)
  | S k' =>
      '(x, sp1) ← sbuf_remove sp;
      '(xs, sp2) ← remove_all k' sp1;
      Some (x :: xs, sp2)
  end.

End Sbuf.

(** ** The request handler and its helpers *)

Module Proxy.

Definition user_agent_hdr : string :=
  "User-Agent: Mozilla/5.0 (X11; Linux x86_64; rv:10.0.3) Gecko/20120305 Firefox/10.0.3" +:+ C.CRLF.

(** What the handler does to the outside, in the order it does it. *)
Inductive event :=
| cache_probe (u : string)
| cache_admission (u : string) (body : list byte) (size : Z)
| connect (hostname port : string) (fd : Z)
| send (fd : Z) (data : list byte)
| close (fd : Z).

(** The bytes written to descriptor [fd] along a trace. *)
Fixpoint sent (fd : Z) (tr : list event) : list byte :=
  match tr with
  | [] => []
  | send fd' data :: tr' => if fd' =? fd then data ++ sent fd tr' else sent fd tr'
  | _ :: tr' => sent fd tr'
  end.

Definition is_probe (ev : event) : bool :=
  match ev with cache_probe _ => true | _ => false end.

Definition is_admission (ev : event) : bool :=
  match ev with cache_admission _ _ _ => true | _ => false end.

Definition is_connect (ev : event) : bool :=
  match ev with connect _ _ _ => true | _ => false end.

(** A buffered reader ([rio_t]) is what is still to come on its descriptor,
    cut as the successive [Rio_readlineb] calls will return it; at the end of
    the list the call returns 0 (EOF) and leaves the caller's buffer
    [usrbuf] as it was. *)
Definition Rio_readlineb (rio : list (list byte)) (usrbuf : list byte)
    : list byte * list (list byte) :=
  match rio with
  | [] => (usrbuf, [])
  | l :: rest => (l, rest)
  end.

(** The network: the descriptor [Open_clientfd] returns for a host and a
    port (negative on failure), and what the origin sends on a descriptor. *)
Record net := Net {
  Open_clientfd : string → string → Z;
  origin : Z → list (list byte)
}.

(** [%s]: skip white space, then take the bytes up to the next white space;
    fails at the end of the input. *)
Fixpoint scan_word (s : string) : string * string :=
  match s with
  | String c r =>
      if C.isspace c then (EmptyString, s)
      else let '(wd, rest) := scan_word r in (String c wd, rest)
  | EmptyString => (EmptyString, EmptyString)
  end.

Definition scan_s (s : string) : option (string * string) :=
  match C.skip_space s with
  | EmptyString => None
  | s' => Some (scan_word s')
  end.

(** [sscanf(buf, "%s %s %s", method, uri, version)]: an array whose
    conversion is not reached keeps what it held. *)
Definition sscanf3 (buf : string) (method uri version : string)
    : string * string * string :=
  match scan_s buf with
  | None => (method, uri, version)
  | Some (method1, r1) =>
      match scan_s r1 with
      | None => (method1, uri, version)
      | Some (uri1, r2) =>
          match scan_s r2 with
          | None => (method1, uri1, version)
          | Some (version1, _) => (method1, uri1, version1)
          end
      end
  end.

Definition pathname_of (hostbegin : string) : string :=
  match C.strstr hostbegin "/" with
  | Some off => C.drop off hostbegin
  | None => "/"
  end.

(** [parse_uri(uri, hostname, pathname, &port)]: the three results. *)
Definition parse_uri (uri : string) : string * string * Z :=
  let hostbegin :=
    if C.strncasecmp uri "http://" 7 =? 0 then C.drop 7 uri else uri in
  match C.strstr hostbegin ":" with
  | Some len =>
      (C.take len hostbegin, pathname_of hostbegin, C.atoi (C.drop (S len) hostbegin))
  | None =>
      match C.strstr hostbegin "/" with
      | None => (hostbegin, "/"%string, 80)
      | Some len => (C.take len hostbegin, pathname_of hostbegin, 80)
      end
  end.

(** The header loop of [build_requesthdrs]: the request and the Host header
    so far, in the arrays [newreq] (of [doit]) and [host_hdr], of [MAXLINE]
    bytes each; returns them with what is left to read. *)
Fixpoint hdr_loop (rio : list (list byte)) (newreq host_hdr : string)
    : option (string * string * list (list byte)) :=
  match rio with
  | [] => Some (newreq, host_hdr, [])
  | l :: rest =>
      if 0 <? Z.of_nat (length l) then
        let buf := C.cstring l in
        if C.strcmp buf C.CRLF =? 0 then Some (newreq, host_hdr, rest)
        else if C.strncasecmp buf "Host:" 5 =? 0 then
          host_hdr1 ← C.strcpy MAXLINE buf;
          hdr_loop rest newreq host_hdr1
        else if (C.strncasecmp buf "User-Agent:" 11 =? 0)
                || (C.strncasecmp buf "Connection:" 11 =? 0)
                || (C.strncasecmp buf "Proxy-Connection:" 17 =? 0)
        then hdr_loop rest newreq host_hdr
        else
          newreq1 ← C.strcat MAXLINE newreq buf;
          hdr_loop rest newreq1 host_hdr
      else Some (newreq, host_hdr, rest)
  end.

(** [build_requesthdrs(rp, newreq, hostname, pathname)]: the request built
    in [newreq], and the reader after it. *)
Definition build_requesthdrs (rio : list (list byte)) (hostname pathname : string)
    : option (string * list (list byte)) :=
  newreq ← C.sprintf MAXLINE ("GET " +:+ pathname +:+ " HTTP/1.0" +:+ C.CRLF);
  '(newreq1, host_hdr, rio1) ← hdr_loop rio newreq EmptyString;
  host_hdr1 ← (if Z.of_nat (String.length host_hdr) =? 0
               then C.sprintf MAXLINE ("Host: " +:+ hostname +:+ C.CRLF)
               else Some host_hdr);
  newreq2 ← C.strcat MAXLINE newreq1 host_hdr1;
  newreq3 ← C.strcat MAXLINE newreq2 user_agent_hdr;
  newreq4 ← C.strcat MAXLINE newreq3 ("Connection: close" +:+ C.CRLF);
  newreq5 ← C.strcat MAXLINE newreq4 ("Proxy-Connection: close" +:+ C.CRLF +:+ C.CRLF);
  Some (newreq5, rio1).

(** [clienterror(fd, cause, errnum, shortmsg, longmsg)]: seven lines, each
    formatted in the array [buf] of [MAXLINE] bytes and then written. *)
Definition clienterror (fd : Z) (cause errnum shortmsg longmsg : string)
    : option (list event) :=
  buf1 ← C.sprintf MAXLINE ("HTTP/1.0 " +:+ errnum +:+ " " +:+ shortmsg +:+ C.CRLF);
  buf2 ← C.sprintf MAXLINE ("Content-type: text/html" +:+ C.CRLF +:+ C.CRLF);
  buf3 ← C.sprintf MAXLINE "<html><title>프록시 에러</title>";
  buf4 ← C.sprintf MAXLINE ("<body bgcolor=ffffff>" +:+ C.CRLF);
  buf5 ← C.sprintf MAXLINE (errnum +:+ ": " +:+ shortmsg +:+ C.CRLF);
  buf6 ← C.sprintf MAXLINE ("<p>" +:+ longmsg +:+ ": " +:+ cause +:+ C.CRLF);
  buf7 ← C.sprintf MAXLINE ("<hr><em>프록시 서버</em>" +:+ C.CRLF);
  Some [ send fd (C.bytes buf1); send fd (C.bytes buf2); send fd (C.bytes buf3);
         send fd (C.bytes buf4); send fd (C.bytes buf5); send fd (C.bytes buf6);
         send fd (C.bytes buf7) ].

(** The streaming loop of [doit]: every line read from the origin is written
    to the client; it is appended to [cache_buf] only when it still fits.
    Returns the staged bytes, their count and the writes. [cache_buf] holds
    the first [cache_size] bytes of the C array. *)
Fixpoint stream_loop (rio : list (list byte)) (connfd : Z)
    (cache_buf : list byte) (cache_size : Z) : list byte * Z * list event :=
  match rio with
  | [] => (cache_buf, cache_size, [])
  | buf :: rest =>
      let n := C.size_wrap (Z.of_nat (length buf)) in
      if 0 <? n then
        let '(cache_buf2, cache_size2, tr) :=
          if C.size_wrap (C.size_wrap cache_size + n) <=? MAX_OBJECT_SIZE
          then stream_loop rest connfd (cache_buf ++ buf) (C.int_wrap (cache_size + n))
          else stream_loop rest connfd cache_buf cache_size in
        (cache_buf2, cache_size2, send connfd buf :: tr)
      else (cache_buf, cache_size, [])
  end.

(** [doit(connfd)]: [client] is what the client sends; [buf0], [method0],
    [uri0] and [version0] are what the local arrays [buf], [method], [uri]
    and [version] hold on entry (they are not initialised, and the result
    of the first [Rio_readlineb] is not looked at). The result is the memory
    after the call and the trace of the call. *)
Definition doit (nw : net) (connfd : Z) (client : list (list byte))
    (buf0 : list byte) (method0 uri0 version0 : string) (m : Cache.mem)
    : option (Cache.mem * list event) :=
  let '(buf, rio_client) := Rio_readlineb client buf0 in
  let '(method, uri, version) := sscanf3 (C.cstring buf) method0 uri0 version0 in
  if negb (C.strcasecmp method "GET" =? 0) then
    page ← clienterror connfd method "501" "Not Implemented"
              "지원하지 않는 메소드입니다";
    Some (m, page)
  else
    '(cached, m1) ← Cache.cache_find uri m;
    match cached with
    | Some a =>
        b ← Cache.heap m1 !! a;
        Some (m1, [cache_probe uri;
                   send connfd (take (Z.to_nat (Cache.content_size b)) (Cache.content b))])
    | None =>
        let '(hostname, pathname, port) := parse_uri uri in
        let port_str := C.sprintf_d port in
        let serverfd := Open_clientfd nw hostname port_str in
        if serverfd <? 0 then
          page ← clienterror connfd hostname "503" "Service Unavailable"
                    "서버 연결 실패";
          Some (m1, [cache_probe uri; connect hostname port_str serverfd] ++ page)
        else
          '(newreq, _) ← build_requesthdrs rio_client hostname pathname;
          let '(cache_buf, cache_size, writes) :=
            stream_loop (origin nw serverfd) connfd [] 0 in
          m2 ← (if cache_size <=? MAX_OBJECT_SIZE
                then Cache.cache_insert uri cache_buf cache_size m1
                else Some m1);
          Some (m2, [cache_probe uri; connect hostname port_str serverfd;
                     send serverfd (C.bytes newreq)]
                      ++ writes
                      ++ (if cache_size <=? MAX_OBJECT_SIZE
                          then [cache_admission uri cache_buf cache_size] else [])
                      ++ [close serverfd])
    end.

(** The request line as [doit] reads it off a connection: method, uri and
    version. *)
Definition request_line (client : list (list byte)) (buf0 : list byte)
    (method0 uri0 version0 : string) : string * string * string :=
  sscanf3 (C.cstring (fst (Rio_readlineb client buf0))) method0 uri0 version0.

(** The descriptor [doit] gets from [Open_clientfd] for a uri. *)
Definition upstream (nw : net) (uri : string) : Z :=
  let '(hostname, _, port) := parse_uri uri in
  Open_clientfd nw hostname (C.sprintf_d port).

(** One connection handed to a worker: the network as it is then, the
    descriptor, what the client sends on it, and what the arrays [buf],
    [method], [uri] and [version] of [doit] hold on entry. *)
Record conn := Conn {
  conn_net : net;
  conn_fd : Z;
  conn_client : list (list byte);
  conn_buf0 : list byte;
  conn_method0 : string;
  conn_uri0 : string;
  conn_version0 : string
}.

Definition handle (k : conn) (m : Cache.mem) : option (Cache.mem * list event) :=
  doit (conn_net k) (conn_fd k) (conn_client k) (conn_buf0 k)
       (conn_method0 k) (conn_uri0 k) (conn_version0 k) m.

(** Connections handled one after the other: the memory at the end and the
    trace of each call of [doit]. *)
Fixpoint serve (ks : list conn) (m : Cache.mem)
    : option (Cache.mem * list (list event)) :=
  match ks with
  | [] => Some (m, [])
  | k :: ks' =>
      '(m1, tr) ← handle k m;
      '(m2, trs) ← serve ks' m1;
      Some (m2, tr :: trs)
  end.

(** The connection carries a GET (in any letter case) for [uri]. *)
Definition gets (uri : string) (k : conn) : Prop :=
  ∃ method version,
    request_line (conn_client k) (conn_buf0 k)
      (conn_method0 k) (conn_uri0 k) (conn_version0 k)
    = (method, uri, version)
    ∧ C.strcasecmp method "GET" = 0.

End Proxy.

(** * The vocabulary of the properties *)

(** ** The cache: the list a memory represents *)

(** One entry of the list: where its block is, and what it holds. *)
Record entry := Entry {
  addr : positive;
  key : string;
  body : list byte;
  len : Z
}.

(** The block of the [i]-th entry of the list [es]: its links are the
    addresses of its neighbours. *)
Definition block_of (es : list entry) (i : nat) (e : entry) : Cache.cache_block_t :=
  Cache.Block (key e) (body e) (len e)
    (match i with O => None | S j => addr <$> es !! j end)
    (addr <$> es !! S i).

Definition blocks_of (es : list entry) : list Cache.cache_block_t :=
  imap (block_of es) es.

(** The heap holds the entries of [es] as a doubly-linked list. *)
Definition linked (h : gmap positive Cache.cache_block_t) (es : list entry) : Prop :=
  ∀ i e, es !! i = Some e → h !! addr e = Some (block_of es i e).

Definition total_len (es : list entry) : Z := foldr Z.add 0 (len <$> es).

(** The memory [m] represents the list [es], head first. *)
Record repr (m : Cache.mem) (es : list entry) : Prop := Repr {
  repr_nodup : NoDup (addr <$> es);
  repr_linked : linked (Cache.heap m) es;
  repr_head : Cache.head (Cache.cache m) = addr <$> es !! O;
  repr_tail : Cache.tail (Cache.cache m) = addr <$> list.last es;
  repr_len : Forall (λ e, 0 ≤ len e ≤ MAX_OBJECT_SIZE) es;
  repr_current : Cache.current_size (Cache.cache m) = total_len es;
  repr_budget : total_len es ≤ MAX_CACHE_SIZE
}.

(** The first entry of the list with uri [u]. *)
Fixpoint lookup_key (u : string) (es : list entry) : option entry :=
  match es with
  | [] => None
  | e :: es' => if decide (key e = u) then Some e else lookup_key u es'
  end.

(** No call is in progress: both semaphores are free and no reader is
    counted. *)
Definition idle (m : Cache.mem) : Prop :=
  Cache.mutex (Cache.cache m) = 1 ∧ Cache.w (Cache.cache m) = 1
  ∧ Cache.readcnt (Cache.cache m) = 0.

Definition wf (m : Cache.mem) : Prop := idle m ∧ ∃ es, repr m es.

(** ** The queue a buffer holds *)

(** The buffer [sp] holds the queue [q], oldest descriptor first, and no
    call is in progress. *)
Record holds (sp : Sbuf.sbuf_t) (q : list Z) : Prop := Holds {
  holds_n : 0 < Sbuf.n sp;
  holds_buf : Z.of_nat (length (Sbuf.buf sp)) = Sbuf.n sp;
  holds_mutex : Sbuf.mutex sp = 1;
  holds_front : 0 ≤ Sbuf.front sp;
  holds_rear : Sbuf.rear sp = Sbuf.front sp + Z.of_nat (length q);
  holds_items : Sbuf.items sp = Z.of_nat (length q);
  holds_slots : Sbuf.slots sp = Sbuf.n sp - Z.of_nat (length q);
  holds_data : ∀ i x, q !! i = Some x →
    Sbuf.buf sp !! Z.to_nat ((Sbuf.front sp + 1 + Z.of_nat i) mod Sbuf.n sp) = Some x
}.

(** ** The URI parser as specified *)

(** The parser as the specification words it: strip an optional [http://];
    the path starts at the first [/] (it is [/] when there is none); what is
    before it is the host, with a port after a [:] when it has one, and port
    80 otherwise. *)
Definition parse_uri_spec (uri : string) : string * string * Z :=
  let rest := if C.strncasecmp uri "http://" 7 =? 0 then C.drop 7 uri else uri in
  let slash := C.strstr rest "/" in
  let authority := match slash with Some i => C.take i rest | None => rest end in
  let pathname := match slash with Some i => C.drop i rest | None => "/"%string end in
  match C.strstr authority ":" with
  | Some j => (C.take j authority, pathname, C.atoi (C.drop (S j) rest))
  | None => (authority, pathname, 80)
  end.

(** ** Concrete connections *)

(** A network where every connection opens on descriptor 5 and the origin
    sends [lines]. *)
Definition fixed_net (lines : list (list byte)) : Proxy.net :=
  Proxy.Net (λ _ _, 5) (λ _, lines).

Definition get_x : list (list byte) :=
  [C.bytes ("GET http://origin.test/x HTTP/1.0" +:+ C.CRLF); C.bytes C.CRLF].

Definition put_x : list (list byte) :=
  [C.bytes ("PUT http://x/ HTTP/1.0" +:+ C.CRLF); C.bytes C.CRLF].

(** An origin response of 106488 bytes: thirteen lines of 8191 bytes, the
    longest [Rio_readlineb] returns for [MAXLINE], and a last line of 5. *)
Definition long_line : list byte := replicate (Z.to_nat 8190) x61 ++ [x0a].

Definition short_line : list byte := [x74; x61; x69; x6c; x0a].

Definition big_response : list (list byte) :=
  replicate 13 long_line ++ [short_line].

(** What [doit] stages of [big_response]: the twelve lines that fit, not
    the thirteenth, and then the short one, which fits again. *)
Definition staged_of_big : list byte :=
  concat (replicate 12 long_line) ++ short_line.

(** Equality tests, to compare long traces by computation. *)
Fixpoint bytes_eqb (a b : list byte) : bool :=
  match a, b with
  | [], [] => true
  | x :: a', y :: b' => Byte.eqb x y && bytes_eqb a' b'
  | _, _ => false
  end.

Definition event_eqb (e1 e2 : Proxy.event) : bool :=
  match e1, e2 with
  | Proxy.cache_probe u1, Proxy.cache_probe u2 => String.eqb u1 u2
  | Proxy.cache_admission u1 b1 n1, Proxy.cache_admission u2 b2 n2 =>
      String.eqb u1 u2 && bytes_eqb b1 b2 && (n1 =? n2)
  | Proxy.connect h1 p1 fd1, Proxy.connect h2 p2 fd2 =>
      String.eqb h1 h2 && String.eqb p1 p2 && (fd1 =? fd2)
  | Proxy.send fd1 d1, Proxy.send fd2 d2 => (fd1 =? fd2) && bytes_eqb d1 d2
  | Proxy.close fd1, Proxy.close fd2 => fd1 =? fd2
  | _, _ => false
  end.

Fixpoint trace_eqb (t1 t2 : list Proxy.event) : bool :=
  match t1, t2 with
  | [], [] => true
  | e1 :: t1', e2 :: t2' => event_eqb e1 e2 && trace_eqb t1' t2'
  | _, _ => false
  end.

Definition option_eqb {A} (eqb : A → A → bool) (o1 o2 : option A) : bool :=
  match o1, o2 with
  | Some x, Some y => eqb x y
  | None, None => true
  | _, _ => false
  end.

(** ** What the cache holds *)

(** What a block holds apart from its links: uri, content and length. *)
Definition payload (b : Cache.cache_block_t) : string * list byte * Z :=
  (Cache.uri b, Cache.content b, Cache.content_size b).

(** What the live entries hold, most recently inserted first. *)
Definition payloads (m : Cache.mem) : list (string * list byte * Z) :=
  payload <$> Cache.live m.

(** The bytes a list of entries accounts for. *)
Definition weight (ps : list (string * list byte * Z)) : Z :=
  foldr Z.add 0 (snd <$> ps).

(** What the inserts of [ks] that were not refused for their size put in
    the cache, in call order. *)
Fixpoint admissions (ks : list Cache.call) : list (string * list byte * Z) :=
  match ks with
  | [] => []
  | Cache.Insert u body size :: ks' =>
      if size >? MAX_OBJECT_SIZE then admissions ks'
      else (u, Cache.memcpy body size, size) :: admissions ks'
  | Cache.Find _ :: ks' => admissions ks'
  end.

(** The addresses of the blocks on the list, from [p] down the [next]
    links. *)
Fixpoint walk_addrs (fuel : nat) (h : gmap positive Cache.cache_block_t)
    (p : option positive) : list positive :=
  match p, fuel with
  | Some a, S fuel' =>
      match h !! a with
      | Some b => a :: walk_addrs fuel' h (Cache.next b)
      | None => []
      end
  | _, _ => []
  end.

Definition live_addrs (m : Cache.mem) : list positive :=
  walk_addrs (size (Cache.heap m)) (Cache.heap m) (Cache.head (Cache.cache m)).

(** What an entry of the list holds. *)
Definition entry_payload (e : entry) : string * list byte * Z :=
  (key e, body e, len e).

(** The memory represents a list, no call is in progress, and nothing is
    allocated but the blocks of the list. *)
Definition tight (m : Cache.mem) : Prop :=
  idle m ∧ ∃ es, repr m es ∧ dom (Cache.heap m) = list_to_set (addr <$> es).

(** ** The buffer under any order of operations *)

(** An operation on the buffer: [sbuf_insert] of a descriptor, or
    [sbuf_remove]. *)
Inductive sbuf_op :=
| Put (item : Z)
| Get.

(** Operations done one after the other; the descriptors the removes
    return, in order. [None] when one of them would block. *)
Fixpoint sbuf_run (ops : list sbuf_op) (sp : Sbuf.sbuf_t)
    : option (list Z * Sbuf.sbuf_t) :=
  match ops with
  | [] => Some ([], sp)
  | Put x :: ops' => sp1 ← Sbuf.sbuf_insert x sp; sbuf_run ops' sp1
  | Get :: ops' =>
      '(x, sp1) ← Sbuf.sbuf_remove sp;
      '(xs, sp2) ← sbuf_run ops' sp1;
      Some (x :: xs, sp2)
  end.

(** The same operations on a first-in first-out queue of at most [n]
    descriptors: putting into a full queue and getting from an empty one do
    not return. *)
Fixpoint queue_run (n : Z) (ops : list sbuf_op) (q : list Z)
    : option (list Z * list Z) :=
  match ops with
  | [] => Some ([], q)
  | Put x :: ops' =>
      if Z.of_nat (length q) <? n then queue_run n ops' (q ++ [x]) else None
  | Get :: ops' =>
      match q with
      | [] => None
      | x :: q' => '(xs, q2) ← queue_run n ops' q'; Some (x :: xs, q2)
      end
  end.

(** ** Uris written out *)

(** The text of a uri after an optional [http://] in any letter case. *)
Definition after_scheme (uri : string) : string :=
  if C.strncasecmp uri "http://" 7 =? 0 then C.drop 7 uri else uri.

(** An absolute uri written out from a host, a port (or none) and a path. *)
Definition absolute_uri (host : string) (port : option Z) (path : string) : string :=
  "http://" +:+ host
    +:+ match port with Some p => ":" +:+ C.sprintf_d p | None => EmptyString end
    +:+ path.

(** The string starts with a decimal digit. *)
Definition digit_first (s : string) : bool :=
  match s with
  | String c _ => C.isdigit c
  | EmptyString => false
  end.

(** ** Request lines and header lines *)

(** No white space and no NUL in the string. *)
Fixpoint plain (s : string) : bool :=
  match s with
  | EmptyString => true
  | String c r => negb (C.isspace c) && negb (C.code c =? 0) && plain r
  end.

(** Nothing but white space in the string. *)
Fixpoint blank (s : string) : bool :=
  match s with
  | EmptyString => true
  | String c r => C.isspace c && blank r
  end.

(** The string is empty or starts with white space or a NUL: a word before
    it ends there. *)
Definition ends_word (s : string) : bool :=
  match s with
  | EmptyString => true
  | String c _ => C.isspace c || (C.code c =? 0)
  end.

(** The header line names the Host header. *)
Definition is_host_hdr (buf : string) : bool :=
  C.strncasecmp buf "Host:" 5 =? 0.

(** The header line names a header the proxy replaces by its own. *)
Definition is_replaced_hdr (buf : string) : bool :=
  (C.strncasecmp buf "User-Agent:" 11 =? 0)
  || (C.strncasecmp buf "Connection:" 11 =? 0)
  || (C.strncasecmp buf "Proxy-Connection:" 17 =? 0).

(** The header lines on a reader, up to the blank line or the end. *)
Fixpoint client_headers (rio : list (list byte)) : list string :=
  match rio with
  | [] => []
  | l :: rest =>
      if 0 <? Z.of_nat (length l) then
        if C.strcmp (C.cstring l) C.CRLF =? 0 then []
        else C.cstring l :: client_headers rest
      else []
  end.

(** The strings of a list, one after the other. *)
Definition cat (ss : list string) : string := foldr String.append EmptyString ss.

(** What [build_requesthdrs] forwards of a header line: everything but the
    Host header and the headers it replaces. *)
Definition forwarded_hdr (buf : string) : bool :=
  negb (is_host_hdr buf) && negb (is_replaced_hdr buf).

(** The request [build_requesthdrs] makes of the header lines on a reader,
    for a host name and a path. *)
Definition built_request (rio : list (list byte)) (hostname pathname : string)
    : string :=
  "GET " +:+ pathname +:+ " HTTP/1.0" +:+ C.CRLF
    +:+ cat (List.filter forwarded_hdr (client_headers rio))
    +:+ default ("Host: " +:+ hostname +:+ C.CRLF)
          (list.last (List.filter is_host_hdr (client_headers rio)))
    +:+ Proxy.user_agent_hdr
    +:+ ("Connection: close" +:+ C.CRLF)
    +:+ ("Proxy-Connection: close" +:+ C.CRLF +:+ C.CRLF).

(** ** What a request finds, and what a response leaves *)

(** The content of the first live entry with uri [u]. *)
Definition cached (u : string) (m : Cache.mem) : option (list byte) :=
  (λ p, p.1.2) <$> head (filter (λ p, p.1.1 = u) (payloads m)).

(** What the streaming loop stages of the lines of a response when [size]
    bytes are staged already: each line that fits in [MAX_OBJECT_SIZE]
    with what is staged before it. *)
Fixpoint staged (lines : list (list byte)) (size : Z) : list byte :=
  match lines with
  | [] => []
  | l :: rest =>
      if size + Z.of_nat (length l) <=? MAX_OBJECT_SIZE
      then l ++ staged rest (size + Z.of_nat (length l))
      else staged rest size
  end.

(** The cache calls a trace records. *)
Fixpoint cache_calls (tr : list Proxy.event) : list Cache.call :=
  match tr with
  | [] => []
  | Proxy.cache_probe u :: tr' => Cache.Find u :: cache_calls tr'
  | Proxy.cache_admission u body size :: tr' =>
      Cache.Insert u body size :: cache_calls tr'
  | _ :: tr' => cache_calls tr'
  end.

(** ** The accept loop and the workers *)

(** One round of the loop of [thread]: take a descriptor from the buffer,
    handle the connection, close the descriptor. The network, what the
    client sends and what the arrays of [doit] hold are the environment of
    the round. *)
Definition thread_turn (nw : Proxy.net) (client : list (list byte))
    (buf0 : list byte) (method0 uri0 version0 : string)
    (sp : Sbuf.sbuf_t) (m : Cache.mem)
    : option (Sbuf.sbuf_t * Cache.mem * list Proxy.event) :=
  '(connfd, sp1) ← Sbuf.sbuf_remove sp;
  '(m1, tr) ← Proxy.doit nw connfd client buf0 method0 uri0 version0 m;
  Some (sp1, m1, tr ++ [Proxy.close connfd]).

(** A step of the proxy: a round of the accept loop of [main], where
    [Accept] returns [connfd], or a round of a worker. *)
Inductive turn :=
| Accept (connfd : Z)
| Work (nw : Proxy.net) (client : list (list byte)) (buf0 : list byte)
       (method0 uri0 version0 : string).

(** Rounds done one after the other, each to its end: the buffer and the
    cache after them, and the trace of each worker round. *)
Fixpoint proxy_run (ts : list turn) (sp : Sbuf.sbuf_t) (m : Cache.mem)
    : option (Sbuf.sbuf_t * Cache.mem * list (list Proxy.event)) :=
  match ts with
  | [] => Some (sp, m, [])
  | Accept connfd :: ts' =>
      sp1 ← Sbuf.sbuf_insert connfd sp; proxy_run ts' sp1 m
  | Work nw client buf0 method0 uri0 version0 :: ts' =>
      '(sp1, m1, tr) ← thread_turn nw client buf0 method0 uri0 version0 sp m;
      '(sp2, m2, trs) ← proxy_run ts' sp1 m1;
      Some (sp2, m2, tr :: trs)
  end.

(** The buffer operation of a round. *)
Definition op_of (t : turn) : sbuf_op :=
  match t with
  | Accept connfd => Put connfd
  | Work _ _ _ _ _ _ => Get
  end.

(** The worker rounds of [ts] as connections, on the descriptors [fds] in
    order. *)
Fixpoint conns_of (ts : list turn) (fds : list Z) : list Proxy.conn :=
  match ts with
  | [] => []
  | Accept _ :: ts' => conns_of ts' fds
  | Work nw client buf0 method0 uri0 version0 :: ts' =>
      match fds with
      | [] => []
      | fd :: fds' =>
          Proxy.Conn nw fd client buf0 method0 uri0 version0 :: conns_of ts' fds'
      end
  end.

(** ** The size of what a call of [doit] works on *)

(** The bytes a call of [doit] can take its words and headers from: what
    the client sends, and the C strings the arrays [buf], [method] and
    [uri] hold on entry. *)
Definition input_size (client : list (list byte)) (buf0 : list byte)
    (method0 uri0 : string) : Z :=
  Z.of_nat (length (concat client)) + Z.of_nat (String.length (C.cstring buf0))
  + Z.of_nat (String.length method0) + Z.of_nat (String.length uri0).

(** A connection with at most 2000 such bytes: no error page and no
    request built from it overruns an array of [MAXLINE] bytes. *)
Definition small (k : Proxy.conn) : Prop :=
  input_size (Proxy.conn_client k) (Proxy.conn_buf0 k)
    (Proxy.conn_method0 k) (Proxy.conn_uri0 k) ≤ 2000.

Definition small_turn (t : turn) : Prop :=
  match t with
  | Accept _ => True
  | Work _ client buf0 method0 uri0 _ => input_size client buf0 method0 uri0 ≤ 2000
  end.

(** ** Descriptors along a trace *)

(** The descriptors of the connections a trace opens ([Open_clientfd]
    returns a negative number when it opens none). *)
Fixpoint opened (tr : list Proxy.event) : list Z :=
  match tr with
  | [] => []
  | Proxy.connect _ _ fd :: tr' => if fd <? 0 then opened tr' else fd :: opened tr'
  | _ :: tr' => opened tr'
  end.

(** The descriptors a trace closes. *)
Fixpoint closed (tr : list Proxy.event) : list Z :=
  match tr with
  | [] => []
  | Proxy.close fd :: tr' => fd :: closed tr'
  | _ :: tr' => closed tr'
  end.

(** ** Sample states and inputs *)

(** The memory after the calls [ks] on the initialised cache. *)
Definition after (ks : list Cache.call) : Cache.mem :=
  default (Cache.cache_init Cache.boot) (Cache.run ks (Cache.cache_init Cache.boot)).

Definition two_inserts : list Cache.call :=
  [Cache.Insert "a" [x61] 1; Cache.Insert "b" [x62; x63] 2].

Definition x_cached : list Cache.call :=
  [Cache.Insert "http://origin.test/x" [x68; x69] 2].

(** A network where no connection opens. *)
Definition down_net : Proxy.net := Proxy.Net (λ _ _, -1) (λ _, []).

(** A request line of [MAXLINE - 1] bytes, the longest [Rio_readlineb]
    returns, with a method of 8170 bytes. *)
Fixpoint letters (n : nat) (c : ascii) : string :=
  match n with
  | O => EmptyString
  | S n' => String c (letters n' c)
  end.

Definition long_method : string := letters (Z.to_nat 8170) "M".

Definition long_put : list (list byte) :=
  [C.bytes (long_method +:+ " http://x/ HTTP/1.0" +:+ C.CRLF)].






(** What a client sends after its request line: three headers, the blank
    line, and a body line. *)
Definition sample_headers : list (list byte) :=
  [C.bytes ("Accept: */*" +:+ C.CRLF);
   C.bytes ("Host: h.example" +:+ C.CRLF);
   C.bytes ("connection: keep-alive" +:+ C.CRLF);
   C.bytes C.CRLF;
   C.bytes ("body" +:+ C.CRLF)].

(** A memory with two readers inside [cache_find]. *)
Definition two_readers : Cache.mem :=
  Cache.Mem ∅ (Cache.CacheT None None 0 1 0 2).

(** Two connections accepted, then two worker rounds. *)
Definition two_rounds : list turn :=
  [Accept 4; Accept 6;
   Work (fixed_net [short_line]) get_x [] "" "" "";
   Work (fixed_net [short_line]) put_x [] "" "" ""].

(** What [doit] gives for a first request for [get_x] whose origin sends
    one short line. *)
Definition fetched : Cache.mem * list Proxy.event :=
  default (Cache.cache_init Cache.boot, [])
    (Proxy.doit (fixed_net [short_line]) 4 get_x [] "" "" ""
       (Cache.cache_init Cache.boot)).

(** * Properties *)

(** ** Facts about the C layer *)

Section c_facts.

Lemma int_wrap_id (z : Z) : C.INT_MIN ≤ z ≤ C.INT_MAX → C.int_wrap z = z.
Proof.
  unfold C.INT_MIN, C.INT_MAX, C.int_wrap. intros Hz.
  rewrite Z.mod_small by lia. lia.
Qed.

Lemma code_inj (c1 c2 : ascii) : C.code c1 = C.code c2 → c1 = c2.
Proof.
  unfold C.code. intros Hc. apply Nat2Z.inj in Hc.
  rewrite <- (ascii_nat_embedding c1), <- (ascii_nat_embedding c2).
  by rewrite Hc.
Qed.

Lemma strcmp_refl (s : string) : C.strcmp s s = 0.
Proof.
  induction s as [|c s IH]; simpl; [done|].
  rewrite Z.ltb_irrefl. done.
Qed.

Lemma strcmp_eq (s1 s2 : string) : C.strcmp s1 s2 = 0 → s1 = s2.
Proof.
  revert s2. induction s1 as [|c1 r1 IH]; intros [|c2 r2]; simpl; try done.
  destruct (Z.ltb_spec (C.code c1) (C.code c2)); [done|].
  destruct (Z.ltb_spec (C.code c2) (C.code c1)); [done|].
  intros Hr. f_equal; [apply code_inj; lia | by apply IH].
Qed.

Lemma strcmp_0_iff (s1 s2 : string) : C.strcmp s1 s2 = 0 ↔ s1 = s2.
Proof. split; [apply strcmp_eq | intros ->; apply strcmp_refl]. Qed.

Lemma P_pos (s : Z) : 0 < s → C.P s = Some (s - 1).
Proof. intros Hs. unfold C.P. by rewrite (proj2 (Z.ltb_lt 0 s) Hs). Qed.

End c_facts.

(** ** The cache: list operations on the memory *)

Section cache_repr.

Implicit Types (h : gmap positive Cache.cache_block_t) (es : list entry)
  (e : entry) (m : Cache.mem).

Lemma total_len_nonneg es :
  Forall (λ e, 0 ≤ len e ≤ MAX_OBJECT_SIZE) es → 0 ≤ total_len es.
Proof.
  unfold total_len. induction 1 as [|e es He _ IH]; csimpl; lia.
Qed.

Lemma total_len_app es1 es2 : total_len (es1 ++ es2) = total_len es1 + total_len es2.
Proof.
  unfold total_len. induction es1 as [|e es1 IH]; csimpl; [done|].
  rewrite IH. lia.
Qed.

Lemma linked_dom h es e : linked h es → e ∈ es → addr e ∈ dom h.
Proof.
  intros Hl [i Hi]%list_elem_of_lookup. apply elem_of_dom.
  rewrite (Hl i e Hi). eauto.
Qed.

Lemma linked_length h es : NoDup (addr <$> es) → linked h es → (length es ≤ size h)%nat.
Proof.
  intros Hnd Hl.
  rewrite <- (length_fmap addr es), <- size_dom.
  rewrite <- (size_list_to_set (C:=gset positive) (addr <$> es)) by done.
  apply subseteq_size. intros a [e [-> He]]%elem_of_list_to_set%list_elem_of_fmap.
  by eapply linked_dom.
Qed.

Lemma addr_lookup_inj es i j e1 e2 :
  NoDup (addr <$> es) → es !! i = Some e1 → es !! j = Some e2 →
  addr e1 = addr e2 → i = j.
Proof.
  intros Hnd H1 H2 Ha.
  eapply NoDup_lookup; [exact Hnd| |]; rewrite list_lookup_fmap.
  - by rewrite H1.
  - rewrite H2. simpl. by rewrite Ha.
Qed.

Lemma block_of_app_l es es' i e :
  (S i < length es)%nat → block_of (es ++ es') i e = block_of es i e.
Proof.
  intros Hi. unfold block_of. f_equal.
  - destruct i as [|j]; [done|]. by rewrite lookup_app_l by lia.
  - by rewrite lookup_app_l by lia.
Qed.

Lemma block_of_last es t i e :
  S i = length es →
  Cache.set_next None (block_of (es ++ [t]) i e) = block_of es i e.
Proof.
  intros Hi. unfold block_of, Cache.set_next. simpl. f_equal.
  - destruct i as [|j]; [done|]. by rewrite lookup_app_l by lia.
  - by rewrite lookup_ge_None_2 by lia.
Qed.

Lemma prev_last es t :
  match length es with
  | O => None
  | S j => addr <$> (es ++ [t]) !! j
  end = addr <$> list.last es.
Proof.
  rewrite last_lookup. destruct es as [|e es]; [done|].
  change (length (e :: es)) with (S (length es)). cbv beta iota. simpl Init.Nat.pred.
  by rewrite lookup_app_l by (simpl; lia).
Qed.

(** One turn of the eviction loop drops the last entry of the list. *)
Lemma evict_body_repr m es t :
  repr m (es ++ [t]) →
  ∃ m1, Cache.evict_body m = Some m1 ∧ repr m1 es
    ∧ Cache.mutex (Cache.cache m1) = Cache.mutex (Cache.cache m)
    ∧ Cache.w (Cache.cache m1) = Cache.w (Cache.cache m)
    ∧ Cache.readcnt (Cache.cache m1) = Cache.readcnt (Cache.cache m).
Proof.
  intros [Hnd Hl Hh Ht Hlen Hcur Hbud].
  destruct m as [h [hd tl cur mx wr rc]]; simpl in *.
  rewrite last_snoc in Ht. simpl in Ht.
  rewrite fmap_app in Hnd. apply NoDup_app in Hnd as (Hnd & Hnt & _).
  apply Forall_app in Hlen as [Hlen Ht']. rewrite Forall_singleton in Ht'.
  pose proof (total_len_nonneg es Hlen) as Hnn.
  rewrite total_len_app in Hcur, Hbud. unfold total_len at 2 in Hcur. unfold total_len at 2 in Hbud.
  simpl in Hcur, Hbud.
  assert (Hbt : h !! addr t = Some (block_of (es ++ [t]) (length es) t)).
  { apply Hl. by rewrite lookup_app_r, Nat.sub_diag by lia. }
  assert (Hfresh : ∀ i e, es !! i = Some e → addr e ≠ addr t).
  { intros i e Hi Heq. apply (Hnt (addr t)); [|simpl; left].
    rewrite <- Heq. apply list_elem_of_fmap_2. by eapply list_elem_of_lookup_2. }
  unfold Cache.evict_body. simpl. rewrite Ht. simpl. rewrite Hbt. simpl.
  rewrite prev_last.
  assert (Hc : C.int_wrap (cur - len t) = total_len es).
  { rewrite int_wrap_id; unfold C.INT_MIN, C.INT_MAX, MAX_CACHE_SIZE, MAX_OBJECT_SIZE in *; lia. }
  rewrite Hc.
  destruct (list.last es) as [p|] eqn:Hp; simpl.
  - (* the tail has a predecessor [p] *)
    rewrite last_lookup in Hp.
    assert (Hlp : S (Init.Nat.pred (length es)) = length es).
    { apply lookup_lt_Some in Hp. lia. }
    assert (Hbp : h !! addr p = Some (block_of (es ++ [t]) (Init.Nat.pred (length es)) p)).
    { apply Hl. by rewrite lookup_app_l by lia. }
    unfold Cache.store. rewrite Hbp. simpl.
    eexists. split; [reflexivity|]. split; [|done].
    split; simpl; try done.
    + intros i e Hi.
      rewrite lookup_delete_ne by (symmetry; by eapply Hfresh).
      destruct (decide (i = Init.Nat.pred (length es))) as [->|Hne].
      * assert (e = p) as -> by congruence.
        rewrite lookup_insert_eq. f_equal. by apply block_of_last.
      * rewrite lookup_insert_ne.
        2:{ intros Heq. apply Hne. symmetry.
            eapply (addr_lookup_inj es); eauto. }
        rewrite (Hl i e) by (by rewrite lookup_app_l by (apply lookup_lt_Some in Hi; lia)).
        f_equal. apply block_of_app_l. apply lookup_lt_Some in Hi. lia.
    + rewrite Hh. destruct es as [|e0 es0]; [done|]. simpl.
      rewrite bool_decide_eq_false_2; [done|].
      intros [= Heq]. by apply (Hfresh O e0).
    + by rewrite last_lookup, Hp.
    + lia.
  - (* the tail is the only entry *)
    apply last_None in Hp as ->. simpl in *.
    eexists. split; [reflexivity|]. split; [|done].
    rewrite Hh, bool_decide_eq_true_2 by done.
    split; simpl; done.
Qed.

(** The eviction loop keeps a prefix of the list that leaves room for
    [size] more bytes. *)
Lemma evict_loop_repr fuel size m es :
  repr m es → 0 ≤ size ≤ MAX_OBJECT_SIZE → (length es ≤ fuel)%nat →
  ∃ m1 es1 es2, Cache.evict_loop fuel size m = Some m1 ∧ es = es1 ++ es2
    ∧ repr m1 es1 ∧ total_len es1 + size ≤ MAX_CACHE_SIZE
    ∧ Cache.mutex (Cache.cache m1) = Cache.mutex (Cache.cache m)
    ∧ Cache.w (Cache.cache m1) = Cache.w (Cache.cache m)
    ∧ Cache.readcnt (Cache.cache m1) = Cache.readcnt (Cache.cache m).
Proof.
  intros Hr Hsz. revert m es Hr.
  induction fuel as [|fuel IH]; intros m es Hr Hfuel.
  - destruct es; [|simpl in Hfuel; lia].
    exists m, [], []. simpl.
    pose proof Hr as [_ _ _ Ht _ Hcur _]. simpl in Ht. rewrite Ht. simpl.
    rewrite andb_false_r. split_and!; try done.
    unfold total_len, MAX_CACHE_SIZE, MAX_OBJECT_SIZE in *. simpl. lia.
  - pose proof Hr as [_ _ _ Ht Hlen Hcur Hbud].
    pose proof (total_len_nonneg es Hlen) as Hnn.
    simpl. rewrite Hcur.
    rewrite int_wrap_id
      by (unfold C.INT_MIN, C.INT_MAX, MAX_CACHE_SIZE, MAX_OBJECT_SIZE in *; lia).
    destruct (Z.gtb_spec (total_len es + size) MAX_CACHE_SIZE) as [Hgt|Hle]; simpl.
    + destruct es as [|t es _] using rev_ind.
      { unfold total_len, MAX_CACHE_SIZE, MAX_OBJECT_SIZE in *. simpl in Hgt. lia. }
      rewrite last_snoc in Ht. rewrite Ht. simpl.
      destruct (evict_body_repr m es t Hr) as (m1 & -> & Hr1 & Hmx & Hw & Hrc).
      simpl. rewrite length_app in Hfuel. simpl in Hfuel.
      destruct (IH m1 es Hr1) as (m2 & es1 & es2 & -> & -> & Hr2 & Hroom & ? & ? & ?);
        [lia|].
      exists m2, es1, (es2 ++ [t]). rewrite <- app_assoc.
      split_and!; try done; congruence.
    + exists m, es, []. rewrite app_nil_r. done.
Qed.

(** An insert that is not refused puts its entry in front of a prefix of the
    list. *)
Lemma cache_insert_repr u bytes size m es :
  idle m → repr m es → 0 ≤ size ≤ MAX_OBJECT_SIZE →
  ∃ m1 a es1 es2, Cache.cache_insert u bytes size m = Some m1 ∧ es = es1 ++ es2
    ∧ repr m1 (Entry a u (Cache.memcpy bytes size) size :: es1) ∧ idle m1.
Proof.
  intros (Hmx & Hw & Hrc) Hr Hsz. unfold Cache.cache_insert.
  destruct (Z.gtb_spec size MAX_OBJECT_SIZE) as [?|_]; [lia|].
  rewrite Hw. simpl.
  set (m0 := Cache.Mem _ _).
  assert (Hr0 : repr m0 es) by (destruct Hr; by split).
  destruct (evict_loop_repr (base.size (Cache.heap m)) size m0 es Hr0 Hsz)
    as (m1 & es1 & es2 & -> & -> & Hr1 & Hroom & Hmx1 & Hw1 & Hrc1).
  { destruct Hr. by apply linked_length. }
  simpl in Hmx1, Hw1, Hrc1. simpl.
  unfold Cache.Malloc_ok. rewrite (proj2 (Z.leb_le 0 size)) by lia.
  destruct Hr1 as [Hnd Hl Hh Ht Hlen Hcur Hbud].
  set (a := fresh (dom (Cache.heap m1))).
  assert (Ha : Cache.heap m1 !! a = None).
  { apply not_elem_of_dom. apply is_fresh. }
  assert (Hfresh : ∀ i e, es1 !! i = Some e → addr e ≠ a).
  { intros i e Hi Heq. rewrite <- Heq, (Hl i e Hi) in Ha. done. }
  set (e0 := Entry a u (Cache.memcpy bytes size) size).
  pose proof (total_len_nonneg es1 Hlen) as Hnn.
  assert (Hrepr : ∀ h2 tl,
    linked h2 (e0 :: es1) → tl = addr <$> list.last (e0 :: es1) →
    repr (Cache.Mem h2 (Cache.CacheT (Some a) tl
            (C.int_wrap (Cache.current_size (Cache.cache m1) + size))
            (Cache.mutex (Cache.cache m1)) (C.V (Cache.w (Cache.cache m1)))
            (Cache.readcnt (Cache.cache m1)))) (e0 :: es1)).
  { intros h2 tl Hl2 ->. split; try done.
    - rewrite fmap_cons. apply NoDup_cons. split; [|done].
      intros [e [Heq [i Hi]%list_elem_of_lookup]]%list_elem_of_fmap.
      simpl in Heq. by eapply Hfresh.
    - by constructor.
    - cbn [Cache.cache Cache.current_size]. rewrite Hcur. unfold total_len at 2. csimpl. fold (total_len es1).
      rewrite int_wrap_id
        by (unfold C.INT_MIN, C.INT_MAX, MAX_CACHE_SIZE, MAX_OBJECT_SIZE in *; lia).
      lia.
    - unfold total_len. csimpl. fold (total_len es1). lia. }
  assert (Hidle : ∀ h2 hd tl cur,
    idle (Cache.Mem h2 (Cache.CacheT hd tl cur (Cache.mutex (Cache.cache m1))
            (C.V (Cache.w (Cache.cache m1))) (Cache.readcnt (Cache.cache m1))))).
  { intros. unfold idle, C.V. simpl. rewrite Hmx1, Hw1, Hrc1, Hmx, Hrc. done. }
  rewrite Hh, Ht.
  destruct es1 as [|e1 es1]; simpl.
  - exists (Cache.Mem (<[a:=Cache.Block u (Cache.memcpy bytes size) size None None]> (Cache.heap m1))
       (Cache.CacheT (Some a) (Some a)
          (C.int_wrap (Cache.current_size (Cache.cache m1) + size))
          (Cache.mutex (Cache.cache m1)) (C.V (Cache.w (Cache.cache m1)))
          (Cache.readcnt (Cache.cache m1)))), a, [], es2.
    split_and!; try done; try apply Hrepr; try apply Hidle; try done.
    intros [|i] e Hi; [|done]. injection Hi as <-. simpl.
    by rewrite lookup_insert_eq.
  - unfold Cache.store. rewrite lookup_insert_ne by (symmetry; by apply (Hfresh O e1)).
    rewrite (Hl O e1) by done. simpl.
    rewrite bool_decide_eq_false_2.
    2:{ destruct (list.last (e1 :: es1)) eqn:Hlast; [done|].
        by apply last_None in Hlast. }
    eexists _, a, (e1 :: es1), es2.
    split; [reflexivity|]. split; [done|]. split; [|apply Hidle].
    apply Hrepr; [|done].
    intros [|[|i]] e Hi; simpl in Hi.
    + injection Hi as <-. simpl.
      rewrite lookup_insert_ne by (by apply (Hfresh O e1)).
      by rewrite lookup_insert_eq.
    + injection Hi as <-. by rewrite lookup_insert_eq.
    + assert (addr e1 ≠ addr e).
      { intros Heq. symmetry in Heq.
        pose proof (addr_lookup_inj (e1 :: es1) (S i) O e e1 Hnd Hi eq_refl Heq). done. }
      rewrite lookup_insert_ne by done.
      rewrite lookup_insert_ne by (symmetry; by apply (Hfresh (S i) e)).
      by rewrite (Hl (S i) e Hi).
Qed.

Lemma cache_insert_refused u bytes size m :
  MAX_OBJECT_SIZE < size → Cache.cache_insert u bytes size m = Some m.
Proof.
  intros Hsz. unfold Cache.cache_insert.
  by destruct (Z.gtb_spec size MAX_OBJECT_SIZE); [|lia].
Qed.

(** A call of [cache_insert] that returns was refused for its size, or had a
    size between 0 and [MAX_OBJECT_SIZE]. *)
Lemma cache_insert_size u bytes size m m1 :
  Cache.cache_insert u bytes size m = Some m1 →
  MAX_OBJECT_SIZE < size ∧ m1 = m ∨ 0 ≤ size ≤ MAX_OBJECT_SIZE.
Proof.
  unfold Cache.cache_insert.
  destruct (Z.gtb_spec size MAX_OBJECT_SIZE) as [Hgt|Hle].
  - intros [= <-]. by left.
  - intros Hi. right. split; [|done].
    destruct (C.P _); [|done]. simpl in Hi.
    destruct (Cache.evict_loop _ _ _); [|done]. simpl in Hi.
    unfold Cache.Malloc_ok in Hi.
    destruct (Z.leb_spec 0 size); [done|discriminate].
Qed.

Lemma walk_linked h es i fuel :
  linked h es → (length es ≤ i + fuel)%nat →
  Cache.walk fuel h (addr <$> es !! i) = drop i (blocks_of es).
Proof.
  intros Hl. revert i. induction fuel as [|fuel IH]; intros i Hfuel.
  - rewrite lookup_ge_None_2 by lia. simpl.
    rewrite drop_ge; [done|]. unfold blocks_of. rewrite length_imap. lia.
  - destruct (es !! i) as [e|] eqn:Hi; simpl.
    + rewrite (Hl i e Hi).
      rewrite (drop_S (blocks_of es) (block_of es i e) i).
      2:{ unfold blocks_of. by rewrite list_lookup_imap, Hi. }
      f_equal. simpl. apply IH. lia.
    + apply lookup_ge_None_1 in Hi.
      rewrite drop_ge; [done|]. unfold blocks_of. rewrite length_imap. lia.
Qed.

Lemma live_repr m es : repr m es → Cache.live m = blocks_of es.
Proof.
  intros [Hnd Hl Hh _ _ _ _]. unfold Cache.live. rewrite Hh.
  rewrite walk_linked; [done|done|]. simpl. by apply linked_length.
Qed.

Lemma live_uris_repr m es : repr m es → Cache.live_uris m = key <$> es.
Proof.
  intros Hr. unfold Cache.live_uris. rewrite (live_repr m es Hr).
  apply list_eq. intros i. unfold blocks_of.
  rewrite !list_lookup_fmap, list_lookup_imap.
  by destruct (es !! i).
Qed.

Lemma live_bytes_repr m es : repr m es → Cache.live_bytes m = total_len es.
Proof.
  intros Hr. unfold Cache.live_bytes, total_len. rewrite (live_repr m es Hr).
  f_equal. apply list_eq. intros i. unfold blocks_of.
  rewrite !list_lookup_fmap, list_lookup_imap.
  by destruct (es !! i).
Qed.

Lemma find_loop_linked h es u i fuel :
  linked h es → (length es < i + fuel)%nat →
  Cache.find_loop fuel h u (addr <$> es !! i)
  = Some (addr <$> lookup_key u (drop i es)).
Proof.
  intros Hl. revert i. induction fuel as [|fuel IH]; intros i Hfuel.
  - rewrite lookup_ge_None_2 by lia. rewrite drop_ge by lia. done.
  - destruct (es !! i) as [e|] eqn:Hi; simpl.
    + rewrite (Hl i e Hi). simpl. rewrite (drop_S es e i Hi). simpl.
      destruct (decide (key e = u)) as [->|Hne].
      * by rewrite strcmp_refl.
      * destruct (Z.eqb_spec (C.strcmp (key e) u) 0) as [H0%strcmp_eq|_]; [done|].
        apply IH. lia.
    + apply lookup_ge_None_1 in Hi. by rewrite drop_ge by lia.
Qed.

(** On a list, [cache_find] returns the first entry with the uri and leaves
    the memory as it was. *)
Lemma cache_find_repr u m es :
  idle m → repr m es →
  Cache.cache_find u m = Some (addr <$> lookup_key u es, m).
Proof.
  intros (Hmx & Hw & Hrc) [Hnd Hl Hh _ _ _ _].
  pose proof (linked_length _ _ Hnd Hl) as Hlen.
  unfold Cache.cache_find. cbv zeta.
  rewrite Hh, (find_loop_linked (Cache.heap m) es u O) by (try done; lia).
  rewrite Hmx, Hw, Hrc. simpl.
  destruct m as [h [hd tl cur mx wr rc]]. simpl in *. by subst.
Qed.

(** Whatever the memory, a [cache_find] that returns has changed neither a
    block nor the list's ends nor the byte count. *)
Lemma cache_find_frame u m r m1 :
  Cache.cache_find u m = Some (r, m1) →
  Cache.heap m1 = Cache.heap m
  ∧ Cache.head (Cache.cache m1) = Cache.head (Cache.cache m)
  ∧ Cache.tail (Cache.cache m1) = Cache.tail (Cache.cache m)
  ∧ Cache.current_size (Cache.cache m1) = Cache.current_size (Cache.cache m).
Proof.
  unfold Cache.cache_find. cbv zeta.
  generalize (Cache.find_loop (S (size (Cache.heap m))) (Cache.heap m) u
                (Cache.head (Cache.cache m))).
  intros fl Hf.
  destruct (C.P (Cache.mutex (Cache.cache m))); [|done]. simpl in Hf.
  destruct (if C.int_wrap (Cache.readcnt (Cache.cache m) + 1) =? 1
            then C.P (Cache.w (Cache.cache m)) else Some (Cache.w (Cache.cache m)));
    [|done]. simpl in Hf.
  destruct fl; [|done]. simpl in Hf.
  destruct (C.P (C.V _)); [|done]. simpl in Hf.
  by injection Hf as <- <-.
Qed.

Lemma wf_init : wf (Cache.cache_init Cache.boot).
Proof.
  split; [done|]. exists []. split; try done. constructor.
Qed.

Lemma wf_do_call k m m1 : wf m → Cache.do_call k m = Some m1 → wf m1.
Proof.
  intros [Hidle [es Hr]] Hk. destruct k as [u bytes size|u]; simpl in Hk.
  - destruct (cache_insert_size _ _ _ _ _ Hk) as [[_ ->]|Hsz].
    { split; eauto. }
    destruct (cache_insert_repr u bytes size m es Hidle Hr Hsz)
      as (m2 & a & es1 & es2 & Hi & _ & Hr2 & Hidle2).
    rewrite Hi in Hk. injection Hk as <-. split; eauto.
  - rewrite (cache_find_repr u m es Hidle Hr) in Hk. injection Hk as <-.
    split; eauto.
Qed.

Lemma wf_run ks m m1 : wf m → Cache.run ks m = Some m1 → wf m1.
Proof.
  revert m. induction ks as [|k ks IH]; intros m Hwf; simpl.
  - by intros [= <-].
  - destruct (Cache.do_call k m) as [m2|] eqn:Hk; [|done]. simpl.
    apply IH. by eapply wf_do_call.
Qed.

Lemma reachable_wf m : Cache.reachable m → wf m.
Proof. intros [ks Hks]. eapply wf_run; [apply wf_init|done]. Qed.

(** After an insert that is not refused, the new entry is the first match
    for its uri. *)
Lemma insert_find_repr u bytes size m es :
  idle m → repr m es → 0 ≤ size ≤ MAX_OBJECT_SIZE →
  ∃ m1 a es1 es2, Cache.cache_insert u bytes size m = Some m1 ∧ es = es1 ++ es2
    ∧ repr m1 (Entry a u (Cache.memcpy bytes size) size :: es1) ∧ idle m1
    ∧ Cache.cache_find u m1 = Some (Some a, m1)
    ∧ Cache.head (Cache.cache m1) = Some a
    ∧ Cache.heap m1 !! a
      = Some (Cache.Block u (Cache.memcpy bytes size) size None (addr <$> es1 !! O)).
Proof.
  intros Hidle Hr Hsz.
  destruct (cache_insert_repr u bytes size m es Hidle Hr Hsz)
    as (m1 & a & es1 & es2 & Hi & Hes & Hr1 & Hidle1).
  exists m1, a, es1, es2. split_and!; try done.
  - rewrite (cache_find_repr u m1 _ Hidle1 Hr1). simpl.
    by rewrite decide_True.
  - by destruct Hr1.
  - destruct Hr1 as [_ Hl _ _ _ _ _]. exact (Hl O _ eq_refl).
Qed.

Lemma run_total ks m : wf m → Forall Cache.sized ks → is_Some (Cache.run ks m).
Proof.
  intros Hwf Hks. revert m Hwf.
  induction Hks as [|k ks Hk _ IH]; intros m Hwf; simpl; [by eexists|].
  assert (∃ m1, Cache.do_call k m = Some m1) as [m1 Hm1].
  { destruct Hwf as [Hidle [es Hr]]. destruct k as [u bytes size|u]; simpl in *.
    - destruct (Z.le_gt_cases size MAX_OBJECT_SIZE) as [Hle|Hgt].
      + destruct (cache_insert_repr u bytes size m es Hidle Hr) as (m1 & ? & ? & ? & ? & _);
          [lia|]. eauto.
      + exists m. apply cache_insert_refused. lia.
    - rewrite (cache_find_repr u m es Hidle Hr). simpl. eauto. }
  rewrite Hm1. simpl. apply IH. by eapply wf_do_call.
Qed.

(** Every live uri was put there by an insert that was not refused. *)
Lemma run_keys ks m es m1 :
  idle m → repr m es → Cache.run ks m = Some m1 →
  ∃ es1, idle m1 ∧ repr m1 es1
    ∧ ∀ u, u ∈ key <$> es1 → u ∈ Cache.admitted ks ∨ u ∈ key <$> es.
Proof.
  revert m es. induction ks as [|k ks IH]; intros m es Hidle Hr; simpl.
  - intros [= <-]. exists es. split_and!; try done. by right.
  - destruct (Cache.do_call k m) as [m2|] eqn:Hk; [|done]. simpl. intros Hrun.
    destruct k as [u bytes size|u]; simpl in Hk.
    + destruct (cache_insert_size _ _ _ _ _ Hk) as [[Hgt ->]|Hsz].
      * destruct (Z.gtb_spec size MAX_OBJECT_SIZE); [|lia]. by eapply IH.
      * destruct (Z.gtb_spec size MAX_OBJECT_SIZE); [lia|].
        destruct (cache_insert_repr u bytes size m es Hidle Hr Hsz)
          as (m3 & a & es1 & es2 & Hi & -> & Hr3 & Hidle3).
        rewrite Hi in Hk. injection Hk as ->.
        destruct (IH m2 _ Hidle3 Hr3 Hrun) as (es4 & ? & ? & Hkeys).
        exists es4. split_and!; try done. intros u' Hu'.
        destruct (Hkeys u' Hu') as [?|Hin]; [left; by right|].
        rewrite fmap_cons in Hin. simpl in Hin.
        apply elem_of_cons in Hin as [->|Hin]; [left; by left|].
        right. rewrite fmap_app. apply elem_of_app. by left.
    + rewrite (cache_find_repr u m es Hidle Hr) in Hk. injection Hk as <-.
      by eapply IH.
Qed.

Lemma lookup_key_None u es : u ∉ key <$> es → lookup_key u es = None.
Proof.
  induction es as [|e es IH]; [done|]. rewrite fmap_cons. simpl.
  intros [Hne Hnin]%not_elem_of_cons.
  rewrite decide_False by done. by apply IH.
Qed.

End cache_repr.

(** ** The cache: the claims *)

Section cache_claims.

(** C4. After any sequence of calls of the cache from the initialised empty
    cache (inserts, and lookups as well), the content sizes of the live
    entries add up to at most [MAX_CACHE_SIZE], and [current_size] is that
    sum; the sequence runs to its end whenever its lengths are byte counts. *)
Theorem live_bytes_within_budget (ks : list Cache.call) :
  (Forall Cache.sized ks → is_Some (Cache.run ks (Cache.cache_init Cache.boot)))
  ∧ ∀ m, Cache.run ks (Cache.cache_init Cache.boot) = Some m →
      Cache.live_bytes m ≤ MAX_CACHE_SIZE
      ∧ Cache.current_size (Cache.cache m) = Cache.live_bytes m.
Proof.
  split.
  - apply run_total, wf_init.
  - intros m Hrun.
    destruct (wf_run ks _ m wf_init Hrun) as [_ [es Hr]].
    rewrite (live_bytes_repr m es Hr). by destruct Hr.
Qed.

(** C5. Right after [cache_insert(u, B, n)] with [0 ≤ n ≤ MAX_OBJECT_SIZE]
    on a reachable cache, [cache_find(u)] returns the block just linked at
    the head, whose content is the first [n] bytes of [B], whatever older
    entries the list holds. *)
Theorem insert_then_find (m : Cache.mem) (u : string) (B : list byte) (n : Z) :
  Cache.reachable m → 0 ≤ n ≤ MAX_OBJECT_SIZE →
  ∃ m1 a b,
    Cache.cache_insert u B n m = Some m1
    ∧ Cache.cache_find u m1 = Some (Some a, m1)
    ∧ Cache.head (Cache.cache m1) = Some a
    ∧ Cache.heap m1 !! a = Some b
    ∧ Cache.uri b = u
    ∧ Cache.content b = take (Z.to_nat n) B
    ∧ Cache.content_size b = n.
Proof.
  intros [Hidle [es Hr]]%reachable_wf Hn.
  destruct (insert_find_repr u B n m es Hidle Hr Hn)
    as (m1 & a & es1 & es2 & Hi & _ & _ & _ & Hf & Hh & Hb).
  exists m1, a, (Cache.Block u (Cache.memcpy B n) n None (addr <$> es1 !! O)).
  by split_and!.
Qed.

(** C6. [cache_insert] with a length above [MAX_OBJECT_SIZE] returns the
    memory it was given, whatever that memory is; and on a cache reached by
    calls none of which admitted [u], [cache_find(u)] then still misses. *)
Theorem oversize_insert_is_noop (u : string) (B : list byte) (size : Z) :
  MAX_OBJECT_SIZE < size →
  (∀ m, Cache.cache_insert u B size m = Some m)
  ∧ ∀ ks m, Cache.run ks (Cache.cache_init Cache.boot) = Some m →
      u ∉ Cache.admitted ks →
      ∃ m1, Cache.cache_insert u B size m = Some m1
        ∧ Cache.cache_find u m1 = Some (None, m1).
Proof.
  intros Hsz. split; [intros m; by apply cache_insert_refused|].
  intros ks m Hrun Hu. exists m. split; [by apply cache_insert_refused|].
  destruct wf_init as [Hidle0 [es0 Hr0]].
  assert (es0 = []) as ->.
  { destruct Hr0 as [_ _ Hh _ _ _ _]. by destruct es0. }
  destruct (run_keys ks _ [] m Hidle0 Hr0 Hrun) as (es & Hidle & Hr & Hkeys).
  rewrite (cache_find_repr u m es Hidle Hr), lookup_key_None; [done|].
  intros Hin. destruct (Hkeys u Hin) as [?|Hnil]; [done|].
  by apply elem_of_nil in Hnil.
Qed.

(** C8. A [cache_find] that returns leaves every block (uri, content,
    content_size, prev, next), [head], [tail] and [current_size] as they
    were, so the list of live entries is the same, in the same order; on a
    reachable cache it does return, and the whole memory is as before. *)
Theorem cache_find_changes_nothing (u : string) (m : Cache.mem) :
  (Cache.reachable m → ∃ r, Cache.cache_find u m = Some (r, m))
  ∧ ∀ r m1, Cache.cache_find u m = Some (r, m1) →
      Cache.heap m1 = Cache.heap m
      ∧ Cache.head (Cache.cache m1) = Cache.head (Cache.cache m)
      ∧ Cache.tail (Cache.cache m1) = Cache.tail (Cache.cache m)
      ∧ Cache.current_size (Cache.cache m1) = Cache.current_size (Cache.cache m)
      ∧ Cache.live m1 = Cache.live m.
Proof.
  split.
  - intros [Hidle [es Hr]]%reachable_wf.
    rewrite (cache_find_repr u m es Hidle Hr). eauto.
  - intros r m1 Hf.
    destruct (cache_find_frame u m r m1 Hf) as (Hh & Hhd & Htl & Hcur).
    split_and!; try done. unfold Cache.live. by rewrite Hh, Hhd.
Qed.

(** C2, as stated, fails: two inserts of one uri leave two live entries with
    that uri. *)
Lemma reinsert_duplicates_uri :
  ¬ ∀ ks m, Cache.run ks (Cache.cache_init Cache.boot) = Some m →
      NoDup (Cache.live_uris m).
Proof.
  intros Hclaim.
  pose (ks := [Cache.Insert "u" [x61] 1; Cache.Insert "u" [x62] 1]).
  assert (Hrun : Cache.live_uris <$> Cache.run ks (Cache.cache_init Cache.boot)
                 = Some ["u"; "u"]%string) by (vm_compute; reflexivity).
  destruct (Cache.run ks (Cache.cache_init Cache.boot)) as [m|] eqn:Hm; [|done].
  simpl in Hrun. injection Hrun as Hrun.
  specialize (Hclaim ks m Hm). rewrite Hrun in Hclaim.
  apply NoDup_cons in Hclaim as [Hin _]. apply Hin. by left.
Qed.

(** C2, amended. On a reachable cache whose live entries have distinct
    uris: every [cache_find] returns and leaves the memory as it is; every
    [cache_insert] of more than [MAX_OBJECT_SIZE] bytes leaves the memory as
    it is; every [cache_insert(u, B, n)] with [0 ≤ n ≤ MAX_OBJECT_SIZE]
    returns, and the live uris are then [u] followed by the uris of the
    entries it did not evict, the first [k] of the old list: they are
    distinct exactly when none of these is [u], so whenever [u] was not
    live. *)
Theorem distinct_uris_preserved (m : Cache.mem) :
  Cache.reachable m → NoDup (Cache.live_uris m) →
  (∀ u, ∃ r, Cache.cache_find u m = Some (r, m))
  ∧ (∀ u B size, MAX_OBJECT_SIZE < size → Cache.cache_insert u B size m = Some m)
  ∧ (∀ u B size, 0 ≤ size ≤ MAX_OBJECT_SIZE →
       ∃ m1 k,
         Cache.cache_insert u B size m = Some m1
         ∧ Cache.live_uris m1 = u :: take k (Cache.live_uris m)
         ∧ (NoDup (Cache.live_uris m1) ↔ u ∉ take k (Cache.live_uris m))
         ∧ (u ∉ Cache.live_uris m → NoDup (Cache.live_uris m1))).
Proof.
  intros [Hidle [es Hr]]%reachable_wf Hnd. split_and!.
  - intros u. rewrite (cache_find_repr u m es Hidle Hr). eauto.
  - intros u B size Hsz. by apply cache_insert_refused.
  - intros u B size Hsz.
    destruct (cache_insert_repr u B size m es Hidle Hr Hsz)
      as (m1 & a & es1 & es2 & Hi & -> & Hr1 & _).
    exists m1, (length es1).
    rewrite (live_uris_repr _ _ Hr) in Hnd |- *.
    rewrite (live_uris_repr _ _ Hr1).
    assert (Hk : take (length es1) (key <$> es1 ++ es2) = key <$> es1).
    { rewrite fmap_app, take_app_length'; [done|by rewrite length_fmap]. }
    assert (Hnd1 : NoDup (key <$> es1)).
    { rewrite fmap_app in Hnd. by apply NoDup_app in Hnd as (? & _ & _). }
    rewrite Hk, fmap_cons. cbn [key].
    split_and!; [done|done| |].
    + split; [by intros [? _]%NoDup_cons|]. intros Hu. by apply NoDup_cons.
    + intros Hu. apply NoDup_cons. split; [|done].
      intros Hin. apply Hu. rewrite fmap_app, elem_of_app. by left.
Qed.

End cache_claims.

(** Instances of the cache theorems on concrete calls. *)

Lemma live_bytes_within_budget_witness :
  Forall Cache.sized [Cache.Insert "a" [x61] 1; Cache.Find "a"]
  ∧ ∃ m, Cache.run [Cache.Insert "a" [x61] 1; Cache.Find "a"]
           (Cache.cache_init Cache.boot) = Some m
       ∧ Cache.live_bytes m ≤ MAX_CACHE_SIZE.
Proof.
  pose proof (live_bytes_within_budget [Cache.Insert "a" [x61] 1; Cache.Find "a"])
    as [Htotal Hbudget].
  assert (Hs : Forall Cache.sized [Cache.Insert "a" [x61] 1; Cache.Find "a"]).
  { repeat constructor; simpl; lia. }
  split; [exact Hs|].
  destruct (Htotal Hs) as [m Hm]. exists m. split; [exact Hm|].
  exact (proj1 (Hbudget m Hm)).
Defined.

Lemma insert_then_find_witness :
  Cache.reachable (Cache.cache_init Cache.boot)
  ∧ 0 ≤ 1 ≤ MAX_OBJECT_SIZE
  ∧ ∃ m1 a b,
      Cache.cache_insert "u" [x61; x62] 1 (Cache.cache_init Cache.boot) = Some m1
      ∧ Cache.cache_find "u" m1 = Some (Some a, m1)
      ∧ Cache.head (Cache.cache m1) = Some a
      ∧ Cache.heap m1 !! a = Some b
      ∧ Cache.uri b = "u"%string
      ∧ Cache.content b = take (Z.to_nat 1) [x61; x62]
      ∧ Cache.content_size b = 1.
Proof.
  assert (Hreach : Cache.reachable (Cache.cache_init Cache.boot))
    by (exists []; reflexivity).
  assert (Hn : 0 ≤ 1 ≤ MAX_OBJECT_SIZE) by (unfold MAX_OBJECT_SIZE; lia).
  split; [exact Hreach|]. split; [exact Hn|].
  exact (insert_then_find (Cache.cache_init Cache.boot) "u" [x61; x62] 1 Hreach Hn).
Defined.

Lemma oversize_insert_is_noop_witness :
  MAX_OBJECT_SIZE < 102401
  ∧ Cache.cache_insert "u" [] 102401 (Cache.cache_init Cache.boot)
    = Some (Cache.cache_init Cache.boot)
  ∧ ∃ m1, Cache.cache_insert "u" [] 102401 (Cache.cache_init Cache.boot) = Some m1
      ∧ Cache.cache_find "u" m1 = Some (None, m1).
Proof.
  assert (Hsz : MAX_OBJECT_SIZE < 102401) by (unfold MAX_OBJECT_SIZE; lia).
  destruct (oversize_insert_is_noop "u" [] 102401 Hsz) as [Hnoop Hmiss].
  split; [exact Hsz|]. split; [apply Hnoop|].
  apply (Hmiss [] (Cache.cache_init Cache.boot)); [reflexivity|].
  simpl. apply not_elem_of_nil.
Defined.

Lemma cache_find_changes_nothing_witness :
  ∃ m r m1,
    Cache.run [Cache.Insert "a" [x61] 1; Cache.Insert "b" [x62] 1]
      (Cache.cache_init Cache.boot) = Some m
    ∧ Cache.cache_find "a" m = Some (r, m1)
    ∧ Cache.heap m1 = Cache.heap m
    ∧ Cache.head (Cache.cache m1) = Cache.head (Cache.cache m)
    ∧ Cache.live m1 = Cache.live m.
Proof.
  destruct (Cache.run [Cache.Insert "a" [x61] 1; Cache.Insert "b" [x62] 1]
              (Cache.cache_init Cache.boot)) as [m|] eqn:Hm;
    [|vm_compute in Hm; discriminate].
  assert (Hreach : Cache.reachable m) by (eexists; exact Hm).
  destruct (cache_find_changes_nothing "a" m) as [Hret Hframe].
  destruct (Hret Hreach) as [r Hr].
  destruct (Hframe r m Hr) as (Hheap & Hhead & _ & _ & Hlive).
  exists m, r, m. split; [reflexivity|]. split; [exact Hr|].
  split; [exact Hheap|]. split; [exact Hhead|exact Hlive].
Defined.

Lemma distinct_uris_preserved_witness :
  Cache.reachable (after two_inserts)
  ∧ NoDup (Cache.live_uris (after two_inserts))
  ∧ 0 ≤ 1 ≤ MAX_OBJECT_SIZE
  ∧ (∃ m1 k, Cache.cache_insert "c" [x63] 1 (after two_inserts) = Some m1
       ∧ Cache.live_uris m1 = "c"%string :: take k (Cache.live_uris (after two_inserts))
       ∧ NoDup (Cache.live_uris m1))
  ∧ (∃ m1 k, Cache.cache_insert "a" [x63] 1 (after two_inserts) = Some m1
       ∧ Cache.live_uris m1 = "a"%string :: take k (Cache.live_uris (after two_inserts))
       ∧ (NoDup (Cache.live_uris m1)
          ↔ "a"%string ∉ take k (Cache.live_uris (after two_inserts)))).
Proof.
  assert (Hreach : Cache.reachable (after two_inserts))
    by (exists two_inserts; vm_compute; reflexivity).
  assert (Hlive : Cache.live_uris (after two_inserts) = ["b"; "a"]%string)
    by (vm_compute; reflexivity).
  assert (Hnd : NoDup (Cache.live_uris (after two_inserts))).
  { rewrite Hlive. apply NoDup_cons. split.
    - intros Hin. apply list_elem_of_singleton in Hin. discriminate Hin.
    - apply NoDup_singleton. }
  assert (Hn : 0 ≤ 1 ≤ MAX_OBJECT_SIZE) by (unfold MAX_OBJECT_SIZE; lia).
  split; [exact Hreach|]. split; [exact Hnd|]. split; [exact Hn|].
  destruct (distinct_uris_preserved (after two_inserts) Hreach Hnd) as (_ & _ & Hins).
  split.
  - destruct (Hins "c"%string [x63] 1 Hn) as (m1 & k & Hi & Hu & _ & Hfresh).
    exists m1, k. split; [exact Hi|]. split; [exact Hu|].
    apply Hfresh. rewrite Hlive. intros Hin.
    apply elem_of_cons in Hin as [Hin|Hin]; [discriminate Hin|].
    apply list_elem_of_singleton in Hin. discriminate Hin.
  - destruct (Hins "a"%string [x63] 1 Hn) as (m1 & k & Hi & Hu & Hiff & _).
    exists m1, k. split; [exact Hi|]. split; [exact Hu|exact Hiff].
Defined.

(** ** The hand-off queue *)

Section sbuf_facts.

Implicit Types (sp : Sbuf.sbuf_t) (q xs : list Z).

Lemma slot_ok (i n : Z) (len : nat) :
  0 ≤ i → 0 < n → Z.of_nat len = n →
  Sbuf.slot i n len = Some (Z.to_nat (i mod n)).
Proof.
  intros Hi Hn Hlen. unfold Sbuf.slot.
  destruct (Z.eqb_spec n 0); [lia|].
  rewrite Z.rem_mod_nonneg by lia.
  pose proof (Z.mod_pos_bound i n Hn).
  rewrite (proj2 (Z.leb_le 0 (i mod n))) by lia.
  rewrite (proj2 (Z.ltb_lt (i mod n) (Z.of_nat len))) by lia.
  done.
Qed.

Lemma mod_apart (a d n : Z) : 0 < d < n → a mod n ≠ (a + d) mod n.
Proof.
  intros Hd Heq.
  assert (Hn : n ≠ 0) by lia.
  pose proof (Z.div_mod a n Hn). pose proof (Z.div_mod (a + d) n Hn).
  assert (d = n * ((a + d) / n - a / n)) as Hmul by lia.
  assert (0 < (a + d) / n - a / n < 1) by nia. lia.
Qed.

Lemma sbuf_init_holds (n : Z) : 0 < n → holds (Sbuf.sbuf_init n) [].
Proof.
  intros Hn. split; simpl; try done; try lia.
  rewrite length_replicate. lia.
Qed.

Lemma sbuf_insert_holds sp q x :
  holds sp q → Z.of_nat (length q) < Sbuf.n sp → Sbuf.rear sp < C.INT_MAX →
  ∃ sp1, Sbuf.sbuf_insert x sp = Some sp1 ∧ holds sp1 (q ++ [x])
    ∧ Sbuf.front sp1 = Sbuf.front sp ∧ Sbuf.n sp1 = Sbuf.n sp.
Proof.
  intros [Hn Hbuf Hmx Hfr Hrear Hit Hsl Hdata] Hroom Hmax.
  unfold Sbuf.sbuf_insert.
  rewrite (P_pos (Sbuf.slots sp)), (P_pos (Sbuf.mutex sp)) by lia. simpl.
  rewrite int_wrap_id by (unfold C.INT_MIN, C.INT_MAX in *; lia).
  rewrite (slot_ok _ _ _) by (try done; lia). simpl.
  eexists. split; [reflexivity|]. split; [|done].
  split; simpl; try done; try (rewrite ?length_app; unfold C.V; simpl; lia).
  - by rewrite length_insert.
  - intros i y Hi.
    assert (Hk : (Z.to_nat ((Sbuf.rear sp + 1) mod Sbuf.n sp) < length (Sbuf.buf sp))%nat).
    { pose proof (Z.mod_pos_bound (Sbuf.rear sp + 1) (Sbuf.n sp) Hn). lia. }
    destruct (decide (i < length q)%nat) as [Hlt|Hge].
    + rewrite lookup_app_l in Hi by done.
      rewrite list_lookup_insert_ne; [by apply Hdata|].
      intros Heq. apply Z2Nat.inj in Heq;
        try (apply Z.mod_pos_bound; lia).
      apply (mod_apart (Sbuf.front sp + 1 + Z.of_nat i)
               (Z.of_nat (length q) - Z.of_nat i) (Sbuf.n sp)); [lia|].
      rewrite <- Heq. f_equal. lia.
    + rewrite lookup_app_r in Hi by lia.
      destruct (i - length q)%nat as [|j] eqn:Hj; [|by destruct j].
      injection Hi as <-.
      assert (i = length q) as -> by lia.
      replace (Sbuf.front sp + 1 + Z.of_nat (length q)) with (Sbuf.rear sp + 1) by lia.
      by apply list_lookup_insert_eq.
Qed.

Lemma sbuf_remove_holds sp q x :
  holds sp (x :: q) → Sbuf.front sp < C.INT_MAX →
  ∃ sp1, Sbuf.sbuf_remove sp = Some (x, sp1) ∧ holds sp1 q
    ∧ Sbuf.front sp1 = Sbuf.front sp + 1.
Proof.
  intros [Hn Hbuf Hmx Hfr Hrear Hit Hsl Hdata] Hmax. simpl in *.
  unfold Sbuf.sbuf_remove.
  rewrite (P_pos (Sbuf.items sp)), (P_pos (Sbuf.mutex sp)) by lia. simpl.
  rewrite int_wrap_id by (unfold C.INT_MIN, C.INT_MAX in *; lia).
  rewrite (slot_ok _ _ _) by (try done; lia). simpl.
  pose proof (Hdata O x eq_refl) as H0. simpl in H0.
  rewrite Z.add_0_r in H0. rewrite H0. simpl.
  eexists. split; [reflexivity|]. split; [|done].
  split; simpl; try done; try (unfold C.V; lia).
  intros i y Hi.
  replace (Sbuf.front sp + 1 + 1 + Z.of_nat i)
    with (Sbuf.front sp + 1 + Z.of_nat (S i)) by lia.
  by apply Hdata.
Qed.

Lemma insert_all_holds xs sp q :
  holds sp q → Z.of_nat (length q + length xs) ≤ Sbuf.n sp →
  Sbuf.rear sp + Z.of_nat (length xs) ≤ C.INT_MAX →
  ∃ sp1, Sbuf.insert_all xs sp = Some sp1 ∧ holds sp1 (q ++ xs)
    ∧ Sbuf.front sp1 = Sbuf.front sp.
Proof.
  revert sp q. induction xs as [|x xs IH]; intros sp q Hq Hroom Hmax; simpl in *.
  - exists sp. by rewrite app_nil_r.
  - destruct (sbuf_insert_holds sp q x Hq) as (sp1 & -> & Hq1 & Hf1 & Hn1); [lia|lia|].
    simpl.
    destruct (IH sp1 (q ++ [x]) Hq1) as (sp2 & -> & Hq2 & Hf2).
    + rewrite length_app, Hn1. simpl. lia.
    + destruct Hq, Hq1. rewrite length_app in *. simpl in *. lia.
    + exists sp2. rewrite <- app_assoc in Hq2. split_and!; [done|done|congruence].
Qed.

Lemma remove_all_holds xs sp q :
  holds sp (xs ++ q) → Sbuf.front sp + Z.of_nat (length xs) ≤ C.INT_MAX →
  ∃ sp1, Sbuf.remove_all (length xs) sp = Some (xs, sp1) ∧ holds sp1 q.
Proof.
  revert sp. induction xs as [|x xs IH]; intros sp Hq Hmax; simpl in *.
  - by exists sp.
  - destruct (sbuf_remove_holds sp (xs ++ q) x Hq) as (sp1 & -> & Hq1 & Hf1); [lia|].
    simpl.
    destruct (IH sp1 Hq1) as (sp2 & -> & Hq2); [lia|].
    simpl. by exists sp2.
Qed.

(** C9. On a buffer initialised with [SBUFSIZE] slots, at most [SBUFSIZE]
    calls of [sbuf_insert] followed by as many calls of [sbuf_remove] all
    return, and the removes return the inserted descriptors in the order of
    insertion. *)
Theorem sbuf_fifo (xs : list Z) :
  Z.of_nat (length xs) ≤ SBUFSIZE →
  ∃ sp1 sp2,
    Sbuf.insert_all xs (Sbuf.sbuf_init SBUFSIZE) = Some sp1
    ∧ Sbuf.remove_all (length xs) sp1 = Some (xs, sp2).
Proof.
  intros Hlen.
  destruct (insert_all_holds xs (Sbuf.sbuf_init SBUFSIZE) [])
    as (sp1 & Hins & Hq1 & Hfront).
  - apply sbuf_init_holds. by unfold SBUFSIZE.
  - simpl. lia.
  - simpl. unfold C.INT_MAX, SBUFSIZE in *. lia.
  - simpl in Hq1, Hfront. rewrite <- (app_nil_r xs) in Hq1.
    destruct (remove_all_holds xs sp1 [] Hq1) as (sp2 & Hrem & _).
    + rewrite Hfront. unfold C.INT_MAX, SBUFSIZE in *. lia.
    + by exists sp1, sp2.
Qed.

End sbuf_facts.

(** ** The request handler *)

Section handler_facts.

Lemma length_append (a b : string) :
  String.length (a +:+ b) = (String.length a + String.length b)%nat.
Proof.
  induction a as [|c a IH]; [done|].
  change (String c a +:+ b) with (String c (a +:+ b)). simpl. by rewrite IH.
Qed.

Lemma write_Some (size : Z) (s : string) :
  Z.of_nat (String.length s) < size → C.strcpy size s = Some s.
Proof.
  intros Hs. unfold C.strcpy. by destruct (Z.ltb_spec (Z.of_nat (String.length s)) size); [|lia].
Qed.

Lemma write_None (size : Z) (s : string) :
  size ≤ Z.of_nat (String.length s) → C.strcpy size s = None.
Proof.
  intros Hs. unfold C.strcpy. by destruct (Z.ltb_spec (Z.of_nat (String.length s)) size); [lia|].
Qed.

Lemma write_inv (size : Z) (s r : string) :
  C.strcpy size s = Some r → r = s ∧ Z.of_nat (String.length s) < size.
Proof.
  unfold C.strcpy. destruct (Z.ltb_spec (Z.of_nat (String.length s)) size); [|done].
  by intros [= <-].
Qed.

(** The page of [clienterror] is written whole when its sixth line, the
    only one that holds the cause, fits in [buf], and the lines with the
    status do. *)
Lemma clienterror_fits (fd : Z) (cause errnum shortmsg longmsg : string) :
  Z.of_nat (String.length ("HTTP/1.0 " +:+ errnum +:+ " " +:+ shortmsg +:+ C.CRLF))
    < MAXLINE →
  Z.of_nat (String.length (errnum +:+ ": " +:+ shortmsg +:+ C.CRLF)) < MAXLINE →
  Z.of_nat (String.length ("<p>" +:+ longmsg +:+ ": " +:+ cause +:+ C.CRLF))
    < MAXLINE →
  Proxy.clienterror fd cause errnum shortmsg longmsg
  = Some [ Proxy.send fd
             (C.bytes ("HTTP/1.0 " +:+ errnum +:+ " " +:+ shortmsg +:+ C.CRLF));
           Proxy.send fd (C.bytes ("Content-type: text/html" +:+ C.CRLF +:+ C.CRLF));
           Proxy.send fd (C.bytes "<html><title>프록시 에러</title>");
           Proxy.send fd (C.bytes ("<body bgcolor=ffffff>" +:+ C.CRLF));
           Proxy.send fd (C.bytes (errnum +:+ ": " +:+ shortmsg +:+ C.CRLF));
           Proxy.send fd (C.bytes ("<p>" +:+ longmsg +:+ ": " +:+ cause +:+ C.CRLF));
           Proxy.send fd (C.bytes ("<hr><em>프록시 서버</em>" +:+ C.CRLF)) ].
Proof.
  intros H1 H5 H6. unfold Proxy.clienterror, C.sprintf.
  rewrite (write_Some _ _ H1), (write_Some _ _ H5), (write_Some _ _ H6).
  done.
Qed.

(** It is not written at all when the sixth line does not fit. *)
Lemma clienterror_overrun (fd : Z) (cause errnum shortmsg longmsg : string) :
  MAXLINE ≤ Z.of_nat (String.length ("<p>" +:+ longmsg +:+ ": " +:+ cause +:+ C.CRLF)) →
  Proxy.clienterror fd cause errnum shortmsg longmsg = None.
Proof.
  intros H6. unfold Proxy.clienterror, C.sprintf. rewrite (write_None _ _ H6).
  destruct (C.strcpy MAXLINE ("HTTP/1.0 " +:+ errnum +:+ " " +:+ shortmsg +:+ C.CRLF));
    [|done].
  cbn. by destruct (C.strcpy MAXLINE (errnum +:+ ": " +:+ shortmsg +:+ C.CRLF)).
Qed.

Lemma clienterror_501 (fd : Z) (cause : string) :
  Proxy.clienterror fd cause "501" "Not Implemented" "지원하지 않는 메소드입니다"
  = if Z.of_nat (String.length cause) <=? 8146
    then Some [ Proxy.send fd (C.bytes ("HTTP/1.0 501 Not Implemented" +:+ C.CRLF));
                Proxy.send fd (C.bytes ("Content-type: text/html" +:+ C.CRLF +:+ C.CRLF));
                Proxy.send fd (C.bytes "<html><title>프록시 에러</title>");
                Proxy.send fd (C.bytes ("<body bgcolor=ffffff>" +:+ C.CRLF));
                Proxy.send fd (C.bytes ("501: Not Implemented" +:+ C.CRLF));
                Proxy.send fd
                  (C.bytes ("<p>지원하지 않는 메소드입니다: " +:+ cause +:+ C.CRLF));
                Proxy.send fd (C.bytes ("<hr><em>프록시 서버</em>" +:+ C.CRLF)) ]
    else None.
Proof.
  assert (Hlen : String.length ("<p>" +:+ "지원하지 않는 메소드입니다" +:+ ": " +:+ cause +:+ C.CRLF)
                 = (43 + (String.length cause + 2))%nat).
  { change ("<p>" +:+ "지원하지 않는 메소드입니다" +:+ ": " +:+ cause +:+ C.CRLF)
      with ("<p>지원하지 않는 메소드입니다: " +:+ (cause +:+ C.CRLF)).
    by rewrite !length_append. }
  destruct (Z.leb_spec (Z.of_nat (String.length cause)) 8146).
  - rewrite clienterror_fits; [done|done|done|].
    rewrite Hlen. unfold MAXLINE. lia.
  - apply clienterror_overrun. rewrite Hlen. unfold MAXLINE. lia.
Qed.

Lemma clienterror_503 (fd : Z) (cause : string) :
  Proxy.clienterror fd cause "503" "Service Unavailable" "서버 연결 실패"
  = if Z.of_nat (String.length cause) <=? 8164
    then Some [ Proxy.send fd (C.bytes ("HTTP/1.0 503 Service Unavailable" +:+ C.CRLF));
                Proxy.send fd (C.bytes ("Content-type: text/html" +:+ C.CRLF +:+ C.CRLF));
                Proxy.send fd (C.bytes "<html><title>프록시 에러</title>");
                Proxy.send fd (C.bytes ("<body bgcolor=ffffff>" +:+ C.CRLF));
                Proxy.send fd (C.bytes ("503: Service Unavailable" +:+ C.CRLF));
                Proxy.send fd (C.bytes ("<p>서버 연결 실패: " +:+ cause +:+ C.CRLF));
                Proxy.send fd (C.bytes ("<hr><em>프록시 서버</em>" +:+ C.CRLF)) ]
    else None.
Proof.
  assert (Hlen : String.length ("<p>" +:+ "서버 연결 실패" +:+ ": " +:+ cause +:+ C.CRLF)
                 = (25 + (String.length cause + 2))%nat).
  { change ("<p>" +:+ "서버 연결 실패" +:+ ": " +:+ cause +:+ C.CRLF)
      with ("<p>서버 연결 실패: " +:+ (cause +:+ C.CRLF)).
    by rewrite !length_append. }
  destruct (Z.leb_spec (Z.of_nat (String.length cause)) 8164).
  - rewrite clienterror_fits; [done|done|done|].
    rewrite Hlen. unfold MAXLINE. lia.
  - apply clienterror_overrun. rewrite Hlen. unfold MAXLINE. lia.
Qed.

(** A request for a uri that is the first match of a live block is answered
    with that block's content and nothing else happens. *)
Lemma doit_hit (nw : Proxy.net) (connfd : Z) (client : list (list byte))
    (buf0 : list byte) (method0 uri0 version0 method uri version : string)
    (m : Cache.mem) (a : positive) (b : Cache.cache_block_t) :
  Proxy.request_line client buf0 method0 uri0 version0 = (method, uri, version) →
  C.strcasecmp method "GET" = 0 →
  Cache.cache_find uri m = Some (Some a, m) →
  Cache.heap m !! a = Some b →
  Proxy.doit nw connfd client buf0 method0 uri0 version0 m
  = Some (m, [Proxy.cache_probe uri;
              Proxy.send connfd (take (Z.to_nat (Cache.content_size b)) (Cache.content b))]).
Proof.
  unfold Proxy.request_line, Proxy.doit. intros Hline Hget Hfind Hb.
  destruct (Proxy.Rio_readlineb client buf0) as [buf rio_client]. simpl in Hline.
  rewrite Hline, Hget, Hfind. simpl. by rewrite Hb.
Qed.

(** The streaming loop writes every line it reads to the client, and what
    it has staged never exceeds [MAX_OBJECT_SIZE]: the test before
    [cache_insert] in [doit] cannot fail. *)
Lemma stream_loop_spec (lines : list (list byte)) (connfd : Z)
    (cache_buf : list byte) (cache_size : Z) :
  Forall (λ l, 0 < Z.of_nat (length l) < MAXLINE) lines →
  0 ≤ cache_size ≤ MAX_OBJECT_SIZE → Z.of_nat (length cache_buf) = cache_size →
  ∃ cache_buf1 cache_size1 tr,
    Proxy.stream_loop lines connfd cache_buf cache_size = (cache_buf1, cache_size1, tr)
    ∧ Proxy.sent connfd tr = concat lines
    ∧ 0 ≤ cache_size1 ≤ MAX_OBJECT_SIZE
    ∧ Z.of_nat (length cache_buf1) = cache_size1.
Proof.
  intros Hlines. revert cache_buf cache_size.
  induction Hlines as [|l lines Hl _ IH]; intros cache_buf cache_size Hsz Hlen; simpl.
  - by eexists _, _, _.
  - unfold C.size_wrap, MAXLINE, MAX_OBJECT_SIZE in *.
    rewrite (Z.mod_small (Z.of_nat (length l))) by lia.
    rewrite (Z.mod_small cache_size) by lia.
    rewrite (Z.mod_small (cache_size + Z.of_nat (length l))) by lia.
    destruct (Z.ltb_spec 0 (Z.of_nat (length l))); [|lia].
    destruct (Z.leb_spec (cache_size + Z.of_nat (length l)) 102400).
    + rewrite int_wrap_id by (unfold C.INT_MIN, C.INT_MAX; lia).
      destruct (IH (cache_buf ++ l) (cache_size + Z.of_nat (length l)))
        as (b1 & s1 & tr & -> & Hsent & ? & ?); [lia|rewrite length_app; lia|].
      eexists _, _, _. split; [reflexivity|]. simpl. rewrite Z.eqb_refl, Hsent. done.
    + destruct (IH cache_buf cache_size) as (b1 & s1 & tr & -> & Hsent & ? & ?);
        [lia|done|].
      eexists _, _, _. split; [reflexivity|]. simpl. rewrite Z.eqb_refl, Hsent. done.
Qed.

End handler_facts.

(** ** The URI parser *)

Section parser_facts.

Lemma strstr_char_cons (a c : ascii) (r : string) :
  C.strstr (String a r) (String c EmptyString)
  = if decide (c = a) then Some O else S <$> C.strstr r (String c EmptyString).
Proof.
  simpl. destruct (ascii_dec c a) as [->|Hne].
  - rewrite decide_True by done. by destruct r.
  - by rewrite decide_False by done.
Qed.

Lemma strstr_char_take (s : string) (c : ascii) (i j : nat) :
  C.strstr s (String c EmptyString) = Some j → (j < i)%nat →
  C.strstr (C.take i s) (String c EmptyString) = Some j
  ∧ C.take j (C.take i s) = C.take j s.
Proof.
  revert i j. induction s as [|a r IH]; intros i j; [done|].
  rewrite strstr_char_cons. destruct i as [|i]; [lia|].
  cbn [C.take]. rewrite strstr_char_cons.
  destruct (decide (c = a)) as [->|Hne].
  - by intros [= <-] _.
  - destruct (C.strstr r (String c EmptyString)) as [k|] eqn:Hk; [|done].
    simpl. intros [= <-] Hlt.
    destruct (IH i k eq_refl) as (-> & Ht); [lia|].
    simpl. by rewrite Ht.
Qed.

Lemma strstr_char_take_None (s : string) (c : ascii) (i : nat) :
  C.strstr s (String c EmptyString) = None →
  C.strstr (C.take i s) (String c EmptyString) = None.
Proof.
  revert i. induction s as [|a r IH]; intros i.
  - by destruct i.
  - rewrite strstr_char_cons. destruct (decide (c = a)) as [->|Hne]; [done|].
    destruct (C.strstr r (String c EmptyString)) as [k|] eqn:Hk; [done|].
    intros _. destruct i as [|i]; [done|].
    cbn [C.take]. rewrite strstr_char_cons, decide_False by done.
    by rewrite IH.
Qed.

(** Where the first [:] of the text after [http://], if there is one, comes
    before its first [/], if there is one, [parse_uri] returns what the
    specification asks for. *)
Lemma parse_uri_meets_spec (uri : string) :
  let rest := if C.strncasecmp uri "http://" 7 =? 0 then C.drop 7 uri else uri in
  (∀ i j, C.strstr rest "/" = Some i → C.strstr rest ":" = Some j → (j < i)%nat) →
  Proxy.parse_uri uri = parse_uri_spec uri.
Proof.
  unfold Proxy.parse_uri, parse_uri_spec, Proxy.pathname_of.
  generalize (if C.strncasecmp uri "http://" 7 =? 0 then C.drop 7 uri else uri).
  intros rest. cbv zeta. intros Horder.
  destruct (C.strstr rest ":") as [j|] eqn:Hcolon;
    destruct (C.strstr rest "/") as [i|] eqn:Hslash.
  - destruct (strstr_char_take rest ":" i j Hcolon) as [-> ->]; [by apply Horder|].
    done.
  - by rewrite Hcolon.
  - by rewrite (strstr_char_take_None rest ":" i Hcolon).
  - by rewrite Hcolon.
Qed.

(** The three uris of the specification's parsing scenario. *)
Example parse_uri_scenario :
  Proxy.parse_uri "http://host.example:8080/a/b" = ("host.example", "/a/b", 8080)%string
  ∧ Proxy.parse_uri "http://host.example/" = ("host.example", "/", 80)%string
  ∧ Proxy.parse_uri "host.example" = ("host.example", "/", 80)%string.
Proof. by split_and!. Qed.

End parser_facts.

(** Instances of the queue and handler theorems on concrete inputs. *)

Lemma sbuf_fifo_witness :
  Z.of_nat (length [3; 4; 5]) ≤ SBUFSIZE
  ∧ ∃ sp1 sp2,
      Sbuf.insert_all [3; 4; 5] (Sbuf.sbuf_init SBUFSIZE) = Some sp1
      ∧ Sbuf.remove_all (length [3; 4; 5]) sp1 = Some ([3; 4; 5], sp2).
Proof.
  assert (Hlen : Z.of_nat (length [3; 4; 5]) ≤ SBUFSIZE)
    by (unfold SBUFSIZE; simpl; lia).
  split; [exact Hlen|]. exact (sbuf_fifo [3; 4; 5] Hlen).
Defined.

(** ** Two places where the code does not do what is specified *)

Lemma bytes_eqb_eq (a b : list byte) : bytes_eqb a b = true → a = b.
Proof.
  revert b. induction a as [|x a IH]; intros [|y b]; simpl; try done.
  intros [Hxy Hab]%andb_prop. f_equal; [by apply byte_dec_bl | by apply IH].
Qed.

Lemma event_eqb_eq (e1 e2 : Proxy.event) : event_eqb e1 e2 = true → e1 = e2.
Proof.
  destruct e1, e2; simpl; try done;
    rewrite ?andb_true_iff, ?String.eqb_eq, ?Z.eqb_eq;
    intros H; destruct_and?; subst; f_equal; by apply bytes_eqb_eq.
Qed.

Lemma trace_eqb_eq (t1 t2 : list Proxy.event) : trace_eqb t1 t2 = true → t1 = t2.
Proof.
  revert t2. induction t1 as [|e1 t1 IH]; intros [|e2 t2]; simpl; try done.
  intros [He Ht]%andb_prop. f_equal; [by apply event_eqb_eq | by apply IH].
Qed.

Lemma option_eqb_eq {A} (eqb : A → A → bool) (o1 o2 : option A) :
  (∀ x y, eqb x y = true → x = y) → option_eqb eqb o1 o2 = true → o1 = o2.
Proof.
  intros Heq. destruct o1, o2; simpl; try done. intros H. f_equal. by apply Heq.
Qed.

(** C1 at a response above [MAX_OBJECT_SIZE]: every byte is forwarded, and
    yet [cache_insert] is called, with 98297 of the 106488 bytes; the same
    request is then answered from the cache with those bytes, and no
    connection is opened. *)
Lemma oversize_response_is_cached :
  MAX_OBJECT_SIZE < Z.of_nat (length (concat big_response))
  ∧ (λ r, Proxy.sent 4 r.2)
      <$> Proxy.doit (fixed_net big_response) 4 get_x [] "" "" "" (Cache.cache_init Cache.boot)
    = Some (concat big_response)
  ∧ (λ r, List.filter Proxy.is_admission r.2)
      <$> Proxy.doit (fixed_net big_response) 4 get_x [] "" "" "" (Cache.cache_init Cache.boot)
    = Some [Proxy.cache_admission "http://origin.test/x" staged_of_big 98297]
  ∧ match Proxy.doit (fixed_net big_response) 4 get_x [] "" "" "" (Cache.cache_init Cache.boot) with
    | Some r => snd <$> Proxy.doit (fixed_net big_response) 4 get_x [] "" "" "" r.1
    | None => None
    end
    = Some [Proxy.cache_probe "http://origin.test/x"; Proxy.send 4 staged_of_big].
Proof.
  split_and!.
  - vm_compute. reflexivity.
  - apply (option_eqb_eq bytes_eqb); [apply bytes_eqb_eq|]. vm_compute. reflexivity.
  - apply (option_eqb_eq trace_eqb); [apply trace_eqb_eq|]. vm_compute. reflexivity.
  - apply (option_eqb_eq trace_eqb); [apply trace_eqb_eq|]. vm_compute. reflexivity.
Qed.

(** C3 at [http://h/a:b]: [strstr] finds the colon of the path, so the host
    name runs up to it and the port is what [atoi] makes of [b]; the
    specification asks for host [h] and port 80. *)
Lemma parse_uri_colon_in_path :
  Proxy.parse_uri "http://h/a:b" = ("h/a", "/a:b", 0)%string
  ∧ parse_uri_spec "http://h/a:b" = ("h", "/a:b", 80)%string.
Proof. split; reflexivity. Qed.

(** ** The cache: what is kept, what is evicted, what is allocated *)

Section cache_contents.

Implicit Types (h : gmap positive Cache.cache_block_t) (es : list entry)
  (e : entry) (m : Cache.mem).

Lemma payloads_repr m es : repr m es → payloads m = entry_payload <$> es.
Proof.
  intros Hr. unfold payloads. rewrite (live_repr m es Hr).
  apply list_eq. intros i. unfold blocks_of.
  rewrite !list_lookup_fmap, list_lookup_imap.
  by destruct (es !! i).
Qed.

Lemma weight_payloads es : weight (entry_payload <$> es) = total_len es.
Proof.
  unfold weight, total_len. f_equal. rewrite <- list_fmap_compose.
  by apply list_fmap_ext.
Qed.

Lemma walk_addrs_linked h es i fuel :
  linked h es → (length es ≤ i + fuel)%nat →
  walk_addrs fuel h (addr <$> es !! i) = drop i (addr <$> es).
Proof.
  intros Hl. revert i. induction fuel as [|fuel IH]; intros i Hfuel.
  - rewrite lookup_ge_None_2 by lia. simpl.
    rewrite drop_ge; [done|]. rewrite length_fmap. lia.
  - destruct (es !! i) as [e|] eqn:Hi; simpl.
    + rewrite (Hl i e Hi).
      rewrite (drop_S (addr <$> es) (addr e) i) by (by rewrite list_lookup_fmap, Hi).
      f_equal. simpl. apply IH. lia.
    + apply lookup_ge_None_1 in Hi.
      rewrite drop_ge; [done|]. rewrite length_fmap. lia.
Qed.

Lemma live_addrs_repr m es : repr m es → live_addrs m = addr <$> es.
Proof.
  intros [Hnd Hl Hh _ _ _ _]. unfold live_addrs. rewrite Hh.
  rewrite walk_addrs_linked; [done|done|]. simpl. by apply linked_length.
Qed.

Lemma store_dom f p h h1 : Cache.store f p h = Some h1 → dom h1 = dom h.
Proof.
  unfold Cache.store. destruct (h !! p) as [b|] eqn:Hp; [|done].
  simpl. intros [= <-]. rewrite dom_insert_L.
  apply elem_of_dom_2 in Hp. set_solver.
Qed.

Lemma evict_body_dom m m1 t :
  Cache.tail (Cache.cache m) = Some t → Cache.evict_body m = Some m1 →
  dom (Cache.heap m1) = dom (Cache.heap m) ∖ {[t]}.
Proof.
  unfold Cache.evict_body. intros ->. simpl.
  destruct (Cache.heap m !! t) as [b|]; [|done]. simpl.
  destruct (Cache.prev b) as [p|]; simpl.
  - destruct (Cache.store _ p _) as [h1|] eqn:Hs; [|done]. simpl.
    intros [= <-]. simpl. by rewrite dom_delete_L, (store_dom _ _ _ _ Hs).
  - intros [= <-]. simpl. by rewrite dom_delete_L.
Qed.

(** The eviction loop drops the shortest tail of the list that makes room for
    [size] more bytes, and frees its blocks. *)
Lemma evict_loop_exact fuel size m es :
  repr m es → 0 ≤ size ≤ MAX_OBJECT_SIZE → (length es ≤ fuel)%nat →
  ∃ m1 es1 es2, Cache.evict_loop fuel size m = Some m1 ∧ es = es1 ++ es2
    ∧ repr m1 es1 ∧ total_len es1 + size ≤ MAX_CACHE_SIZE
    ∧ (∀ t es3, es2 = t :: es3 → MAX_CACHE_SIZE < total_len (es1 ++ [t]) + size)
    ∧ dom (Cache.heap m1) = dom (Cache.heap m) ∖ list_to_set (addr <$> es2)
    ∧ Cache.mutex (Cache.cache m1) = Cache.mutex (Cache.cache m)
    ∧ Cache.w (Cache.cache m1) = Cache.w (Cache.cache m)
    ∧ Cache.readcnt (Cache.cache m1) = Cache.readcnt (Cache.cache m).
Proof.
  intros Hr Hsz. revert m es Hr.
  induction fuel as [|fuel IH]; intros m es Hr Hfuel.
  - destruct es; [|simpl in Hfuel; lia].
    exists m, [], []. simpl.
    pose proof Hr as [_ _ _ Ht _ Hcur _]. simpl in Ht. rewrite Ht. simpl.
    rewrite andb_false_r. split_and!; try done.
    + unfold total_len, MAX_CACHE_SIZE, MAX_OBJECT_SIZE in *. simpl. lia.
    + set_solver.
  - pose proof Hr as [_ _ _ Ht Hlen Hcur Hbud].
    pose proof (total_len_nonneg es Hlen) as Hnn.
    simpl. rewrite Hcur.
    rewrite int_wrap_id
      by (unfold C.INT_MIN, C.INT_MAX, MAX_CACHE_SIZE, MAX_OBJECT_SIZE in *; lia).
    destruct (Z.gtb_spec (total_len es + size) MAX_CACHE_SIZE) as [Hgt|Hle]; simpl.
    + destruct es as [|t es _] using rev_ind.
      { unfold total_len, MAX_CACHE_SIZE, MAX_OBJECT_SIZE in *. simpl in Hgt. lia. }
      rewrite last_snoc in Ht. simpl in Ht. rewrite Ht. simpl.
      destruct (evict_body_repr m es t Hr) as (m1 & Hbody & Hr1 & Hmx & Hw & Hrc).
      pose proof (evict_body_dom m m1 (addr t) Ht Hbody) as Hdom1.
      rewrite Hbody. simpl. rewrite length_app in Hfuel. simpl in Hfuel.
      destruct (IH m1 es Hr1)
        as (m2 & es1 & es2 & -> & -> & Hr2 & Hroom & Hmin & Hdom2 & ? & ? & ?);
        [lia|].
      exists m2, es1, (es2 ++ [t]). rewrite <- app_assoc.
      split_and!; try done; try congruence.
      * intros t' es3 Heq. destruct es2 as [|t2 es2].
        -- simpl in Heq. injection Heq as <- <-. rewrite app_nil_r in Hgt. lia.
        -- simpl in Heq. injection Heq as <- <-. by eapply Hmin.
      * rewrite Hdom2, Hdom1, fmap_app, list_to_set_app_L. simpl. set_solver.
    + exists m, es, []. rewrite app_nil_r. split_and!; try done. set_solver.
Qed.

(** An insert that is not refused: what [cache_insert_repr] says, and which
    entries go and which addresses are allocated afterwards. *)
Lemma cache_insert_exact u bytes size m es :
  idle m → repr m es → 0 ≤ size ≤ MAX_OBJECT_SIZE →
  ∃ m1 a es1 es2, Cache.cache_insert u bytes size m = Some m1 ∧ es = es1 ++ es2
    ∧ repr m1 (Entry a u (Cache.memcpy bytes size) size :: es1) ∧ idle m1
    ∧ total_len es1 + size ≤ MAX_CACHE_SIZE
    ∧ (∀ t es3, es2 = t :: es3 → MAX_CACHE_SIZE < total_len (es1 ++ [t]) + size)
    ∧ (a ∉ dom (Cache.heap m) ∖ list_to_set (addr <$> es2))
    ∧ dom (Cache.heap m1)
      = {[a]} ∪ (dom (Cache.heap m) ∖ list_to_set (addr <$> es2)).
Proof.
  intros (Hmx & Hw & Hrc) Hr Hsz. unfold Cache.cache_insert.
  destruct (Z.gtb_spec size MAX_OBJECT_SIZE) as [?|_]; [lia|].
  rewrite Hw. simpl.
  set (m0 := Cache.Mem _ _).
  assert (Hr0 : repr m0 es) by (destruct Hr; by split).
  destruct (evict_loop_exact (base.size (Cache.heap m)) size m0 es Hr0 Hsz)
    as (m1 & es1 & es2 & -> & -> & Hr1 & Hroom & Hmin & Hdom & Hmx1 & Hw1 & Hrc1).
  { destruct Hr. by apply linked_length. }
  simpl in Hmx1, Hw1, Hrc1, Hdom. simpl.
  unfold Cache.Malloc_ok. rewrite (proj2 (Z.leb_le 0 size)) by lia.
  destruct Hr1 as [Hnd Hl Hh Ht Hlen Hcur Hbud].
  set (a := fresh (dom (Cache.heap m1))).
  assert (Ha : Cache.heap m1 !! a = None).
  { apply not_elem_of_dom. apply is_fresh. }
  assert (Hfresh : ∀ i e, es1 !! i = Some e → addr e ≠ a).
  { intros i e Hi Heq. rewrite <- Heq, (Hl i e Hi) in Ha. done. }
  set (e0 := Entry a u (Cache.memcpy bytes size) size).
  pose proof (total_len_nonneg es1 Hlen) as Hnn.
  assert (Hrepr : ∀ h2 tl,
    linked h2 (e0 :: es1) → tl = addr <$> list.last (e0 :: es1) →
    repr (Cache.Mem h2 (Cache.CacheT (Some a) tl
            (C.int_wrap (Cache.current_size (Cache.cache m1) + size))
            (Cache.mutex (Cache.cache m1)) (C.V (Cache.w (Cache.cache m1)))
            (Cache.readcnt (Cache.cache m1)))) (e0 :: es1)).
  { intros h2 tl Hl2 ->. split; try done.
    - rewrite fmap_cons. apply NoDup_cons. split; [|done].
      intros [e [Heq [i Hi]%list_elem_of_lookup]]%list_elem_of_fmap.
      simpl in Heq. by eapply Hfresh.
    - by constructor.
    - cbn [Cache.cache Cache.current_size]. rewrite Hcur.
      unfold total_len at 2. csimpl. fold (total_len es1).
      rewrite int_wrap_id
        by (unfold C.INT_MIN, C.INT_MAX, MAX_CACHE_SIZE, MAX_OBJECT_SIZE in *; lia).
      lia.
    - unfold total_len. csimpl. fold (total_len es1). lia. }
  assert (Hidle : ∀ h2 hd tl cur,
    idle (Cache.Mem h2 (Cache.CacheT hd tl cur (Cache.mutex (Cache.cache m1))
            (C.V (Cache.w (Cache.cache m1))) (Cache.readcnt (Cache.cache m1))))).
  { intros. unfold idle, C.V. simpl. rewrite Hmx1, Hw1, Hrc1, Hmx, Hrc. done. }
  assert (Hna : a ∉ dom (Cache.heap m) ∖ list_to_set (addr <$> es2)).
  { rewrite <- Hdom. apply is_fresh. }
  rewrite Hh, Ht.
  destruct es1 as [|e1 es1]; simpl.
  - eexists _, a, [], es2.
    split; [reflexivity|]. split_and!; try done; try apply Hrepr; try apply Hidle; try done.
    + intros [|i] e Hi; [|done]. injection Hi as <-. simpl.
      by rewrite lookup_insert_eq.
    + simpl. by rewrite dom_insert_L, Hdom.
  - unfold Cache.store. rewrite lookup_insert_ne by (symmetry; by apply (Hfresh O e1)).
    rewrite (Hl O e1) by done. simpl.
    rewrite bool_decide_eq_false_2.
    2:{ destruct (list.last (e1 :: es1)) eqn:Hlast; [done|].
        by apply last_None in Hlast. }
    eexists _, a, (e1 :: es1), es2.
    split; [reflexivity|]. split; [done|]. split; [|split; [apply Hidle|]].
    + apply Hrepr; [|done].
      intros [|[|i]] e Hi; simpl in Hi.
      * injection Hi as <-. simpl.
        rewrite lookup_insert_ne by (by apply (Hfresh O e1)).
        by rewrite lookup_insert_eq.
      * injection Hi as <-. by rewrite lookup_insert_eq.
      * assert (addr e1 ≠ addr e).
        { intros Heq. symmetry in Heq.
          pose proof (addr_lookup_inj (e1 :: es1) (S i) O e e1 Hnd Hi eq_refl Heq). done. }
        rewrite lookup_insert_ne by done.
        rewrite lookup_insert_ne by (symmetry; by apply (Hfresh (S i) e)).
        by rewrite (Hl (S i) e Hi).
    + split_and!; try done. simpl.
      rewrite !dom_insert_L, Hdom.
      assert (addr e1 ∈ dom (Cache.heap m1)).
      { apply elem_of_dom. rewrite (Hl O e1 eq_refl). eauto. }
      set_solver.
Qed.


Lemma tight_init : tight (Cache.cache_init Cache.boot).
Proof.
  split; [done|]. exists []. split; [|done]. split; try done. constructor.
Qed.

Lemma tight_do_call k m m1 : tight m → Cache.do_call k m = Some m1 → tight m1.
Proof.
  intros (Hidle & es & Hr & Hdom) Hk. destruct k as [u bytes size|u]; simpl in Hk.
  - destruct (cache_insert_size _ _ _ _ _ Hk) as [[_ ->]|Hsz].
    { split; eauto. }
    destruct (cache_insert_exact u bytes size m es Hidle Hr Hsz)
      as (m2 & a & es1 & es2 & Hi & -> & Hr2 & Hidle2 & _ & _ & Hna & Hdom2).
    rewrite Hi in Hk. injection Hk as <-. split; [done|].
    eexists. split; [exact Hr2|].
    rewrite Hdom2, Hdom, fmap_cons, fmap_app, list_to_set_app_L. simpl.
    destruct Hr as [Hnd _ _ _ _ _ _]. rewrite fmap_app in Hnd.
    apply NoDup_app in Hnd as (_ & Hdisj & _).
    apply set_eq. intros x. rewrite !elem_of_union, elem_of_difference,
      elem_of_union, !elem_of_list_to_set. split.
    + intros [?|[[?|?] ?]]; tauto.
    + intros [?|Hx]; [tauto|]. right. split; [tauto|]. by apply Hdisj.
  - destruct Hr as [Hnd Hl Hh Ht Hlen Hcur Hbud].
    rewrite (cache_find_repr u m es Hidle (Repr _ _ Hnd Hl Hh Ht Hlen Hcur Hbud)) in Hk.
    injection Hk as <-. split; [done|]. exists es. by split.
Qed.

Lemma tight_run ks m m1 : tight m → Cache.run ks m = Some m1 → tight m1.
Proof.
  revert m. induction ks as [|k ks IH]; intros m Ht; simpl.
  - by intros [= <-].
  - destruct (Cache.do_call k m) as [m2|] eqn:Hk; [|done]. simpl.
    apply IH. by eapply tight_do_call.
Qed.

Lemma reachable_tight m : Cache.reachable m → tight m.
Proof. intros [ks Hks]. eapply tight_run; [apply tight_init|done]. Qed.

Lemma lookup_key_Some u es e :
  lookup_key u es = Some e →
  ∃ i, es !! i = Some e ∧ key e = u
    ∧ ∀ j e', (j < i)%nat → es !! j = Some e' → key e' ≠ u.
Proof.
  induction es as [|e0 es IH]; [done|]. simpl.
  destruct (decide (key e0 = u)) as [Heq|Hne].
  - intros [= <-]. exists O. split_and!; try done. intros j e' Hj. lia.
  - intros (i & Hi & Hk & Hbefore)%IH. exists (S i). split_and!; try done.
    intros [|j] e' Hj; simpl.
    + by intros [= <-].
    + apply Hbefore. lia.
Qed.

Lemma lookup_key_None_inv u es : lookup_key u es = None → u ∉ key <$> es.
Proof.
  induction es as [|e0 es IH]; simpl.
  - intros _. apply not_elem_of_nil.
  - destruct (decide (key e0 = u)) as [Heq|Hne]; [done|].
    intros Hn. apply not_elem_of_cons. split; [done|by apply IH].
Qed.

Lemma take_of_prefix {A} (l1 l2 : list A) (k : nat) :
  take k l1 = take (k `min` length l1) (l1 ++ l2).
Proof.
  rewrite take_app_le by lia.
  destruct (decide (k ≤ length l1)%nat).
  - by rewrite Nat.min_l by lia.
  - rewrite Nat.min_r by lia. by rewrite !take_ge by lia.
Qed.

(** Along a run of calls the list is a prefix of: the admissions, last
    first, and then the list the run started from. *)
Lemma run_history ks m es m1 :
  idle m → repr m es → Cache.run ks m = Some m1 →
  ∃ es1 k, idle m1 ∧ repr m1 es1
    ∧ entry_payload <$> es1
      = take k (rev (admissions ks) ++ (entry_payload <$> es)).
Proof.
  revert m es. induction ks as [|k ks IH]; intros m es Hidle Hr; simpl.
  - intros [= <-]. exists es, (length es). split_and!; try done.
    by rewrite take_ge by (rewrite length_fmap; lia).
  - destruct (Cache.do_call k m) as [m2|] eqn:Hk; [|done]. simpl. intros Hrun.
    destruct k as [u bytes size|u]; simpl in Hk.
    + destruct (cache_insert_size _ _ _ _ _ Hk) as [[Hgt ->]|Hsz].
      * destruct (Z.gtb_spec size MAX_OBJECT_SIZE); [|lia]. by eapply IH.
      * destruct (Z.gtb_spec size MAX_OBJECT_SIZE); [lia|].
        destruct (cache_insert_repr u bytes size m es Hidle Hr Hsz)
          as (m3 & a & es1 & es2 & Hi & -> & Hr3 & Hidle3).
        rewrite Hi in Hk. injection Hk as ->.
        destruct (IH m2 _ Hidle3 Hr3 Hrun) as (es4 & j & ? & ? & Hpay).
        eexists es4, _. split_and!; try done. rewrite Hpay.
        rewrite fmap_cons, fmap_app. cbn [entry_payload key body len rev].
        rewrite <- app_assoc. cbn [app].
        rewrite (take_of_prefix
                   (rev (admissions ks)
                      ++ (u, Cache.memcpy bytes size, size) :: (entry_payload <$> es1))
                   (entry_payload <$> es2) j).
        by rewrite <- app_assoc.
    + rewrite (cache_find_repr u m es Hidle Hr) in Hk. injection Hk as <-.
      by eapply IH.
Qed.

Lemma weight_app ps1 ps2 : weight (ps1 ++ ps2) = weight ps1 + weight ps2.
Proof.
  unfold weight. induction ps1 as [|p ps1 IH]; csimpl; [done|]. rewrite IH. lia.
Qed.

End cache_contents.

(** ** The cache: further properties of its interface *)

Section cache_extras.

(** X1. On a reachable cache [cache_find(u)] returns, leaves the memory as
    it is, and tells whether [u] is cached: it returns [NULL] exactly when no
    live entry has uri [u], and otherwise the live block with uri [u] that is
    nearest the head. *)
Theorem cache_find_first_match (u : string) (m : Cache.mem) :
  Cache.reachable m →
  ∃ r, Cache.cache_find u m = Some (r, m)
    ∧ match r with
      | None => u ∉ Cache.live_uris m
      | Some a =>
          ∃ i b, live_addrs m !! i = Some a ∧ Cache.live m !! i = Some b
            ∧ Cache.heap m !! a = Some b ∧ Cache.uri b = u
            ∧ ∀ j b', (j < i)%nat → Cache.live m !! j = Some b' → Cache.uri b' ≠ u
      end.
Proof.
  intros [Hidle [es Hr]]%reachable_wf.
  rewrite (cache_find_repr u m es Hidle Hr). eexists. split; [reflexivity|].
  rewrite (live_uris_repr m es Hr), (live_addrs_repr m es Hr), (live_repr m es Hr).
  destruct (lookup_key u es) as [e|] eqn:Hk; simpl.
  - destruct (lookup_key_Some u es e Hk) as (i & Hi & Hu & Hbefore).
    exists i, (block_of es i e). unfold blocks_of.
    rewrite list_lookup_fmap, list_lookup_imap, Hi. split_and!; try done.
    + destruct Hr as [_ Hl _ _ _ _ _]. by apply Hl.
    + intros j b'. rewrite list_lookup_imap.
      destruct (es !! j) as [e'|] eqn:Hj; [|done]. simpl.
      intros Hlt [= <-]. simpl. by eapply Hbefore.
  - by apply lookup_key_None_inv.
Qed.

(** X2. [cache_insert] of an object of [0 ≤ n ≤ MAX_OBJECT_SIZE] bytes on a
    reachable cache puts it in front of the [k] most recently inserted
    entries, which keep their uri, content and length, and drops the others,
    where [k] is the largest number of entries that leaves room for [n] more
    bytes under [MAX_CACHE_SIZE]: nothing is evicted when everything fits, and
    otherwise only the oldest entries go, and only as many as needed. *)
Theorem cache_insert_evicts_oldest (m : Cache.mem) (u : string) (B : list byte) (n : Z) :
  Cache.reachable m → 0 ≤ n ≤ MAX_OBJECT_SIZE →
  ∃ m1 k,
    Cache.cache_insert u B n m = Some m1
    ∧ payloads m1 = (u, take (Z.to_nat n) B, n) :: take k (payloads m)
    ∧ (k ≤ length (payloads m))%nat
    ∧ weight (take k (payloads m)) + n ≤ MAX_CACHE_SIZE
    ∧ ((k < length (payloads m))%nat →
       MAX_CACHE_SIZE < weight (take (S k) (payloads m)) + n)
    ∧ (Cache.live_bytes m + n ≤ MAX_CACHE_SIZE →
       payloads m1 = (u, take (Z.to_nat n) B, n) :: payloads m).
Proof.
  intros [Hidle [es Hr]]%reachable_wf Hn.
  destruct (cache_insert_exact u B n m es Hidle Hr Hn)
    as (m1 & a & es1 & es2 & Hi & -> & Hr1 & _ & Hroom & Hmin & _ & _).
  exists m1, (length es1). split; [done|].
  rewrite (payloads_repr _ _ Hr1), (payloads_repr _ _ Hr), (live_bytes_repr _ _ Hr).
  rewrite fmap_cons, fmap_app. simpl.
  assert (Htake : take (length es1) ((entry_payload <$> es1) ++ (entry_payload <$> es2))
                  = entry_payload <$> es1).
  { by rewrite take_app_length' by (by rewrite length_fmap). }
  rewrite Htake, weight_payloads.
  assert (Hmore : ∀ t es3, es2 = t :: es3 → MAX_CACHE_SIZE < total_len (es1 ++ es2) + n).
  { intros t es3 ->. specialize (Hmin t es3 eq_refl).
    destruct Hr as [_ _ _ _ Hlen _ _].
    apply Forall_app in Hlen as [_ Hlen2]. apply Forall_cons in Hlen2 as [_ Hlen3].
    pose proof (total_len_nonneg es3 Hlen3).
    rewrite !total_len_app in *. unfold total_len at 2. csimpl.
    fold (total_len es3). unfold total_len at 2 in Hmin. simpl in Hmin. lia. }
  split_and!; try done.
  - rewrite length_app, !length_fmap. lia.
  - rewrite length_app, !length_fmap. intros Hlt.
    destruct es2 as [|t es3]; [simpl in Hlt; lia|].
    specialize (Hmin t es3 eq_refl).
    assert (take (S (length es1))
              ((entry_payload <$> es1) ++ (entry_payload <$> t :: es3))
            = entry_payload <$> (es1 ++ [t])) as ->.
    { rewrite take_app_ge by (rewrite length_fmap; lia). rewrite length_fmap.
      replace (S (length es1) - length es1)%nat with 1%nat by lia.
      by rewrite fmap_app. }
    by rewrite weight_payloads.
  - intros Hfits. destruct es2 as [|t es3]; [by rewrite !app_nil_r|].
    specialize (Hmore t es3 eq_refl). lia.
Qed.

(** X3. After any sequence of calls from the initialised empty cache, the
    live entries are the [k] most recent admissions for some [k], most
    recent first, each with the uri, the bytes and the length it was inserted
    with: lookups never reorder the list, and an entry that is gone never
    comes back unless it is inserted again. *)
Theorem live_entries_are_latest_admissions (ks : list Cache.call) (m : Cache.mem) :
  Cache.run ks (Cache.cache_init Cache.boot) = Some m →
  ∃ k, payloads m = take k (rev (admissions ks)).
Proof.
  intros Hrun.
  destruct wf_init as [Hidle0 [es0 Hr0]].
  assert (es0 = []) as ->.
  { destruct Hr0 as [_ _ Hh _ _ _ _]. by destruct es0. }
  destruct (run_history ks _ [] m Hidle0 Hr0 Hrun) as (es & k & _ & Hr & Hpay).
  exists k. rewrite (payloads_repr m es Hr), Hpay. simpl. by rewrite app_nil_r.
Qed.

(** X4. On a reachable cache the allocated blocks are exactly the blocks of
    one doubly-linked list without repetition: [head] is its first block and
    [tail] its last (both [NULL] when it is empty), each block's [prev] and
    [next] are its neighbours in the list ([NULL] at the ends), and no block
    is allocated that is not on the list, so every evicted block was freed. *)
Theorem cache_is_a_doubly_linked_list (m : Cache.mem) :
  Cache.reachable m →
  NoDup (live_addrs m)
  ∧ Cache.head (Cache.cache m) = live_addrs m !! O
  ∧ Cache.tail (Cache.cache m) = list.last (live_addrs m)
  ∧ dom (Cache.heap m) = list_to_set (live_addrs m)
  ∧ ∀ i a, live_addrs m !! i = Some a →
      ∃ b, Cache.heap m !! a = Some b
        ∧ Cache.prev b = match i with O => None | S j => live_addrs m !! j end
        ∧ Cache.next b = live_addrs m !! S i.
Proof.
  intros (_ & es & Hr & Hdom)%reachable_tight.
  rewrite (live_addrs_repr m es Hr), Hdom.
  destruct Hr as [Hnd Hl Hh Ht _ _ _]. split_and!; try done.
  - by rewrite Hh, list_lookup_fmap.
  - by rewrite Ht, fmap_last.
  - intros i a. rewrite list_lookup_fmap.
    destruct (es !! i) as [e|] eqn:Hi; [|done]. simpl. intros [= <-].
    exists (block_of es i e). split; [by apply Hl|]. simpl.
    rewrite list_lookup_fmap. split; [|done].
    destruct i; [done|]. by rewrite list_lookup_fmap.
Qed.

(** X5. After any sequence of calls that have returned, both semaphores of
    the cache are free again and no reader is counted, and every live entry
    has a length between 0 and [MAX_OBJECT_SIZE] and a content of no more
    bytes than its length. *)
Theorem cache_entries_bounded_locks_free (m : Cache.mem) :
  Cache.reachable m →
  Cache.mutex (Cache.cache m) = 1 ∧ Cache.w (Cache.cache m) = 1
  ∧ Cache.readcnt (Cache.cache m) = 0
  ∧ Forall (λ b, 0 ≤ Cache.content_size b ≤ MAX_OBJECT_SIZE
                 ∧ Z.of_nat (length (Cache.content b)) ≤ Cache.content_size b)
      (Cache.live m).
Proof.
  intros [ks Hrun].
  destruct wf_init as [Hidle0 [es0 Hr0]].
  assert (es0 = []) as ->.
  { destruct Hr0 as [_ _ Hh _ _ _ _]. by destruct es0. }
  destruct (run_history ks _ [] m Hidle0 Hr0 Hrun)
    as (es & k & (Hmx & Hw & Hrc) & Hr & Hpay).
  split_and!; try done.
  rewrite (live_repr m es Hr). simpl in Hpay. rewrite app_nil_r in Hpay.
  assert (Hadm : Forall (λ p, 0 ≤ p.2 → Z.of_nat (length p.1.2) ≤ p.2)
                   (entry_payload <$> es)).
  { rewrite Hpay. apply Forall_take, Forall_rev.
    clear. induction ks as [|[u body size|u] ks IH]; simpl; try done.
    destruct (Z.gtb_spec size MAX_OBJECT_SIZE); [done|].
    constructor; [|done]. simpl. unfold Cache.memcpy. rewrite length_take. lia. }
  destruct Hr as [_ _ _ _ Hlen _ _].
  apply Forall_forall. intros b [i [e [-> Hi]]]%elem_of_lookup_imap.
  pose proof (Forall_lookup_1 _ _ _ _ Hlen Hi) as He. simpl in He.
  simpl. split; [done|].
  rewrite Forall_fmap in Hadm.
  apply (Forall_lookup_1 _ _ _ _ Hadm Hi). simpl. lia.
Qed.

End cache_extras.

(** ** The hand-off queue under any order of operations *)

Section sbuf_extras.

Lemma P_zero (s : Z) : s ≤ 0 → C.P s = None.
Proof. intros Hs. unfold C.P. by destruct (Z.ltb_spec 0 s); [lia|]. Qed.

Lemma sbuf_remove_n (sp sp1 : Sbuf.sbuf_t) (x : Z) :
  Sbuf.sbuf_remove sp = Some (x, sp1) → Sbuf.n sp1 = Sbuf.n sp.
Proof.
  unfold Sbuf.sbuf_remove.
  destruct (C.P (Sbuf.items sp)); [|done]. simpl.
  destruct (C.P (Sbuf.mutex sp)); [|done]. simpl.
  destruct (Sbuf.slot _ _ _); [|done]. simpl.
  destruct (Sbuf.buf sp !! _); [|done]. simpl. by intros [= _ <-].
Qed.

Lemma sbuf_run_holds (ops : list sbuf_op) (sp : Sbuf.sbuf_t) (q : list Z) :
  holds sp q → Sbuf.rear sp + Z.of_nat (length ops) ≤ C.INT_MAX →
  fst <$> sbuf_run ops sp = fst <$> queue_run (Sbuf.n sp) ops q.
Proof.
  revert sp q. induction ops as [|[x|] ops IH]; intros sp q Hq Hmax; simpl in *.
  - done.
  - destruct (Z.ltb_spec (Z.of_nat (length q)) (Sbuf.n sp)) as [Hlt|Hge].
    + destruct (sbuf_insert_holds sp q x Hq) as (sp1 & -> & Hq1 & Hf1 & Hn1); [lia|lia|].
      simpl. rewrite <- Hn1. apply IH; [done|].
      destruct Hq, Hq1. rewrite length_app in *. simpl in *. lia.
    + destruct Hq as [_ _ _ _ _ _ Hsl _]. unfold Sbuf.sbuf_insert.
      by rewrite (P_zero (Sbuf.slots sp)) by lia.
  - destruct q as [|x q].
    + destruct Hq as [_ _ _ _ _ Hit _ _]. unfold Sbuf.sbuf_remove.
      by rewrite (P_zero (Sbuf.items sp)) by (simpl in Hit; lia).
    + destruct (sbuf_remove_holds sp q x Hq) as (sp1 & Hrem & Hq1 & Hf1).
      { destruct Hq. simpl in *. lia. }
      rewrite Hrem. simpl.
      rewrite <- (sbuf_remove_n sp sp1 x Hrem).
      assert (Hrest : fst <$> sbuf_run ops sp1 = fst <$> queue_run (Sbuf.n sp1) ops q).
      { apply IH; [done|]. destruct Hq, Hq1. simpl in *. lia. }
      destruct (sbuf_run ops sp1) as [[xs sp2]|],
               (queue_run (Sbuf.n sp1) ops q) as [[ys q2]|]; simpl in *; congruence.
Qed.

(** X6. A buffer initialised with [n > 0] slots behaves, under any sequence
    of [sbuf_insert] and [sbuf_remove] calls made one after the other, as a
    first-in first-out queue of capacity [n]: every remove returns the oldest
    descriptor not yet removed, an insert into a buffer holding [n]
    descriptors and a remove from an empty buffer are the calls that do not
    return (they wait), and no other call fails. *)
Theorem sbuf_is_bounded_fifo (n : Z) (ops : list sbuf_op) :
  0 < n → Z.of_nat (length ops) ≤ C.INT_MAX →
  fst <$> sbuf_run ops (Sbuf.sbuf_init n) = fst <$> queue_run n ops [].
Proof.
  intros Hn Hops.
  apply (sbuf_run_holds ops (Sbuf.sbuf_init n) []).
  - by apply sbuf_init_holds.
  - simpl. lia.
Qed.

End sbuf_extras.

(** ** The URI parser: shape of the results and round trip *)

Section parser_extras.

Lemma take_append (a b : string) : C.take (String.length a) (a +:+ b) = a.
Proof. induction a as [|c a IH]; simpl; [by destruct b|]. by rewrite IH. Qed.

Lemma drop_append (a b : string) : C.drop (String.length a) (a +:+ b) = b.
Proof. induction a as [|c a IH]; simpl; done. Qed.

Lemma strstr_char_nil (c : ascii) : C.strstr EmptyString (String c EmptyString) = None.
Proof. done. Qed.

Lemma strstr_char_append (a b : string) (c : ascii) :
  C.strstr a (String c EmptyString) = None →
  C.strstr (a +:+ b) (String c EmptyString)
  = (λ k, (String.length a + k)%nat) <$> C.strstr b (String c EmptyString).
Proof.
  induction a as [|x a IH].
  - intros _. change (EmptyString +:+ b) with b.
    by destruct (C.strstr b (String c EmptyString)).
  - rewrite strstr_char_cons. change (String x a +:+ b) with (String x (a +:+ b)).
    rewrite strstr_char_cons.
    destruct (decide (c = x)); [done|].
    destruct (C.strstr a (String c EmptyString)) eqn:Ha; [done|].
    intros _. rewrite IH by done.
    by destruct (C.strstr b (String c EmptyString)).
Qed.

Lemma strstr_char_found (s : string) (c : ascii) (j : nat) :
  C.strstr s (String c EmptyString) = Some j →
  C.drop j s = String c (C.drop (S j) s)
  ∧ C.strstr (C.take j s) (String c EmptyString) = None.
Proof.
  revert j. induction s as [|x s IH]; intros j; [done|].
  rewrite strstr_char_cons. destruct (decide (c = x)) as [->|Hne].
  - by intros [= <-].
  - destruct (C.strstr s (String c EmptyString)) as [k|] eqn:Hk; [|done].
    simpl. intros [= <-]. destruct (IH k eq_refl) as [Hd Ht].
    split; [done|]. cbn [C.take]. by rewrite strstr_char_cons, decide_False, Ht.
Qed.

(** X7. Whatever the uri, the path [parse_uri] returns starts with [/] and
    the host name it returns holds no [:]; and when the uri holds no [:]
    after the scheme, the port is 80, the host name holds no [/], and host
    name and path are the two parts of the text after the scheme (the path
    being [/] when that text has no [/]). *)
Theorem parse_uri_shape (uri : string) :
  (∃ p, (Proxy.parse_uri uri).1.2 = String "/" p)
  ∧ C.strstr (Proxy.parse_uri uri).1.1 ":" = None
  ∧ (C.strstr (after_scheme uri) ":" = None →
     (Proxy.parse_uri uri).2 = 80
     ∧ C.strstr (Proxy.parse_uri uri).1.1 "/" = None
     ∧ ((Proxy.parse_uri uri).1.1 +:+ (Proxy.parse_uri uri).1.2 = after_scheme uri
        ∨ (C.strstr (after_scheme uri) "/" = None
           ∧ (Proxy.parse_uri uri).1.1 = after_scheme uri
           ∧ (Proxy.parse_uri uri).1.2 = "/"%string))).
Proof.
  unfold Proxy.parse_uri, Proxy.pathname_of, after_scheme.
  generalize (if C.strncasecmp uri "http://" 7 =? 0 then C.drop 7 uri else uri).
  intros rest.
  assert (Hcat : ∀ i, C.take i rest +:+ C.drop i rest = rest).
  { intros i. revert rest. induction i as [|i IH]; intros [|c r]; simpl; try done.
    change (String c (C.take i r) +:+ C.drop i r)
      with (String c (C.take i r +:+ C.drop i r)).
    by rewrite IH. }
  destruct (C.strstr rest ":") as [j|] eqn:Hcolon;
    destruct (C.strstr rest "/") as [i|] eqn:Hslash; simpl.
  - destruct (strstr_char_found rest "/" i Hslash) as [-> _].
    destruct (strstr_char_found rest ":" j Hcolon) as [_ ->].
    split_and!; [eauto|done|done].
  - destruct (strstr_char_found rest ":" j Hcolon) as [_ ->].
    split_and!; [eauto|done|done].
  - destruct (strstr_char_found rest "/" i Hslash) as [Hd Ht].
    rewrite Hd, (strstr_char_take_None rest ":" i Hcolon).
    split_and!; [eauto|done|]. intros _. split_and!; try done.
    left. by rewrite <- Hd.
  - split_and!; [eauto|done|]. intros _. split_and!; try done. by right.
Qed.

Lemma digits_digit (acc : Z) (c : ascii) (s : string) :
  C.isdigit c = true →
  C.digits acc (String c s) = C.digits (10 * acc + (C.code c - 48)) s.
Proof. intros Hc. simpl. by rewrite Hc. Qed.

Lemma digits_stop (acc : Z) (r : string) :
  digit_first r = false → C.digits acc r = acc.
Proof. destruct r as [|c r]; simpl; [done|]. by intros ->. Qed.

Ltac digit_step r IH :=
  cbn [NilEmpty.string_of_uint Pos.of_uint_acc Pos.of_uint];
  match goal with
  | |- C.digits _ (String ?c ?s +:+ r) = _ =>
      change (String c s +:+ r) with (String c (s +:+ r));
      rewrite (digits_digit _ c) by reflexivity;
      let v := eval vm_compute in (C.code c) in change (C.code c) with v
  end.

Lemma digits_uint_acc (d : Decimal.uint) (p : positive) (r : string) :
  digit_first r = false →
  C.digits (Z.pos p) (NilEmpty.string_of_uint d +:+ r)
  = Z.pos (Pos.of_uint_acc d p).
Proof.
  intros Hr. revert p.
  induction d as [|d IH|d IH|d IH|d IH|d IH|d IH|d IH|d IH|d IH|d IH]; intros p;
    [by apply digits_stop | ..];
    digit_step r IH; rewrite <- IH; f_equal; lia.
Qed.

Lemma digits_uint (d : Decimal.uint) (r : string) :
  digit_first r = false →
  C.digits 0 (NilEmpty.string_of_uint d +:+ r) = Z.of_N (Pos.of_uint d).
Proof.
  intros Hr.
  induction d as [|d IH|d IH|d IH|d IH|d IH|d IH|d IH|d IH|d IH|d IH];
    [by apply digits_stop | digit_step r IH; exact IH | ..];
    digit_step r IH; cbn [Z.of_N]; rewrite <- (digits_uint_acc d _ r Hr); f_equal.
Qed.

(** What [sprintf("%d")] writes starts with a digit or a minus sign followed
    by a digit, and holds nothing but digits after that. *)
Lemma string_of_uint_chars (d : Decimal.uint) (c : ascii) :
  C.isdigit c = false →
  C.strstr (NilEmpty.string_of_uint d) (String c EmptyString) = None.
Proof.
  intros Hc.
  induction d as [|d IH|d IH|d IH|d IH|d IH|d IH|d IH|d IH|d IH|d IH];
    [done | ..];
    cbn [NilEmpty.string_of_uint]; rewrite strstr_char_cons, IH;
    (rewrite decide_False; [done|]); intros ->; discriminate Hc.
Qed.

Lemma decimal_sprintf_d (z : Z) (r : string) :
  digit_first r = false → C.decimal (C.sprintf_d z +:+ r) = z.
Proof.
  intros Hr. unfold C.sprintf_d, C.decimal.
  destruct z as [|p|p]; simpl Z.to_int.
  - simpl. by rewrite digits_stop.
  - unfold NilZero.string_of_int, NilZero.string_of_uint.
    pose proof (DecimalPos.Unsigned.to_uint_nonnil p) as Hnn.
    pose proof (DecimalPos.Unsigned.of_to p) as Hof.
    pose proof (digits_uint (Pos.to_uint p) r Hr) as Hd. rewrite Hof in Hd.
    destruct (Pos.to_uint p) as [|d|d|d|d|d|d|d|d|d|d]; [done | ..];
      exact Hd.
  - unfold NilZero.string_of_int.
    pose proof (DecimalPos.Unsigned.to_uint_nonnil p) as Hnn.
    pose proof (DecimalPos.Unsigned.of_to p) as Hof.
    pose proof (digits_uint (Pos.to_uint p) r Hr) as Hd. rewrite Hof in Hd.
    unfold NilZero.string_of_uint.
    destruct (Pos.to_uint p) as [|d|d|d|d|d|d|d|d|d|d]; [done | ..];
      simpl; simpl in Hd; rewrite Hd; done.
Qed.

Lemma atoi_sprintf_d (z : Z) (r : string) :
  C.INT_MIN ≤ z ≤ C.INT_MAX → digit_first r = false →
  C.atoi (C.sprintf_d z +:+ r) = z.
Proof.
  intros Hz Hr. unfold C.atoi, C.strtol. rewrite (decimal_sprintf_d z r Hr).
  unfold C.LONG_MIN, C.LONG_MAX, C.INT_MIN, C.INT_MAX in *.
  rewrite Z.min_r, Z.max_r by lia. apply int_wrap_id.
  unfold C.INT_MIN, C.INT_MAX. lia.
Qed.

Lemma sprintf_d_chars (z : Z) (c : ascii) :
  C.isdigit c = false → c ≠ "-"%char →
  C.strstr (C.sprintf_d z) (String c EmptyString) = None.
Proof.
  intros Hc Hm. unfold C.sprintf_d.
  destruct z as [|p|p]; simpl Z.to_int.
  - change (NilZero.string_of_int (Decimal.Pos (Decimal.D0 Decimal.Nil)))
      with (String "0" EmptyString).
    rewrite strstr_char_cons, decide_False; [done|]. intros ->. discriminate Hc.
  - unfold NilZero.string_of_int, NilZero.string_of_uint.
    pose proof (string_of_uint_chars (Pos.to_uint p) c Hc) as Hs.
    destruct (Pos.to_uint p); try exact Hs.
    rewrite strstr_char_cons, decide_False; [done|]. intros ->. discriminate Hc.
  - unfold NilZero.string_of_int, NilZero.string_of_uint.
    pose proof (string_of_uint_chars (Pos.to_uint p) c Hc) as Hs.
    rewrite strstr_char_cons, decide_False by done.
    destruct (Pos.to_uint p); try by rewrite Hs.
    rewrite strstr_char_cons, decide_False; [done|]. intros ->. discriminate Hc.
Qed.

Lemma drop_append_add (a b : string) (n : nat) :
  C.drop (String.length a + n) (a +:+ b) = C.drop n b.
Proof. induction a as [|c a IH]; simpl; done. Qed.

Lemma take_append_add0 (a b : string) :
  C.take (String.length a + 0) (a +:+ b) = a.
Proof. rewrite Nat.add_0_r. apply take_append. Qed.

Lemma append_empty_r (a : string) : a +:+ EmptyString = a.
Proof.
  induction a as [|c a IH]; [done|].
  change (String c (a +:+ EmptyString) = String c a). by rewrite IH.
Qed.

Lemma after_scheme_http (s : string) : after_scheme ("http://" +:+ s) = s.
Proof. by destruct s. Qed.

(** X8. Writing a uri out and parsing it gives back its parts: for a host
    name without [:] and [/], a path that is empty or starts with [/], and a
    port (a number that fits an [int], written in decimal as [sprintf]
    does; or none together with a path that holds no [:]), [parse_uri] of
    [http://host:port/path] returns the host name, the path ([/] for the
    empty one) and the port (80 for none). *)
Theorem parse_uri_round_trip (host path : string) (port : option Z) :
  C.strstr host ":" = None → C.strstr host "/" = None →
  (path = EmptyString ∨ ∃ p, path = String "/" p) →
  (∀ p, port = Some p → C.INT_MIN ≤ p ≤ C.INT_MAX) →
  (port = None → C.strstr path ":" = None) →
  Proxy.parse_uri (absolute_uri host port path)
  = (host, if decide (path = EmptyString) then "/"%string else path, default 80 port).
Proof.
  intros Hcolon Hslash Hpath Hint Hport.
  unfold Proxy.parse_uri, Proxy.pathname_of.
  fold (after_scheme (absolute_uri host port path)).
  unfold absolute_uri. rewrite after_scheme_http.
  assert (Hdf : digit_first path = false).
  { by destruct Hpath as [->|[p ->]]. }
  destruct port as [p|]; simpl default.
  - change ((":" +:+ C.sprintf_d p) +:+ path)
      with (String ":" (C.sprintf_d p +:+ path)).
    rewrite (strstr_char_append host _ ":" Hcolon), strstr_char_cons,
      decide_True by done.
    simpl fmap. cbv beta iota.
    rewrite take_append_add0.
    replace (S (String.length host + 0)) with (String.length host + 1)%nat by lia.
    rewrite drop_append_add.
    change (C.drop 1 (String ":" (C.sprintf_d p +:+ path)))
      with (C.sprintf_d p +:+ path).
    rewrite (atoi_sprintf_d p path (Hint p eq_refl) Hdf).
    rewrite (strstr_char_append host _ "/" Hslash), strstr_char_cons,
      decide_False by done.
    rewrite (strstr_char_append (C.sprintf_d p) path "/") by (by apply sprintf_d_chars).
    destruct Hpath as [->|[q ->]].
    + by rewrite decide_True.
    + rewrite strstr_char_cons, decide_True, decide_False by done. simpl fmap. cbv beta iota.
      replace (String.length host + S (String.length (C.sprintf_d p) + 0))%nat
        with (String.length host + (1 + String.length (C.sprintf_d p)))%nat by lia.
      rewrite drop_append_add.
      change (C.drop (1 + String.length (C.sprintf_d p))
                (String ":" (C.sprintf_d p +:+ String "/" q)))
        with (C.drop (String.length (C.sprintf_d p))
                (C.sprintf_d p +:+ String "/" q)).
      by rewrite drop_append.
  - change (EmptyString +:+ path) with path.
    rewrite (strstr_char_append host path ":" Hcolon), (Hport eq_refl). simpl fmap.
    cbv beta iota.
    rewrite (strstr_char_append host path "/" Hslash).
    destruct Hpath as [->|[q ->]].
    + rewrite decide_True by done. simpl. by rewrite append_empty_r.
    + rewrite strstr_char_cons, decide_True, decide_False by done. simpl fmap. cbv beta iota.
      by rewrite take_append_add0, drop_append_add.
Qed.

End parser_extras.

(** ** The request line and the request headers *)

Section request_extras.

Lemma append_cons (c : ascii) (a b : string) :
  String c a +:+ b = String c (a +:+ b).
Proof. reflexivity. Qed.

Lemma append_assoc (a b c : string) : (a +:+ b) +:+ c = a +:+ (b +:+ c).
Proof.
  induction a as [|x a IH]; [done|]. rewrite !append_cons. by rewrite IH.
Qed.

Lemma cstring_bytes_cons (c : ascii) (s : string) :
  C.cstring (C.bytes (String c s))
  = if C.code c =? 0 then EmptyString else String c (C.cstring (C.bytes s)).
Proof.
  unfold C.bytes. simpl.
  destruct (Byte.eqb (byte_of_ascii c) x00) eqn:Hb.
  - apply byte_dec_bl in Hb.
    assert (c = ascii_of_byte x00) as -> by (by rewrite <- Hb, ascii_of_byte_of_ascii).
    done.
  - rewrite ascii_of_byte_of_ascii.
    destruct (Z.eqb_spec (C.code c) 0) as [H0|]; [|done].
    assert (c = "000"%char) as -> by (by apply code_inj).
    done.
Qed.

Lemma isspace_code (c : ascii) : C.isspace c = true → (C.code c =? 0) = false.
Proof.
  unfold C.isspace. intros H. apply Z.eqb_neq. intros H0. rewrite H0 in H. done.
Qed.

Lemma cstring_bytes_blank (a b : string) :
  blank a = true → C.cstring (C.bytes (a +:+ b)) = a +:+ C.cstring (C.bytes b).
Proof.
  induction a as [|c a IH]; [done|]. cbn [blank]. intros [Hc Ha]%andb_prop.
  rewrite !append_cons, cstring_bytes_cons, (isspace_code c Hc). by rewrite IH.
Qed.

Lemma cstring_bytes_plain (a b : string) :
  plain a = true → C.cstring (C.bytes (a +:+ b)) = a +:+ C.cstring (C.bytes b).
Proof.
  induction a as [|c a IH]; [done|]. cbn [plain].
  intros [[Hc H0%negb_true_iff]%andb_prop Ha]%andb_prop.
  rewrite !append_cons, cstring_bytes_cons, H0. by rewrite IH.
Qed.

Lemma cstring_bytes_ends (s : string) :
  ends_word s = true →
  C.cstring (C.bytes s) = EmptyString
  ∨ ∃ c r, C.cstring (C.bytes s) = String c r ∧ C.isspace c = true.
Proof.
  destruct s as [|c s]; [by left|]. cbn [ends_word]. rewrite cstring_bytes_cons.
  destruct (Z.eqb_spec (C.code c) 0); [by left|]. rewrite orb_false_r.
  intros Hc. right. eauto.
Qed.

Lemma skip_space_blank (a b : string) :
  blank a = true → C.skip_space (a +:+ b) = C.skip_space b.
Proof.
  induction a as [|c a IH]; [done|]. cbn [blank]. intros [Hc Ha]%andb_prop.
  rewrite append_cons. cbn [C.skip_space]. rewrite Hc. by apply IH.
Qed.

Lemma scan_word_plain (a b : string) :
  plain a = true →
  b = EmptyString ∨ (∃ c r, b = String c r ∧ C.isspace c = true) →
  Proxy.scan_word (a +:+ b) = (a, b).
Proof.
  intros Ha Hb. induction a as [|c a IH].
  - destruct Hb as [->|(c & r & -> & Hc)]; [done|]. simpl.
    change (EmptyString +:+ String c r) with (String c r). simpl. by rewrite Hc.
  - simpl in Ha. apply andb_prop in Ha as [[Hc%negb_true_iff _]%andb_prop Ha].
    rewrite append_cons. simpl. rewrite Hc, (IH Ha). done.
Qed.

(** [%s] on white space, a word, and a text at which the word ends. *)
Lemma scan_s_word (sp a b : string) :
  blank sp = true → plain a = true → a ≠ EmptyString →
  b = EmptyString ∨ (∃ c r, b = String c r ∧ C.isspace c = true) →
  Proxy.scan_s (sp +:+ a +:+ b) = Some (a, b).
Proof.
  intros Hsp Ha Hne Hb. unfold Proxy.scan_s. rewrite skip_space_blank by done.
  destruct a as [|c a]; [done|].
  pose proof Ha as Ha'. simpl in Ha'.
  apply andb_prop in Ha' as [[Hc%negb_true_iff _]%andb_prop _].
  rewrite append_cons. simpl C.skip_space. rewrite Hc.
  rewrite <- append_cons. by rewrite scan_word_plain.
Qed.

Lemma blank_first (sp b : string) :
  blank sp = true → sp ≠ EmptyString →
  ∃ c r, sp +:+ b = String c r ∧ C.isspace c = true.
Proof.
  destruct sp as [|c sp]; [done|]. simpl. intros [Hc _]%andb_prop _.
  exists c, (sp +:+ b). by rewrite append_cons.
Qed.

(** X9. A request line made of three words (no white space and no NUL in
    them) with white space before the first, between them and after the
    third is read as these three words, whatever the amount and kind of
    white space, whatever follows the third word, and whatever the arrays
    held before. *)
Theorem request_line_words (sp0 method sp1 uri sp2 version tail : string)
    (rest : list (list byte)) (buf0 : list byte) (method0 uri0 version0 : string) :
  plain method = true → method ≠ EmptyString →
  plain uri = true → uri ≠ EmptyString →
  plain version = true → version ≠ EmptyString →
  blank sp0 = true →
  blank sp1 = true → sp1 ≠ EmptyString →
  blank sp2 = true → sp2 ≠ EmptyString →
  ends_word tail = true →
  Proxy.request_line
    (C.bytes (sp0 +:+ method +:+ sp1 +:+ uri +:+ sp2 +:+ version +:+ tail) :: rest)
    buf0 method0 uri0 version0
  = (method, uri, version).
Proof.
  intros Hm Hmne Hu Hune Hv Hvne Hsp0 Hsp1 Hsp1ne Hsp2 Hsp2ne Htail.
  unfold Proxy.request_line, Proxy.sscanf3. simpl fst.
  rewrite cstring_bytes_blank, cstring_bytes_plain, cstring_bytes_blank,
    cstring_bytes_plain, cstring_bytes_blank, cstring_bytes_plain by done.
  pose proof (cstring_bytes_ends tail Htail) as Hend.
  set (t := C.cstring (C.bytes tail)) in *.
  rewrite (scan_s_word sp0 method) by
    (try done; right; by apply blank_first).
  rewrite (scan_s_word sp1 uri) by (try done; right; by apply blank_first).
  rewrite (scan_s_word sp2 version) by done.
  done.
Qed.

Lemma scan_s_blank (sp : string) : blank sp = true → Proxy.scan_s sp = None.
Proof.
  intros Hsp. unfold Proxy.scan_s.
  rewrite <- (append_empty_r sp), skip_space_blank by done. done.
Qed.

(** X10. A request line with fewer than three words leaves the arrays of
    the words it lacks as they were on entry to [doit], which does not
    initialise them: a line of white space only leaves method, uri and
    version; a line with one word leaves uri and version; a line with two
    words leaves the version. [doit] goes on with what the arrays hold. *)
Theorem short_request_line_keeps_arrays (sp0 method sp1 uri sp2 : string)
    (rest : list (list byte)) (buf0 : list byte) (method0 uri0 version0 : string) :
  plain method = true → method ≠ EmptyString →
  plain uri = true → uri ≠ EmptyString →
  blank sp0 = true → blank sp1 = true → sp1 ≠ EmptyString → blank sp2 = true →
  Proxy.request_line (C.bytes sp0 :: rest) buf0 method0 uri0 version0
  = (method0, uri0, version0)
  ∧ Proxy.request_line (C.bytes (sp0 +:+ method +:+ sp2) :: rest)
      buf0 method0 uri0 version0
    = (method, uri0, version0)
  ∧ Proxy.request_line (C.bytes (sp0 +:+ method +:+ sp1 +:+ uri +:+ sp2) :: rest)
      buf0 method0 uri0 version0
    = (method, uri, version0).
Proof.
  intros Hm Hmne Hu Hune Hsp0 Hsp1 Hsp1ne Hsp2.
  assert (Hnil : C.cstring (C.bytes EmptyString) = EmptyString) by done.
  assert (Hend : ∀ sp, blank sp = true → C.cstring (C.bytes sp) = sp).
  { intros sp Hsp. rewrite <- (append_empty_r sp) at 1.
    by rewrite cstring_bytes_blank, Hnil, append_empty_r. }
  assert (Hstop : ∀ sp, blank sp = true →
            sp = EmptyString ∨ ∃ c r, sp = String c r ∧ C.isspace c = true).
  { intros [|c r] Hsp; [by left|]. right. exists c, r. split; [done|].
    cbn [blank] in Hsp. by apply andb_prop in Hsp as [? _]. }
  unfold Proxy.request_line, Proxy.sscanf3. cbn [fst Proxy.Rio_readlineb].
  split_and!.
  - by rewrite (Hend sp0 Hsp0), (scan_s_blank sp0 Hsp0).
  - rewrite cstring_bytes_blank, cstring_bytes_plain, (Hend sp2 Hsp2) by done.
    rewrite (scan_s_word sp0 method sp2) by (try done; by apply Hstop).
    by rewrite (scan_s_blank sp2 Hsp2).
  - rewrite cstring_bytes_blank, cstring_bytes_plain, cstring_bytes_blank,
      cstring_bytes_plain, (Hend sp2 Hsp2) by done.
    rewrite (scan_s_word sp0 method) by (try done; right; by apply blank_first).
    rewrite (scan_s_word sp1 uri sp2) by (try done; by apply Hstop).
    by rewrite (scan_s_blank sp2 Hsp2).
Qed.

Lemma cat_app (xs ys : list string) : cat (xs ++ ys) = cat xs +:+ cat ys.
Proof.
  induction xs as [|x xs IH]; [done|]. unfold cat in *. cbn [foldr app].
  by rewrite IH, append_assoc.
Qed.

Lemma is_host_hdr_nonempty (buf : string) :
  is_host_hdr buf = true → (Z.of_nat (String.length buf) =? 0) = false.
Proof. by destruct buf. Qed.

Lemma cstring_length (l : list byte) :
  (String.length (C.cstring l) ≤ length l)%nat.
Proof.
  induction l as [|b l IH]; [done|]. cbn [C.cstring].
  destruct (Byte.eqb b x00); simpl; lia.
Qed.

Lemma hdr_loop_spec (rio : list (list byte)) (newreq host_hdr : string) :
  Forall (λ l, Z.of_nat (length l) < MAXLINE) rio →
  Z.of_nat (String.length newreq) < MAXLINE →
  Proxy.hdr_loop rio newreq host_hdr
  = if Z.of_nat (String.length
                   (newreq +:+ cat (List.filter forwarded_hdr (client_headers rio))))
       <? MAXLINE
    then Some (newreq +:+ cat (List.filter forwarded_hdr (client_headers rio)),
               default host_hdr
                 (list.last (List.filter is_host_hdr (client_headers rio))),
               drop (S (length (client_headers rio))) rio)
    else None.
Proof.
  intros Hrio. revert newreq host_hdr.
  induction Hrio as [|l rest Hl _ IH]; intros newreq host_hdr Hnew.
  - cbn. rewrite append_empty_r.
    by destruct (Z.ltb_spec (Z.of_nat (String.length newreq)) MAXLINE); [|lia].
  - cbn [Proxy.hdr_loop client_headers]. cbv zeta.
    destruct (0 <? Z.of_nat (length l)).
    2:{ cbn. rewrite append_empty_r, drop_0.
        by destruct (Z.ltb_spec (Z.of_nat (String.length newreq)) MAXLINE); [|lia]. }
    destruct (C.strcmp (C.cstring l) C.CRLF =? 0).
    { cbn. rewrite append_empty_r, drop_0.
      by destruct (Z.ltb_spec (Z.of_nat (String.length newreq)) MAXLINE); [|lia]. }
    cbn [List.filter length drop].
    pose proof (cstring_length l) as Hc.
    set (host := C.strncasecmp (C.cstring l) "Host:" 5 =? 0).
    set (replaced := (C.strncasecmp (C.cstring l) "User-Agent:" 11 =? 0)
                     || (C.strncasecmp (C.cstring l) "Connection:" 11 =? 0)
                     || (C.strncasecmp (C.cstring l) "Proxy-Connection:" 17 =? 0)).
    change (is_host_hdr (C.cstring l)) with host.
    change (forwarded_hdr (C.cstring l)) with (negb host && negb replaced).
    destruct host.
    { rewrite write_Some by lia. cbn [mbind option_bind negb andb].
      rewrite IH by done.
      match goal with |- context [Z.ltb ?a MAXLINE] =>
        destruct (Z.ltb_spec a MAXLINE); [|done] end.
      do 2 f_equal.
      destruct (List.filter is_host_hdr (client_headers rest)) as [|h hs] eqn:Hf;
        [done|].
      rewrite last_cons_cons.
      assert (is_Some (list.last (h :: hs))) as [x ->] by (by apply last_is_Some).
      done. }
    cbn [negb andb].
    destruct replaced.
    { cbn [negb]. by rewrite IH. }
    cbn [negb]. change (cat (?x :: ?xs)) with (x +:+ cat xs).
    rewrite <- append_assoc. unfold C.strcat, C.strcpy.
    destruct (Z.ltb_spec (Z.of_nat (String.length (newreq +:+ C.cstring l))) MAXLINE)
      as [Hfit|Hover].
    + cbn [mbind option_bind]. by rewrite IH.
    + cbn [mbind option_bind].
      rewrite (length_append (newreq +:+ C.cstring l)).
      match goal with |- context [Z.ltb ?a MAXLINE] =>
        by destruct (Z.ltb_spec a MAXLINE); [lia|] end.
Qed.

(** The Host header the loop leaves is a line of the reader. *)
Lemma last_host_length (rio : list (list byte)) (h : string) :
  Forall (λ l, Z.of_nat (length l) < MAXLINE) rio →
  list.last (List.filter is_host_hdr (client_headers rio)) = Some h →
  is_host_hdr h = true ∧ Z.of_nat (String.length h) < MAXLINE.
Proof.
  intros Hrio Hl.
  assert (h ∈ List.filter is_host_hdr (client_headers rio)) as Hin.
  { apply last_Some in Hl as [l' ->]. set_solver. }
  apply list_elem_of_In, List.filter_In in Hin as [Hin Hh]. split; [done|].
  assert (Hh' : ∃ l, l ∈ rio ∧ h = C.cstring l).
  { clear -Hin. revert Hin. induction rio as [|l rio IH]; [done|]. cbn [client_headers].
    destruct (0 <? Z.of_nat (length l)); [|done].
    destruct (C.strcmp (C.cstring l) C.CRLF =? 0); [done|].
    intros [<-|Hin].
    - exists l. split; [left|done].
    - destruct (IH Hin) as (l' & ? & ?). exists l'. split; [by right|done]. }
  destruct Hh' as (l & Hl' & ->).
  rewrite Forall_forall in Hrio. specialize (Hrio l Hl').
  pose proof (cstring_length l). lia.
Qed.

(** A request of fewer than [MAXLINE] bytes is built without overrunning an
    array. *)
Lemma build_requesthdrs_fits (rio : list (list byte)) (hostname pathname : string) :
  Forall (λ l, Z.of_nat (length l) < MAXLINE) rio →
  Z.of_nat (String.length (built_request rio hostname pathname)) < MAXLINE →
  Proxy.build_requesthdrs rio hostname pathname
  = Some (built_request rio hostname pathname,
          drop (S (length (client_headers rio))) rio).
Proof.
  intros Hrio.
  set (line := "GET " +:+ pathname +:+ " HTTP/1.0" +:+ C.CRLF).
  set (fwd := cat (List.filter forwarded_hdr (client_headers rio))).
  set (hosts := list.last (List.filter is_host_hdr (client_headers rio))).
  set (host := default ("Host: " +:+ hostname +:+ C.CRLF) hosts).
  set (c1 := "Connection: close" +:+ C.CRLF).
  set (c2 := "Proxy-Connection: close" +:+ C.CRLF +:+ C.CRLF).
  assert (Hb : built_request rio hostname pathname
               = ((((line +:+ fwd) +:+ host) +:+ Proxy.user_agent_hdr) +:+ c1) +:+ c2).
  { unfold built_request, line. by rewrite !append_assoc. }
  rewrite Hb. clear Hb. intros Hfit. rewrite !length_append in Hfit.
  unfold Proxy.build_requesthdrs, C.sprintf, C.strcat. fold line c1 c2.
  rewrite (write_Some _ line) by lia. cbn [mbind option_bind].
  rewrite (hdr_loop_spec rio line EmptyString Hrio) by lia. fold fwd hosts.
  destruct (Z.ltb_spec (Z.of_nat (String.length (line +:+ fwd))) MAXLINE);
    [|rewrite length_append in *; lia].
  cbn [mbind option_bind].
  assert (Hhost :
    (if Z.of_nat (String.length (default EmptyString hosts)) =? 0
     then C.strcpy MAXLINE ("Host: " +:+ hostname +:+ C.CRLF)
     else Some (default EmptyString hosts))
    = Some host).
  { unfold host. destruct hosts as [h|] eqn:Hl; cbn [default].
    - unfold id. destruct (last_host_length rio h Hrio Hl) as [Hh _].
      by rewrite (is_host_hdr_nonempty h Hh).
    - change (Z.of_nat (String.length EmptyString) =? 0) with true. cbv iota.
      apply write_Some. unfold host in Hfit. cbn [default] in Hfit. lia. }
  rewrite Hhost. cbn [mbind option_bind].
  rewrite (write_Some _ ((line +:+ fwd) +:+ host)) by (rewrite !length_append; lia).
  cbn [mbind option_bind].
  rewrite (write_Some _ (((line +:+ fwd) +:+ host) +:+ Proxy.user_agent_hdr))
    by (rewrite !length_append; lia).
  cbn [mbind option_bind].
  rewrite (write_Some _ ((((line +:+ fwd) +:+ host) +:+ Proxy.user_agent_hdr) +:+ c1))
    by (rewrite !length_append; lia).
  cbn [mbind option_bind].
  rewrite write_Some by (rewrite !length_append; lia).
  done.
Qed.

Lemma over_None {A} (n : Z) (t : option A) :
  MAXLINE ≤ n → None = (if n <? MAXLINE then t else None).
Proof. intros H. by destruct (Z.ltb_spec n MAXLINE); [lia|]. Qed.

(** X11. The request [build_requesthdrs] builds for the origin from header
    lines as [Rio_readlineb] returns them: the line [GET pathname HTTP/1.0],
    then the header lines of the client before its blank line (or the end
    of its input) in their order, without the Host headers and without
    User-Agent, Connection and Proxy-Connection (names compared without
    letter case); then one Host header, the last one the client sent, or
    [Host: hostname] when it sent none; then the User-Agent of the proxy,
    [Connection: close] and [Proxy-Connection: close] and a blank line. The
    reader is left after the blank line. That is so when this request is of
    fewer than [MAXLINE] bytes; when it is longer, [build_requesthdrs]
    writes past the end of [newreq] or [host_hdr]. *)
Theorem build_requesthdrs_spec (rio : list (list byte)) (hostname pathname : string) :
  Forall (λ l, Z.of_nat (length l) < MAXLINE) rio →
  Proxy.build_requesthdrs rio hostname pathname
  = if Z.of_nat (String.length (built_request rio hostname pathname)) <? MAXLINE
    then Some (built_request rio hostname pathname,
               drop (S (length (client_headers rio))) rio)
    else None.
Proof.
  intros Hrio.
  set (line := "GET " +:+ pathname +:+ " HTTP/1.0" +:+ C.CRLF).
  set (fwd := cat (List.filter forwarded_hdr (client_headers rio))).
  set (hosts := list.last (List.filter is_host_hdr (client_headers rio))).
  set (host := default ("Host: " +:+ hostname +:+ C.CRLF) hosts).
  set (c1 := "Connection: close" +:+ C.CRLF).
  set (c2 := "Proxy-Connection: close" +:+ C.CRLF +:+ C.CRLF).
  assert (Hb : built_request rio hostname pathname
               = ((((line +:+ fwd) +:+ host) +:+ Proxy.user_agent_hdr) +:+ c1) +:+ c2).
  { unfold built_request, line. by rewrite !append_assoc. }
  rewrite Hb. clear Hb. unfold Proxy.build_requesthdrs, C.sprintf. fold line c1 c2.
  destruct (Z.ltb_spec (Z.of_nat (String.length line)) MAXLINE) as [Hline|Hline].
  2:{ rewrite (write_None _ line) by done. cbn [mbind option_bind].
      apply over_None. rewrite !length_append. lia. }
  rewrite (write_Some _ line) by done. cbn [mbind option_bind].
  rewrite (hdr_loop_spec rio line EmptyString Hrio Hline). fold fwd hosts.
  destruct (Z.ltb_spec (Z.of_nat (String.length (line +:+ fwd))) MAXLINE)
    as [Hfwd|Hfwd].
  2:{ cbn [mbind option_bind]. apply over_None. rewrite !length_append in *. lia. }
  cbn [mbind option_bind].
  assert (Hhost :
    (if Z.of_nat (String.length (default EmptyString hosts)) =? 0
     then C.strcpy MAXLINE ("Host: " +:+ hostname +:+ C.CRLF)
     else Some (default EmptyString hosts))
    = C.strcpy MAXLINE host).
  { unfold host. destruct hosts as [h|] eqn:Hl; [|done]. cbn [default]. unfold id.
    destruct (last_host_length rio h Hrio Hl) as [Hh Hlen].
    rewrite (is_host_hdr_nonempty h Hh). symmetry. by apply write_Some. }
  rewrite Hhost. clear Hhost.
  destruct (Z.ltb_spec (Z.of_nat (String.length host)) MAXLINE) as [Hh|Hh].
  2:{ rewrite (write_None _ host) by done. cbn [mbind option_bind].
      apply over_None. rewrite !length_append in *. lia. }
  rewrite (write_Some _ host) by done. cbn [mbind option_bind]. unfold C.strcat.
  destruct (Z.ltb_spec (Z.of_nat (String.length ((line +:+ fwd) +:+ host))) MAXLINE)
    as [H2|H2].
  2:{ rewrite (write_None _ ((line +:+ fwd) +:+ host)) by done.
      cbn [mbind option_bind].
      apply over_None. rewrite !length_append in *. lia. }
  rewrite (write_Some _ ((line +:+ fwd) +:+ host)) by done. cbn [mbind option_bind].
  destruct (Z.ltb_spec
              (Z.of_nat (String.length (((line +:+ fwd) +:+ host) +:+ Proxy.user_agent_hdr)))
              MAXLINE) as [H3|H3].
  2:{ rewrite (write_None _ (((line +:+ fwd) +:+ host) +:+ Proxy.user_agent_hdr))
        by done.
      cbn [mbind option_bind].
      apply over_None. rewrite !length_append in *. lia. }
  rewrite (write_Some _ (((line +:+ fwd) +:+ host) +:+ Proxy.user_agent_hdr)) by done.
  cbn [mbind option_bind].
  destruct (Z.ltb_spec
              (Z.of_nat (String.length
                           ((((line +:+ fwd) +:+ host) +:+ Proxy.user_agent_hdr) +:+ c1)))
              MAXLINE) as [H4|H4].
  2:{ rewrite (write_None _ ((((line +:+ fwd) +:+ host) +:+ Proxy.user_agent_hdr) +:+ c1))
        by done.
      cbn [mbind option_bind].
      apply over_None. rewrite !length_append in *. lia. }
  rewrite (write_Some _ ((((line +:+ fwd) +:+ host) +:+ Proxy.user_agent_hdr) +:+ c1))
    by done.
  cbn [mbind option_bind]. unfold C.strcpy.
  match goal with |- context [Z.ltb ?a MAXLINE] =>
    by destruct (Z.ltb_spec a MAXLINE) end.
Qed.

End request_extras.

(** ** The handler on the states the cache goes through *)

Section handler_extras.

Lemma run_app (ks1 ks2 : list Cache.call) (m : Cache.mem) :
  Cache.run (ks1 ++ ks2) m = Cache.run ks1 m ≫= Cache.run ks2.
Proof.
  revert m. induction ks1 as [|k ks1 IH]; intros m; [done|].
  simpl. destruct (Cache.do_call k m) as [m'|]; [|done]. simpl. apply IH.
Qed.

Lemma reachable_run (ks : list Cache.call) (m m1 : Cache.mem) :
  Cache.reachable m → Cache.run ks m = Some m1 → Cache.reachable m1.
Proof.
  intros [ks0 H0] H1. exists (ks0 ++ ks). by rewrite run_app, H0.
Qed.

(** On the states the cache goes through a block holds no more bytes than
    its length says. *)
Lemma reachable_repr (m : Cache.mem) :
  Cache.reachable m →
  idle m ∧ ∃ es, repr m es
    ∧ Forall (λ e, Z.of_nat (length (body e)) ≤ len e) es.
Proof.
  intros [ks Hrun].
  destruct wf_init as [Hidle0 [es0 Hr0]].
  assert (es0 = []) as ->.
  { destruct Hr0 as [_ _ Hh _ _ _ _]. by destruct es0. }
  destruct (run_history ks _ [] m Hidle0 Hr0 Hrun)
    as (es & k & Hidle & Hr & Hpay).
  split; [done|]. exists es. split; [done|].
  simpl in Hpay. rewrite app_nil_r in Hpay.
  assert (Hadm : Forall (λ p, 0 ≤ p.2 → Z.of_nat (length p.1.2) ≤ p.2)
                   (entry_payload <$> es)).
  { rewrite Hpay. apply Forall_take, Forall_rev.
    clear. induction ks as [|[u body size|u] ks IH]; simpl; try done.
    destruct (Z.gtb_spec size MAX_OBJECT_SIZE); [done|].
    constructor; [|done]. simpl. unfold Cache.memcpy. rewrite length_take. lia. }
  destruct Hr as [_ _ _ _ Hlen _ _].
  rewrite Forall_fmap in Hadm.
  apply Forall_forall. intros e He.
  rewrite Forall_forall in Hadm, Hlen.
  specialize (Hadm e He). specialize (Hlen e He). simpl in *. lia.
Qed.

Lemma cached_repr (u : string) (m : Cache.mem) (es : list entry) :
  repr m es → cached u m = body <$> lookup_key u es.
Proof.
  intros Hr. unfold cached. rewrite (payloads_repr m es Hr). clear.
  induction es as [|e es IH]; [done|].
  rewrite fmap_cons, filter_cons. cbn [lookup_key entry_payload fst snd].
  destruct (decide (key e = u)); [done|]. apply IH.
Qed.

(** On the states the cache goes through a request for a uri is answered
    from the cache when the uri is live, with the content of its first
    entry. *)
Lemma doit_cached (nw : Proxy.net) (connfd : Z) (client : list (list byte))
    (buf0 : list byte) (method0 uri0 version0 method uri version : string)
    (m : Cache.mem) (data : list byte) :
  Cache.reachable m →
  Proxy.request_line client buf0 method0 uri0 version0 = (method, uri, version) →
  C.strcasecmp method "GET" = 0 →
  cached uri m = Some data →
  Proxy.doit nw connfd client buf0 method0 uri0 version0 m
  = Some (m, [Proxy.cache_probe uri; Proxy.send connfd data]).
Proof.
  intros (Hidle & es & Hr & Hbody)%reachable_repr Hline Hget Hc.
  rewrite (cached_repr uri m es Hr) in Hc.
  destruct (lookup_key uri es) as [e|] eqn:Hl; [|done].
  injection Hc as <-.
  destruct (lookup_key_Some _ _ _ Hl) as (i & Hi & _ & _).
  pose proof (repr_linked _ _ Hr i e Hi) as Hb.
  rewrite (doit_hit nw connfd client buf0 method0 uri0 version0 method uri version
             m (addr e) (block_of es i e) Hline Hget); [| |exact Hb].
  - simpl. rewrite take_ge; [done|].
    pose proof (Forall_lookup_1 _ _ _ _ Hbody Hi) as He. simpl in He. lia.
  - by rewrite (cache_find_repr uri m es Hidle Hr), Hl.
Qed.

Lemma cached_None_find (u : string) (m : Cache.mem) :
  Cache.reachable m → cached u m = None →
  Cache.cache_find u m = Some (None, m).
Proof.
  intros (Hidle & es & Hr & _)%reachable_repr Hc.
  rewrite (cached_repr u m es Hr) in Hc.
  rewrite (cache_find_repr u m es Hidle Hr).
  by destruct (lookup_key u es).
Qed.

Lemma stream_loop_staged (lines : list (list byte)) (connfd : Z)
    (cache_buf : list byte) (cache_size : Z) :
  Forall (λ l, 0 < Z.of_nat (length l) < MAXLINE) lines →
  0 ≤ cache_size ≤ MAX_OBJECT_SIZE →
  Proxy.stream_loop lines connfd cache_buf cache_size
  = (cache_buf ++ staged lines cache_size,
     cache_size + Z.of_nat (length (staged lines cache_size)),
     Proxy.send connfd <$> lines).
Proof.
  intros Hlines. revert cache_buf cache_size.
  induction Hlines as [|l lines Hl _ IH]; intros cache_buf cache_size Hsz.
  - cbn. by rewrite app_nil_r, Z.add_0_r.
  - cbn [Proxy.stream_loop staged]. cbv zeta.
    unfold C.size_wrap, MAXLINE, MAX_OBJECT_SIZE in *.
    rewrite (Z.mod_small (Z.of_nat (length l))) by lia.
    rewrite (Z.mod_small cache_size) by lia.
    rewrite (Z.mod_small (cache_size + Z.of_nat (length l))) by lia.
    destruct (Z.ltb_spec 0 (Z.of_nat (length l))); [|lia].
    destruct (Z.leb_spec (cache_size + Z.of_nat (length l)) 102400).
    + rewrite int_wrap_id by (unfold C.INT_MIN, C.INT_MAX; lia).
      rewrite IH by lia. rewrite length_app, <- app_assoc, fmap_cons.
      f_equal. f_equal. lia.
    + rewrite IH by lia. by rewrite fmap_cons.
Qed.

Lemma staged_fits (lines : list (list byte)) (size : Z) :
  size + Z.of_nat (length (concat lines)) ≤ MAX_OBJECT_SIZE →
  staged lines size = concat lines.
Proof.
  revert size. induction lines as [|l lines IH]; intros size; [done|].
  cbn [staged concat]. rewrite length_app. intros H.
  destruct (Z.leb_spec (size + Z.of_nat (length l)) MAX_OBJECT_SIZE); [|lia].
  rewrite IH; [done|lia].
Qed.

Lemma staged_length (lines : list (list byte)) (size : Z) :
  0 ≤ size ≤ MAX_OBJECT_SIZE →
  size + Z.of_nat (length (staged lines size)) ≤ MAX_OBJECT_SIZE.
Proof.
  revert size. induction lines as [|l lines IH]; intros size Hsz.
  - simpl. lia.
  - cbn [staged].
    destruct (Z.leb_spec (size + Z.of_nat (length l)) MAX_OBJECT_SIZE).
    + rewrite length_app. specialize (IH (size + Z.of_nat (length l))). lia.
    + by apply IH.
Qed.

Lemma int_wrap_size (x : Z) :
  0 ≤ x → x mod 2 ^ 64 ≤ MAX_OBJECT_SIZE →
  0 ≤ C.int_wrap x ≤ MAX_OBJECT_SIZE.
Proof.
  intros Hx Hm. unfold C.int_wrap, MAX_OBJECT_SIZE in *.
  pose proof (Z.div_mod x (2 ^ 64) ltac:(lia)) as Hd.
  pose proof (Z.mod_pos_bound x (2 ^ 64) ltac:(lia)) as Hb.
  replace (x + 2 ^ 31)
    with ((x mod 2 ^ 64 + 2 ^ 31) + (2 ^ 32 * (x / 2 ^ 64)) * 2 ^ 32) by lia.
  rewrite Z.mod_add by lia. rewrite Z.mod_small by lia. lia.
Qed.

(** Whatever the origin sends, what the streaming loop has staged at its
    end fits in [MAX_OBJECT_SIZE]. *)
Lemma stream_loop_bound (lines : list (list byte)) (connfd : Z)
    (cache_buf : list byte) (cache_size : Z) :
  0 ≤ cache_size ≤ MAX_OBJECT_SIZE →
  0 ≤ (Proxy.stream_loop lines connfd cache_buf cache_size).1.2 ≤ MAX_OBJECT_SIZE.
Proof.
  revert cache_buf cache_size.
  induction lines as [|l lines IH]; intros cache_buf cache_size Hsz; [done|].
  cbn [Proxy.stream_loop]. cbv zeta.
  destruct (0 <? C.size_wrap (Z.of_nat (length l))); [|done].
  destruct (Z.leb_spec
              (C.size_wrap (C.size_wrap cache_size + C.size_wrap (Z.of_nat (length l))))
              MAX_OBJECT_SIZE) as [Hle|Hgt].
  - match goal with |- context [Proxy.stream_loop lines connfd ?b ?s] =>
      specialize (IH b s); destruct (Proxy.stream_loop lines connfd b s)
        as [[b1 s1] tr1] end.
    simpl in *. apply IH. apply int_wrap_size.
    + unfold C.size_wrap.
      pose proof (Z.mod_pos_bound (Z.of_nat (length l)) (2 ^ 64) ltac:(lia)). lia.
    + revert Hle. unfold C.size_wrap, MAX_OBJECT_SIZE in *.
      rewrite (Z.mod_small cache_size) by lia. done.
  - specialize (IH cache_buf cache_size Hsz).
    destruct (Proxy.stream_loop lines connfd cache_buf cache_size) as [[b1 s1] tr1].
    simpl in *. done.
Qed.

Lemma cache_calls_app (tr1 tr2 : list Proxy.event) :
  cache_calls (tr1 ++ tr2) = cache_calls tr1 ++ cache_calls tr2.
Proof.
  induction tr1 as [|[] tr1 IH]; simpl; by rewrite ?IH.
Qed.

Lemma cache_calls_stream_loop (lines : list (list byte)) (connfd : Z)
    (cache_buf : list byte) (cache_size : Z) :
  cache_calls (Proxy.stream_loop lines connfd cache_buf cache_size).2 = [].
Proof.
  revert cache_buf cache_size.
  induction lines as [|l lines IH]; intros cache_buf cache_size; [done|].
  cbn [Proxy.stream_loop]. cbv zeta.
  destruct (0 <? C.size_wrap (Z.of_nat (length l))); [|done].
  match goal with |- context [if ?c then _ else _] => destruct c end.
  - specialize (IH (cache_buf ++ l)
                  (C.int_wrap (cache_size + C.size_wrap (Z.of_nat (length l))))).
    destruct (Proxy.stream_loop lines connfd _ _) as [[b1 s1] tr1]. done.
  - specialize (IH cache_buf cache_size).
    destruct (Proxy.stream_loop lines connfd _ _) as [[b1 s1] tr1]. done.
Qed.

Lemma sent_app (fd : Z) (tr1 tr2 : list Proxy.event) :
  Proxy.sent fd (tr1 ++ tr2) = Proxy.sent fd tr1 ++ Proxy.sent fd tr2.
Proof.
  induction tr1 as [|ev tr1 IH]; [done|].
  destruct ev; simpl; rewrite ?IH; try done.
  destruct (fd0 =? fd); [by rewrite app_assoc|done].
Qed.

Lemma sent_own (fd : Z) (lines : list (list byte)) :
  Proxy.sent fd (Proxy.send fd <$> lines) = concat lines.
Proof.
  induction lines as [|l lines IH]; [done|].
  rewrite fmap_cons. simpl. by rewrite Z.eqb_refl, IH.
Qed.

Lemma sent_other (fd fd' : Z) (lines : list (list byte)) :
  fd' ≠ fd → Proxy.sent fd (Proxy.send fd' <$> lines) = [].
Proof.
  intros Hne. induction lines as [|l lines IH]; [done|].
  rewrite fmap_cons. simpl. by destruct (Z.eqb_spec fd' fd).
Qed.

(** ** Lengths: what the words and the built request are made of *)

Lemma skip_space_length (s : string) :
  (String.length (C.skip_space s) ≤ String.length s)%nat.
Proof.
  induction s as [|c s IH]; [done|]. cbn [C.skip_space].
  destruct (C.isspace c); simpl; lia.
Qed.

Lemma scan_word_length (s : string) :
  (String.length (Proxy.scan_word s).1 ≤ String.length s)%nat
  ∧ (String.length (Proxy.scan_word s).2 ≤ String.length s)%nat.
Proof.
  induction s as [|c s [IH1 IH2]]; [done|]. cbn [Proxy.scan_word].
  destruct (C.isspace c); [simpl; lia|].
  destruct (Proxy.scan_word s) as [wd rest]. simpl in *. lia.
Qed.

Lemma scan_s_length (s w r : string) :
  Proxy.scan_s s = Some (w, r) →
  (String.length w ≤ String.length s)%nat ∧ (String.length r ≤ String.length s)%nat.
Proof.
  unfold Proxy.scan_s. pose proof (skip_space_length s) as Hs.
  destruct (C.skip_space s) as [|c s'] eqn:Hsk; [done|].
  pose proof (scan_word_length (String c s')) as [H1 H2].
  intros Hw.
  assert (Hw' : Proxy.scan_word (String c s') = (w, r)) by congruence.
  rewrite Hw' in H1, H2. simpl in *. lia.
Qed.

Lemma sscanf3_length (buf method0 uri0 version0 : string) :
  (String.length (Proxy.sscanf3 buf method0 uri0 version0).1.1
   ≤ String.length buf `max` String.length method0)%nat
  ∧ (String.length (Proxy.sscanf3 buf method0 uri0 version0).1.2
     ≤ String.length buf `max` String.length uri0)%nat.
Proof.
  unfold Proxy.sscanf3.
  destruct (Proxy.scan_s buf) as [[method1 r1]|] eqn:H1; [|simpl; lia].
  apply scan_s_length in H1 as [Hm Hr1].
  destruct (Proxy.scan_s r1) as [[uri1 r2]|] eqn:H2; [|simpl; lia].
  apply scan_s_length in H2 as [Hu Hr2].
  destruct (Proxy.scan_s r2) as [[version1 r3]|]; simpl; lia.
Qed.

Lemma drop_length (n : nat) (s : string) :
  (String.length (C.drop n s) ≤ String.length s)%nat.
Proof.
  revert s. induction n as [|n IH]; intros [|c s]; simpl; try lia.
  specialize (IH s). lia.
Qed.

Lemma take_length (n : nat) (s : string) :
  (String.length (C.take n s) ≤ String.length s)%nat.
Proof.
  revert s. induction n as [|n IH]; intros [|c s]; simpl; try lia.
  specialize (IH s). lia.
Qed.

Lemma parse_uri_length (uri : string) :
  (String.length (Proxy.parse_uri uri).1.1 ≤ String.length uri)%nat
  ∧ (String.length (Proxy.parse_uri uri).1.2 ≤ String.length uri `max` 1)%nat.
Proof.
  unfold Proxy.parse_uri, Proxy.pathname_of.
  set (hostbegin := if C.strncasecmp uri "http://" 7 =? 0 then C.drop 7 uri else uri).
  assert (Hb : (String.length hostbegin ≤ String.length uri)%nat).
  { unfold hostbegin. destruct (C.strncasecmp uri "http://" 7 =? 0); [|done].
    apply drop_length. }
  destruct (C.strstr hostbegin ":") as [len|].
  - cbn [fst snd]. pose proof (take_length len hostbegin).
    destruct (C.strstr hostbegin "/") as [off|]; [|simpl; lia].
    pose proof (drop_length off hostbegin). lia.
  - destruct (C.strstr hostbegin "/") as [len|]; cbn [fst snd]; [|simpl; lia].
    pose proof (take_length len hostbegin). pose proof (drop_length len hostbegin). lia.
Qed.

Lemma cat_cons (x : string) (xs : list string) : cat (x :: xs) = x +:+ cat xs.
Proof. done. Qed.

Lemma cat_filter_length (f : string → bool) (hs : list string) :
  (String.length (cat (List.filter f hs)) ≤ String.length (cat hs))%nat.
Proof.
  induction hs as [|h hs IH]; [done|]. cbn [List.filter].
  destruct (f h); rewrite ?cat_cons, ?length_append; lia.
Qed.

Lemma last_filter_length (f : string → bool) (hs : list string) (h : string) :
  list.last (List.filter f hs) = Some h →
  (String.length h ≤ String.length (cat hs))%nat.
Proof.
  intros Hl.
  assert (Hin : h ∈ hs).
  { apply last_Some in Hl as [l' Hl].
    assert (h ∈ List.filter f hs) as Hin by (rewrite Hl; set_solver).
    by apply list_elem_of_In, List.filter_In in Hin as [Hin%list_elem_of_In _]. }
  clear Hl. induction hs as [|x hs IH]; [by apply elem_of_nil in Hin|].
  rewrite cat_cons, length_append.
  apply elem_of_cons in Hin as [->|Hin]; [lia|]. specialize (IH Hin). lia.
Qed.

Lemma client_headers_length (rio : list (list byte)) :
  (String.length (cat (client_headers rio)) ≤ length (concat rio))%nat.
Proof.
  induction rio as [|l rio IH]; [done|]. cbn [client_headers concat].
  rewrite length_app. pose proof (cstring_length l).
  destruct (0 <? Z.of_nat (length l)); [|simpl; lia].
  destruct (C.strcmp (C.cstring l) C.CRLF =? 0); [simpl; lia|].
  rewrite cat_cons, length_append. lia.
Qed.

Lemma built_request_length (rio : list (list byte)) (hostname pathname : string) :
  Z.of_nat (String.length (built_request rio hostname pathname))
  ≤ Z.of_nat (String.length pathname) + Z.of_nat (String.length hostname)
    + 2 * Z.of_nat (length (concat rio)) + 155.
Proof.
  unfold built_request. rewrite !length_append.
  pose proof (cat_filter_length forwarded_hdr (client_headers rio)).
  pose proof (client_headers_length rio).
  assert (Hua : String.length Proxy.user_agent_hdr = 86%nat) by reflexivity.
  rewrite Hua.
  destruct (list.last (List.filter is_host_hdr (client_headers rio))) as [h|] eqn:Hl.
  - apply last_filter_length in Hl. cbn [default]. unfold id. simpl String.length. lia.
  - cbn [default]. rewrite !length_append. simpl String.length. lia.
Qed.

(** A call of [doit] on at most 2000 bytes of input, on a state the cache
    goes through, returns, and its trace records the cache calls it
    made. *)
Lemma doit_returns (nw : Proxy.net) (connfd : Z) (client : list (list byte))
    (buf0 : list byte) (method0 uri0 version0 : string) (m : Cache.mem) :
  input_size client buf0 method0 uri0 ≤ 2000 →
  Cache.reachable m →
  ∃ m1 tr,
    Proxy.doit nw connfd client buf0 method0 uri0 version0 m = Some (m1, tr)
    ∧ Cache.run (cache_calls tr) m = Some m1.
Proof.
  intros Hsmall (Hidle & es & Hr & _)%reachable_repr. unfold Proxy.doit.
  assert (Hbuf : (String.length (C.cstring (Proxy.Rio_readlineb client buf0).1)
                  ≤ length (concat client) + String.length (C.cstring buf0))%nat
                 ∧ (length (concat (Proxy.Rio_readlineb client buf0).2)
                    ≤ length (concat client))%nat
                 ∧ Forall (λ l, Z.of_nat (length l) < MAXLINE)
                     (Proxy.Rio_readlineb client buf0).2).
  { unfold input_size in Hsmall.
    assert (Hall : ∀ rio : list (list byte),
              Z.of_nat (length (concat rio)) ≤ 2000 →
              Forall (λ l, Z.of_nat (length l) < MAXLINE) rio).
    { induction rio as [|l rio IH]; [done|]. cbn [concat]. rewrite length_app.
      intros H. constructor; [unfold MAXLINE; lia|]. apply IH. lia. }
    destruct client as [|l rest]; cbn [Proxy.Rio_readlineb fst snd concat].
    - split_and!; [simpl; lia|done|done].
    - rewrite length_app. pose proof (cstring_length l).
      split_and!; [lia|lia|].
      apply Hall. cbn [concat] in Hsmall. rewrite length_app in Hsmall. lia. }
  destruct (Proxy.Rio_readlineb client buf0) as [buf rio_client].
  cbn [fst snd] in Hbuf. destruct Hbuf as (Hbuf & Hrio & Hlines).
  pose proof (sscanf3_length (C.cstring buf) method0 uri0 version0) as [Hm Hu].
  destruct (Proxy.sscanf3 (C.cstring buf) method0 uri0 version0)
    as [[method uri] version]. cbn [fst snd] in Hm, Hu.
  unfold input_size in Hsmall.
  destruct (negb (C.strcasecmp method "GET" =? 0)).
  { rewrite clienterror_501.
    destruct (Z.leb_spec (Z.of_nat (String.length method)) 8146); [|lia].
    by eexists _, _. }
  pose proof (cache_find_repr uri m es Hidle Hr) as Hfind.
  rewrite Hfind. cbn [mbind option_bind].
  destruct (lookup_key uri es) as [e|] eqn:Hl; cbn [fmap option_fmap option_map].
  { destruct (lookup_key_Some _ _ _ Hl) as (i & Hi & _ & _).
    rewrite (repr_linked _ _ Hr i e Hi). cbn [mbind option_bind].
    eexists _, _. split; [done|]. simpl. by rewrite Hfind. }
  pose proof (parse_uri_length uri) as [Hhost Hpath].
  destruct (Proxy.parse_uri uri) as [[hostname pathname] port]. cbv zeta.
  cbn [fst snd] in Hhost, Hpath.
  destruct (Proxy.Open_clientfd nw hostname (C.sprintf_d port) <? 0).
  { rewrite clienterror_503.
    destruct (Z.leb_spec (Z.of_nat (String.length hostname)) 8164); [|lia].
    cbn [mbind option_bind].
    eexists _, _. split; [done|]. simpl. by rewrite Hfind. }
  pose proof (built_request_length rio_client hostname pathname) as Hreq.
  rewrite (build_requesthdrs_fits rio_client hostname pathname Hlines)
    by (unfold MAXLINE in *; lia).
  cbn [mbind option_bind].
  pose proof (stream_loop_bound
                (Proxy.origin nw (Proxy.Open_clientfd nw hostname (C.sprintf_d port)))
                connfd [] 0 ltac:(unfold MAX_OBJECT_SIZE; lia)) as Hb.
  pose proof (cache_calls_stream_loop
                (Proxy.origin nw (Proxy.Open_clientfd nw hostname (C.sprintf_d port)))
                connfd [] 0) as Hcalls.
  destruct (Proxy.stream_loop _ connfd [] 0) as [[cache_buf cache_size] writes].
  cbn [fst snd] in Hb, Hcalls.
  destruct (Z.leb_spec cache_size MAX_OBJECT_SIZE); [|lia].
  destruct (cache_insert_repr uri cache_buf cache_size m es Hidle Hr Hb)
    as (m1 & a & es1 & es2 & Hi & _).
  rewrite Hi. cbn [mbind option_bind].
  eexists _, _. split; [done|].
  cbn [app cache_calls Cache.run Cache.do_call]. rewrite Hfind.
  cbn [fmap option_fmap option_map snd mbind option_bind].
  rewrite cache_calls_app, Hcalls. simpl. by rewrite Hi.
Qed.

(** ** The paths of [doit] *)

Lemma sent_page (fd : Z) (status : string) (page : list Proxy.event) :
  Proxy.sent fd (Proxy.send fd (C.bytes status) :: page)
  = C.bytes status ++ Proxy.sent fd page.
Proof. simpl. by rewrite Z.eqb_refl. Qed.

(** C7 at a request line of [MAXLINE - 1] bytes whose method has 8170
    bytes: the method is not GET, and [doit] does not return: the sixth
    line of the error page, which holds the method, is longer than the
    array [buf] it is formatted in. *)
Lemma long_method_overruns_error_page :
  Z.of_nat (length (concat long_put)) = MAXLINE - 1
  ∧ Proxy.request_line long_put [] "" "" ""
    = (long_method, "http://x/", "HTTP/1.0")%string
  ∧ C.strcasecmp long_method "GET" ≠ 0
  ∧ Z.of_nat (String.length long_method) = 8170
  ∧ ∀ nw connfd m, Proxy.doit nw connfd long_put [] "" "" "" m = None.
Proof.
  assert (Hline : Proxy.request_line long_put [] "" "" ""
                  = (long_method, "http://x/", "HTTP/1.0")%string)
    by (vm_compute; reflexivity).
  assert (Hget : C.strcasecmp long_method "GET" ≠ 0) by (vm_compute; discriminate).
  assert (Hlen : Z.of_nat (String.length long_method) = 8170)
    by (vm_compute; reflexivity).
  split_and!; [vm_compute; reflexivity|done|done|done|].
  intros nw connfd m. revert Hline. unfold Proxy.request_line, Proxy.doit.
  destruct (Proxy.Rio_readlineb long_put []) as [buf rio_client]. cbn [fst].
  intros ->.
  destruct (Z.eqb_spec (C.strcasecmp long_method "GET") 0) as [?|_]; [done|].
  cbn [negb]. rewrite clienterror_501, Hlen. done.
Qed.

(** X19. When the method on the request line is not GET in any letter case
    and has at most 8146 bytes, [doit] returns with the cache memory
    untouched, what it wrote to the client starts with the 501 status
    line, and it neither probed the cache nor inserted into it nor opened a
    connection. *)
Theorem non_get_gets_501 (nw : Proxy.net) (connfd : Z) (client : list (list byte))
    (buf0 : list byte) (method0 uri0 version0 method uri version : string)
    (m : Cache.mem) :
  Proxy.request_line client buf0 method0 uri0 version0 = (method, uri, version) →
  C.strcasecmp method "GET" ≠ 0 →
  Z.of_nat (String.length method) ≤ 8146 →
  ∃ tr rest,
    Proxy.doit nw connfd client buf0 method0 uri0 version0 m = Some (m, tr)
    ∧ Proxy.sent connfd tr
      = C.bytes ("HTTP/1.0 501 Not Implemented" +:+ C.CRLF) ++ rest
    ∧ Forall (λ ev, Proxy.is_probe ev = false ∧ Proxy.is_admission ev = false
                    ∧ Proxy.is_connect ev = false) tr.
Proof.
  unfold Proxy.request_line, Proxy.doit. intros Hline Hget Hlen.
  destruct (Proxy.Rio_readlineb client buf0) as [buf rio_client]. simpl in Hline.
  rewrite Hline.
  destruct (Z.eqb_spec (C.strcasecmp method "GET") 0) as [?|_]; [done|]. cbn [negb].
  rewrite clienterror_501.
  destruct (Z.leb_spec (Z.of_nat (String.length method)) 8146); [|lia].
  cbn [mbind option_bind].
  eexists _, _. split; [reflexivity|]. split; [apply sent_page|].
  repeat constructor.
Qed.

(** X12. While a uri is live, requests for it are answered from the cache
    alone: each GET for the uri, however many are handled one after the
    other on whatever descriptors, probes the cache and writes the content
    of the first live entry with that uri to its client; no connection is
    opened, nothing is inserted, and the cache memory stays as it is (a
    hit does not move the entry on the list). *)
Theorem cached_uri_is_replayed (uri : string) (data : list byte)
    (m : Cache.mem) (ks : list Proxy.conn) :
  Cache.reachable m →
  cached uri m = Some data →
  Forall (Proxy.gets uri) ks →
  Proxy.serve ks m
  = Some (m, (λ k, [Proxy.cache_probe uri; Proxy.send (Proxy.conn_fd k) data])
               <$> ks).
Proof.
  intros Hreach Hc Hks. induction Hks as [|k ks (method & version & Hline & Hget) _ IH].
  - done.
  - simpl. unfold Proxy.handle.
    rewrite (doit_cached _ _ _ _ _ _ _ method uri version m data Hreach Hline Hget Hc).
    simpl. by rewrite IH.
Qed.

(** X13. A GET for a uri that is not live, whose origin connection does
    not open ([Open_clientfd] negative) and whose host name has at most
    8164 bytes: the client gets the page that starts with the 503 status
    line, nothing is written to any other descriptor, nothing is inserted
    into the cache and the cache memory stays as it is. *)
Theorem unreachable_origin_gets_503 (nw : Proxy.net) (connfd : Z)
    (client : list (list byte)) (buf0 : list byte)
    (method0 uri0 version0 method uri version : string) (m : Cache.mem) :
  Cache.reachable m →
  Proxy.request_line client buf0 method0 uri0 version0 = (method, uri, version) →
  C.strcasecmp method "GET" = 0 →
  cached uri m = None →
  Proxy.upstream nw uri < 0 →
  Z.of_nat (String.length (Proxy.parse_uri uri).1.1) ≤ 8164 →
  ∃ tr rest,
    Proxy.doit nw connfd client buf0 method0 uri0 version0 m = Some (m, tr)
    ∧ Proxy.sent connfd tr
      = C.bytes ("HTTP/1.0 503 Service Unavailable" +:+ C.CRLF) ++ rest
    ∧ (∀ fd, fd ≠ connfd → Proxy.sent fd tr = [])
    ∧ Forall (λ ev, Proxy.is_admission ev = false) tr.
Proof.
  intros Hreach Hline Hget Hc Hfd Hlen.
  pose proof (cached_None_find uri m Hreach Hc) as Hfind.
  revert Hline Hfd Hlen. unfold Proxy.request_line, Proxy.upstream, Proxy.doit.
  destruct (Proxy.Rio_readlineb client buf0) as [buf rio_client]. cbn [fst].
  intros ->. rewrite Hget, Hfind. cbn [Z.eqb negb mbind option_bind].
  destruct (Proxy.parse_uri uri) as [[hostname pathname] port]. cbv zeta.
  cbn [fst]. intros Hfd Hlen.
  destruct (Z.ltb_spec (Proxy.Open_clientfd nw hostname (C.sprintf_d port)) 0);
    [|lia].
  rewrite clienterror_503.
  destruct (Z.leb_spec (Z.of_nat (String.length hostname)) 8164); [|lia].
  cbn [mbind option_bind].
  eexists _, _. split_and!; [done|apply sent_page| |].
  - intros fd Hne. simpl. destruct (Z.eqb_spec connfd fd); [congruence|done].
  - repeat constructor.
Qed.

(** X14. A GET for a uri that is not live, whose origin connection opens
    on [fd], whose request for the origin fits in [newreq], and whose
    origin sends [lines]: [doit] probes the cache, connects, writes the
    request it built from the client's headers to [fd], writes every line
    of the response to the client in order, inserts under the uri the lines
    that fit in [MAX_OBJECT_SIZE] one after the other ([staged]: the whole
    response when it is of at most [MAX_OBJECT_SIZE] bytes) and closes
    [fd]. After it the uri is live with these bytes as its content. *)
Theorem miss_forwards_and_caches (nw : Proxy.net) (connfd fd : Z)
    (client : list (list byte)) (buf0 : list byte)
    (method0 uri0 version0 method uri version hostname pathname newreq : string)
    (port : Z) (rio1 : list (list byte)) (m : Cache.mem) :
  Cache.reachable m →
  Proxy.request_line client buf0 method0 uri0 version0 = (method, uri, version) →
  C.strcasecmp method "GET" = 0 →
  cached uri m = None →
  Proxy.parse_uri uri = (hostname, pathname, port) →
  Proxy.Open_clientfd nw hostname (C.sprintf_d port) = fd →
  0 ≤ fd →
  Proxy.build_requesthdrs (tail client) hostname pathname = Some (newreq, rio1) →
  Forall (λ l, 0 < Z.of_nat (length l) < MAXLINE) (Proxy.origin nw fd) →
  let lines := Proxy.origin nw fd in
  let object := staged lines 0 in
  ∃ m1,
    Proxy.doit nw connfd client buf0 method0 uri0 version0 m
    = Some (m1,
            [Proxy.cache_probe uri;
             Proxy.connect hostname (C.sprintf_d port) fd;
             Proxy.send fd (C.bytes newreq)]
              ++ (Proxy.send connfd <$> lines)
              ++ [Proxy.cache_admission uri object (Z.of_nat (length object));
                  Proxy.close fd])
    ∧ Cache.reachable m1
    ∧ cached uri m1 = Some object
    ∧ (Z.of_nat (length (concat lines)) ≤ MAX_OBJECT_SIZE → object = concat lines).
Proof.
  intros Hreach Hline Hget Hc Hparse Hopen Hfd Hreq Hlines lines object.
  pose proof (cached_None_find uri m Hreach Hc) as Hfind.
  destruct (reachable_repr m Hreach) as (Hidle & es & Hr & _).
  pose proof (staged_length lines 0 ltac:(unfold MAX_OBJECT_SIZE; lia)) as Hlen.
  fold object in Hlen.
  destruct (insert_find_repr uri object (Z.of_nat (length object)) m es Hidle Hr
              ltac:(lia))
    as (m1 & a & es1 & es2 & Hi & _ & Hr1 & _).
  exists m1. split_and!.
  - revert Hline Hreq. unfold Proxy.request_line, Proxy.doit.
    replace (tail client) with (Proxy.Rio_readlineb client buf0).2
      by (by destruct client).
    destruct (Proxy.Rio_readlineb client buf0) as [buf rio_client]. cbn [fst snd].
    intros -> Hreq. rewrite Hget, Hfind. cbn [Z.eqb negb mbind option_bind].
    rewrite Hparse. cbv zeta. rewrite Hopen.
    destruct (Z.ltb_spec fd 0); [lia|].
    rewrite Hreq. cbn [mbind option_bind].
    rewrite stream_loop_staged by (done || unfold MAX_OBJECT_SIZE; lia).
    fold lines. fold object. rewrite app_nil_l, Z.add_0_l.
    destruct (Z.leb_spec (Z.of_nat (length object)) MAX_OBJECT_SIZE); [|lia].
    rewrite Hi. cbn [mbind option_bind fst]. done.
  - apply (reachable_run [Cache.Insert uri object (Z.of_nat (length object))] m);
      [done|]. simpl. by rewrite Hi.
  - rewrite (cached_repr uri m1 _ Hr1). cbn [lookup_key key].
    rewrite decide_True by done. simpl. unfold Cache.memcpy.
    by rewrite Nat2Z.id, firstn_all.
  - intros H. apply staged_fits. lia.
Qed.

(** X15. Connections handled one after the other on a state the cache
    goes through, each with at most 2000 bytes of input (what its client
    sends and what the arrays [buf], [method] and [uri] hold on entry):
    every call of [doit] returns, whatever the origins send (no array is
    overrun, no step waits on a semaphore that is taken, dereferences a
    pointer that is not a block, or has an allocation of a negative size);
    there is one trace per connection; the cache calls the traces record,
    run on the first memory, give the last one, which is again a state the
    cache goes through. *)
Theorem serve_never_faults (ks : list Proxy.conn) (m : Cache.mem) :
  Forall small ks →
  Cache.reachable m →
  ∃ m1 trs,
    Proxy.serve ks m = Some (m1, trs)
    ∧ length trs = length ks
    ∧ Cache.run (cache_calls (concat trs)) m = Some m1
    ∧ Cache.reachable m1.
Proof.
  intros Hks. revert m. induction Hks as [|k ks Hk _ IH]; intros m Hreach.
  - by exists m, [].
  - destruct (doit_returns (Proxy.conn_net k) (Proxy.conn_fd k) (Proxy.conn_client k)
                (Proxy.conn_buf0 k)
                (Proxy.conn_method0 k) (Proxy.conn_uri0 k) (Proxy.conn_version0 k)
                m Hk Hreach) as (m1 & tr & Hdoit & Hrun).
    pose proof (reachable_run _ _ _ Hreach Hrun) as Hreach1.
    destruct (IH m1 Hreach1) as (m2 & trs & Hserve & Hlen & Hrun2 & Hreach2).
    exists m2, (tr :: trs). simpl. unfold Proxy.handle.
    rewrite Hdoit. simpl. rewrite Hserve. simpl.
    split_and!; [done|by rewrite Hlen| |done].
    by rewrite cache_calls_app, run_app, Hrun.
Qed.



End handler_extras.

(** ** The accept loop and the workers *)

Section pipeline_extras.

Lemma proxy_run_holds (ts : list turn) (sp : Sbuf.sbuf_t) (q : list Z)
    (m : Cache.mem) :
  holds sp q → Sbuf.rear sp + Z.of_nat (length ts) ≤ C.INT_MAX →
  Forall small_turn ts →
  Cache.reachable m →
  match queue_run (Sbuf.n sp) (op_of <$> ts) q with
  | None => proxy_run ts sp m = None
  | Some (fds, waiting) =>
      ∃ sp1 m1 trs,
        proxy_run ts sp m
        = Some (sp1, m1, zip_with (λ tr fd, tr ++ [Proxy.close fd]) trs fds)
        ∧ holds sp1 waiting
        ∧ Proxy.serve (conns_of ts fds) m = Some (m1, trs)
        ∧ Cache.reachable m1
  end.
Proof.
  revert sp q m.
  induction ts as [|[x|nw client buf0 method0 uri0 version0] ts IH];
    intros sp q m Hq Hmax Hts Hreach; cbn [fmap list_fmap op_of queue_run proxy_run].
  - exists sp, m, []. by split_and!.
  - cbn [length] in Hmax.
    destruct (Z.ltb_spec (Z.of_nat (length q)) (Sbuf.n sp)) as [Hlt|Hge].
    + destruct (sbuf_insert_holds sp q x Hq) as (sp1 & -> & Hq1 & Hf1 & Hn1);
        [lia|lia|].
      cbn [mbind option_bind]. rewrite <- Hn1.
      apply IH; [done| |by apply Forall_cons in Hts as [_ ?]|done].
      destruct Hq, Hq1. rewrite length_app in *. simpl in *. lia.
    + destruct Hq as [_ _ _ _ _ _ Hsl _]. unfold Sbuf.sbuf_insert.
      by rewrite (P_zero (Sbuf.slots sp)) by lia.
  - cbn [length] in Hmax. unfold thread_turn.
    destruct q as [|x q].
    + destruct Hq as [_ _ _ _ _ Hit _ _]. unfold Sbuf.sbuf_remove.
      by rewrite (P_zero (Sbuf.items sp)) by (simpl in Hit; lia).
    + destruct (sbuf_remove_holds sp q x Hq) as (sp1 & Hrem & Hq1 & Hf1).
      { destruct Hq. simpl in *. lia. }
      rewrite Hrem. cbn [mbind option_bind].
      apply Forall_cons in Hts as [Ht Hts].
      destruct (doit_returns nw x client buf0 method0 uri0 version0 m Ht Hreach)
        as (m1 & tr & Hdoit & Hrun).
      rewrite Hdoit. cbn [mbind option_bind].
      pose proof (reachable_run _ _ _ Hreach Hrun) as Hreach1.
      rewrite <- (sbuf_remove_n sp sp1 x Hrem).
      assert (Hmax1 : Sbuf.rear sp1 + Z.of_nat (length ts) ≤ C.INT_MAX).
      { destruct Hq, Hq1. simpl in *. lia. }
      specialize (IH sp1 q m1 Hq1 Hmax1 Hts Hreach1).
      destruct (queue_run (Sbuf.n sp1) (op_of <$> ts) q) as [[fds waiting]|].
      * destruct IH as (sp2 & m2 & trs & -> & Hq2 & Hserve & Hreach2).
        cbn [mbind option_bind]. exists sp2, m2, (tr :: trs).
        split_and!; try done.
        cbn [conns_of Proxy.serve]. unfold Proxy.handle.
        cbn [Proxy.conn_net Proxy.conn_fd Proxy.conn_client Proxy.conn_buf0
             Proxy.conn_method0 Proxy.conn_uri0 Proxy.conn_version0].
        rewrite Hdoit. cbn [mbind option_bind]. by rewrite Hserve.
      * by rewrite IH.
Qed.

(** X16. The proxy as [main] sets it up, [cache_init] and
    [sbuf_init(&sbuf, SBUFSIZE)], with rounds of the accept loop and of the
    workers done one after the other in any order, each worker round with
    at most 2000 bytes of input (what the client sends and what the arrays
    [buf], [method] and [uri] of [doit] hold on entry). A round waits only
    where the queue discipline says so: an accept when [SBUFSIZE]
    descriptors are waiting, a worker when none is. Otherwise every round
    returns; the workers handle the accepted descriptors in the order of
    their acceptance, each [doit] sees the cache as the [doit] calls before
    it left it, and each descriptor is closed at the end of its round. *)
Theorem accepted_descriptors_served_in_order (ts : list turn) :
  Z.of_nat (length ts) ≤ C.INT_MAX →
  Forall small_turn ts →
  match queue_run SBUFSIZE (op_of <$> ts) [] with
  | None =>
      proxy_run ts (Sbuf.sbuf_init SBUFSIZE) (Cache.cache_init Cache.boot) = None
  | Some (fds, waiting) =>
      ∃ sp m trs,
        proxy_run ts (Sbuf.sbuf_init SBUFSIZE) (Cache.cache_init Cache.boot)
        = Some (sp, m, zip_with (λ tr fd, tr ++ [Proxy.close fd]) trs fds)
        ∧ holds sp waiting
        ∧ Proxy.serve (conns_of ts fds) (Cache.cache_init Cache.boot) = Some (m, trs)
        ∧ Cache.reachable m
  end.
Proof.
  intros Hts Hsmall.
  apply (proxy_run_holds ts (Sbuf.sbuf_init SBUFSIZE) []).
  - by apply sbuf_init_holds.
  - simpl. lia.
  - done.
  - by exists [].
Qed.

End pipeline_extras.

(** ** Locks and descriptors *)

Section lock_extras.

(** X17. The readers-writer protocol of the cache, read off a memory in
    which the writer semaphore is taken. While a writer is inside (no
    reader counted), [cache_find] waits, and so does a [cache_insert] that
    is not refused for its size. While readers are inside, one more
    [cache_find] gets in, searches the list and leaves the memory as it
    found it, the semaphore still taken; a [cache_insert] waits. *)
Theorem readers_share_writer_excludes (m : Cache.mem) (es : list entry)
    (u : string) (B : list byte) (n : Z) :
  repr m es →
  Cache.mutex (Cache.cache m) = 1 →
  Cache.w (Cache.cache m) = 0 →
  0 ≤ Cache.readcnt (Cache.cache m) < C.INT_MAX →
  (n ≤ MAX_OBJECT_SIZE → Cache.cache_insert u B n m = None)
  ∧ (Cache.readcnt (Cache.cache m) = 0 → Cache.cache_find u m = None)
  ∧ (0 < Cache.readcnt (Cache.cache m) →
     Cache.cache_find u m = Some (addr <$> lookup_key u es, m)).
Proof.
  intros [Hnd Hl Hh _ _ _ _] Hmx Hw Hrc. split_and!.
  - intros Hn. unfold Cache.cache_insert.
    destruct (Z.gtb_spec n MAX_OBJECT_SIZE); [lia|].
    cbv zeta. by rewrite Hw.
  - intros H0. unfold Cache.cache_find. cbv zeta. by rewrite Hmx, Hw, H0.
  - intros Hpos. pose proof (linked_length _ _ Hnd Hl) as Hlen.
    unfold Cache.cache_find. cbv zeta.
    rewrite Hh, (find_loop_linked (Cache.heap m) es u O) by (try done; lia).
    rewrite Hmx. cbn [C.P Z.ltb Z.compare mbind option_bind Z.sub Z.add Z.opp Z.pos_sub].
    rewrite (int_wrap_id (Cache.readcnt (Cache.cache m) + 1))
      by (unfold C.INT_MIN, C.INT_MAX in *; lia).
    destruct (Z.eqb_spec (Cache.readcnt (Cache.cache m) + 1) 1); [lia|].
    cbn [mbind option_bind]. unfold C.V. cbn [Z.add Z.ltb Z.compare C.P].
    cbn [mbind option_bind].
    replace (Cache.readcnt (Cache.cache m) + 1 - 1)
      with (Cache.readcnt (Cache.cache m)) by lia.
    rewrite int_wrap_id by (unfold C.INT_MIN, C.INT_MAX in *; lia).
    destruct (Z.eqb_spec (Cache.readcnt (Cache.cache m)) 0); [lia|].
    rewrite drop_0.
    destruct m as [h [hd tl cur mx wr rc]]. simpl in *. by subst.
Qed.

Lemma opened_app (tr1 tr2 : list Proxy.event) :
  opened (tr1 ++ tr2) = opened tr1 ++ opened tr2.
Proof.
  induction tr1 as [|[] tr1 IH]; simpl; rewrite ?IH; try done.
  by destruct (fd <? 0).
Qed.

Lemma closed_app (tr1 tr2 : list Proxy.event) :
  closed (tr1 ++ tr2) = closed tr1 ++ closed tr2.
Proof.
  induction tr1 as [|[] tr1 IH]; simpl; by rewrite ?IH.
Qed.

Lemma stream_loop_sends (lines : list (list byte)) (connfd : Z)
    (cache_buf : list byte) (cache_size : Z) :
  opened (Proxy.stream_loop lines connfd cache_buf cache_size).2 = []
  ∧ closed (Proxy.stream_loop lines connfd cache_buf cache_size).2 = [].
Proof.
  revert cache_buf cache_size.
  induction lines as [|l lines IH]; intros cache_buf cache_size; [done|].
  cbn [Proxy.stream_loop]. cbv zeta.
  destruct (0 <? C.size_wrap (Z.of_nat (length l))); [|done].
  match goal with |- context [if ?c then _ else _] => destruct c end.
  - specialize (IH (cache_buf ++ l)
                  (C.int_wrap (cache_size + C.size_wrap (Z.of_nat (length l))))).
    destruct (Proxy.stream_loop lines connfd _ _) as [[b1 s1] tr1]. done.
  - specialize (IH cache_buf cache_size).
    destruct (Proxy.stream_loop lines connfd _ _) as [[b1 s1] tr1]. done.
Qed.

Lemma clienterror_sends (fd : Z) (cause errnum shortmsg longmsg : string)
    (page : list Proxy.event) :
  Proxy.clienterror fd cause errnum shortmsg longmsg = Some page →
  opened page = [] ∧ closed page = [].
Proof.
  unfold Proxy.clienterror, C.sprintf.
  repeat (match goal with
          | |- context [C.strcpy MAXLINE ?s] =>
              destruct (C.strcpy MAXLINE s); [cbn [mbind option_bind]|done]
          end).
  by intros [= <-].
Qed.

(** X18. A call of [doit] that returns has closed the connection to the
    origin if it opened one, and has closed no other descriptor: not the
    one of its client, which is left to [thread]. It opens at most one
    connection. *)
Theorem doit_closes_what_it_opens (nw : Proxy.net) (connfd : Z)
    (client : list (list byte)) (buf0 : list byte) (method0 uri0 version0 : string)
    (m m1 : Cache.mem) (tr : list Proxy.event) :
  Proxy.doit nw connfd client buf0 method0 uri0 version0 m = Some (m1, tr) →
  closed tr = opened tr ∧ (length (opened tr) ≤ 1)%nat.
Proof.
  unfold Proxy.doit.
  destruct (Proxy.Rio_readlineb client buf0) as [buf rio_client].
  destruct (Proxy.sscanf3 (C.cstring buf) method0 uri0 version0)
    as [[method uri] version].
  destruct (negb (C.strcasecmp method "GET" =? 0)).
  { destruct (Proxy.clienterror connfd method "501" "Not Implemented" _)
      as [page|] eqn:Hpage; [|done].
    apply clienterror_sends in Hpage as [Ho Hc].
    cbn [mbind option_bind]. intros [= _ <-]. rewrite Ho, Hc. split; [done|simpl; lia]. }
  destruct (Cache.cache_find uri m) as [[cached0 m0]|]; [|done].
  cbn [mbind option_bind].
  destruct cached0 as [a|].
  { destruct (Cache.heap m0 !! a); [|done]. intros [= _ <-]. simpl.
    split; [done|lia]. }
  destruct (Proxy.parse_uri uri) as [[hostname pathname] port]. cbv zeta.
  destruct (Proxy.Open_clientfd nw hostname (C.sprintf_d port) <? 0) eqn:Hfd.
  { destruct (Proxy.clienterror connfd hostname "503" "Service Unavailable" _)
      as [page|] eqn:Hpage; [|done].
    apply clienterror_sends in Hpage as [Ho Hc].
    cbn [mbind option_bind]. intros [= _ <-].
    cbn [app opened closed]. rewrite Hfd, Ho, Hc. split; [done|simpl; lia]. }
  destruct (Proxy.build_requesthdrs rio_client hostname pathname)
    as [[newreq rio1]|]; [|done].
  cbn [mbind option_bind].
  pose proof (stream_loop_sends
                (Proxy.origin nw (Proxy.Open_clientfd nw hostname (C.sprintf_d port)))
                connfd [] 0) as [Ho Hc].
  destruct (Proxy.stream_loop _ connfd [] 0) as [[cache_buf cache_size] writes].
  cbn [snd] in Ho, Hc.
  destruct (if cache_size <=? MAX_OBJECT_SIZE
            then Cache.cache_insert uri cache_buf cache_size m0
            else Some m0) as [m2|]; [|done].
  cbn [mbind option_bind]. intros [= _ <-].
  cbn [app opened closed]. rewrite Hfd.
  rewrite !opened_app, !closed_app, Ho, Hc.
  destruct (cache_size <=? MAX_OBJECT_SIZE); simpl; (split; [done|lia]).
Qed.

End lock_extras.

(** ** The properties at sample inputs *)

Lemma cache_find_first_match_witness :
  Cache.reachable (after two_inserts)
  ∧ ∃ a b, Cache.cache_find "a" (after two_inserts) = Some (Some a, after two_inserts)
      ∧ live_addrs (after two_inserts) !! 1%nat = Some a
      ∧ Cache.heap (after two_inserts) !! a = Some b
      ∧ Cache.uri b = "a"%string.
Proof.
  assert (Hreach : Cache.reachable (after two_inserts))
    by (exists two_inserts; vm_compute; reflexivity).
  split; [exact Hreach|].
  destruct (cache_find_first_match "a" (after two_inserts) Hreach) as [r [Hfind Hr]].
  destruct r as [a|].
  - destruct Hr as (i & b & Hi & Hb & Hh & Hu & Hfirst).
    exists a, b. split; [exact Hfind|]. split; [|split; [exact Hh|exact Hu]].
    destruct i as [|[|i]].
    + exfalso. vm_compute in Hb. injection Hb as <-. vm_compute in Hu. discriminate Hu.
    + exact Hi.
    + exfalso. vm_compute in Hb. discriminate Hb.
  - exfalso. apply Hr. vm_compute. apply list_elem_of_further, list_elem_of_here.
Defined.

Lemma cache_insert_evicts_oldest_witness :
  Cache.reachable (after two_inserts)
  ∧ 0 ≤ 1 ≤ MAX_OBJECT_SIZE
  ∧ ∃ m1, Cache.cache_insert "c" [x64] 1 (after two_inserts) = Some m1
      ∧ payloads m1 = ("c"%string, [x64], 1) :: payloads (after two_inserts).
Proof.
  assert (Hreach : Cache.reachable (after two_inserts))
    by (exists two_inserts; vm_compute; reflexivity).
  assert (Hn : 0 ≤ 1 ≤ MAX_OBJECT_SIZE) by (unfold MAX_OBJECT_SIZE; lia).
  split; [exact Hreach|]. split; [exact Hn|].
  destruct (cache_insert_evicts_oldest (after two_inserts) "c" [x64] 1 Hreach Hn)
    as (m1 & k & Hi & _ & _ & _ & _ & Hall).
  exists m1. split; [exact Hi|]. apply Hall. vm_compute. discriminate.
Defined.

Lemma live_entries_are_latest_admissions_witness :
  Cache.run two_inserts (Cache.cache_init Cache.boot) = Some (after two_inserts)
  ∧ ∃ k, payloads (after two_inserts) = take k (rev (admissions two_inserts)).
Proof.
  assert (Hrun : Cache.run two_inserts (Cache.cache_init Cache.boot)
                 = Some (after two_inserts)) by (vm_compute; reflexivity).
  split; [exact Hrun|].
  exact (live_entries_are_latest_admissions two_inserts (after two_inserts) Hrun).
Defined.

Lemma cache_is_a_doubly_linked_list_witness :
  Cache.reachable (after two_inserts)
  ∧ NoDup (live_addrs (after two_inserts))
  ∧ Cache.head (Cache.cache (after two_inserts)) = live_addrs (after two_inserts) !! O
  ∧ Cache.tail (Cache.cache (after two_inserts))
    = list.last (live_addrs (after two_inserts))
  ∧ dom (Cache.heap (after two_inserts)) = list_to_set (live_addrs (after two_inserts)).
Proof.
  assert (Hreach : Cache.reachable (after two_inserts))
    by (exists two_inserts; vm_compute; reflexivity).
  split; [exact Hreach|].
  destruct (cache_is_a_doubly_linked_list (after two_inserts) Hreach)
    as (Hnd & Hh & Ht & Hdom & _).
  split; [exact Hnd|]. split; [exact Hh|]. split; [exact Ht|exact Hdom].
Defined.

Lemma cache_entries_bounded_locks_free_witness :
  Cache.reachable (after two_inserts)
  ∧ Cache.mutex (Cache.cache (after two_inserts)) = 1
  ∧ Cache.w (Cache.cache (after two_inserts)) = 1
  ∧ Cache.readcnt (Cache.cache (after two_inserts)) = 0
  ∧ Forall (λ b, 0 ≤ Cache.content_size b ≤ MAX_OBJECT_SIZE
                 ∧ Z.of_nat (length (Cache.content b)) ≤ Cache.content_size b)
      (Cache.live (after two_inserts)).
Proof.
  assert (Hreach : Cache.reachable (after two_inserts))
    by (exists two_inserts; vm_compute; reflexivity).
  split; [exact Hreach|].
  exact (cache_entries_bounded_locks_free (after two_inserts) Hreach).
Defined.

Lemma sbuf_is_bounded_fifo_witness :
  0 < 2
  ∧ Z.of_nat (length [Put 3; Put 4; Get; Put 5; Get; Get]) ≤ C.INT_MAX
  ∧ fst <$> sbuf_run [Put 3; Put 4; Get; Put 5; Get; Get] (Sbuf.sbuf_init 2)
    = fst <$> queue_run 2 [Put 3; Put 4; Get; Put 5; Get; Get] [].
Proof.
  assert (Hn : 0 < 2) by lia.
  assert (Hlen : Z.of_nat (length [Put 3; Put 4; Get; Put 5; Get; Get]) ≤ C.INT_MAX)
    by (unfold C.INT_MAX; simpl; lia).
  split; [exact Hn|]. split; [exact Hlen|].
  exact (sbuf_is_bounded_fifo 2 [Put 3; Put 4; Get; Put 5; Get; Get] Hn Hlen).
Defined.

Lemma parse_uri_round_trip_witness :
  C.strstr "host.example" ":" = None
  ∧ C.strstr "host.example" "/" = None
  ∧ Proxy.parse_uri (absolute_uri "host.example" (Some 8080) "/a/b")
    = ("host.example", "/a/b", 8080)%string.
Proof.
  assert (H1 : C.strstr "host.example" ":" = None) by reflexivity.
  assert (H2 : C.strstr "host.example" "/" = None) by reflexivity.
  assert (H3 : "/a/b"%string = EmptyString ∨ ∃ p, "/a/b"%string = String "/" p)
    by (right; exists "a/b"%string; reflexivity).
  assert (Hint : ∀ p, Some 8080 = Some p → C.INT_MIN ≤ p ≤ C.INT_MAX).
  { intros p Hp. injection Hp as <-. unfold C.INT_MIN, C.INT_MAX. lia. }
  assert (H4 : Some 8080 = None → C.strstr "/a/b" ":" = None)
    by (intros H; discriminate H).
  split; [exact H1|]. split; [exact H2|].
  exact (parse_uri_round_trip "host.example" "/a/b" (Some 8080) H1 H2 H3 Hint H4).
Defined.

Lemma request_line_words_witness :
  plain "get" = true ∧ plain "http://h/x" = true ∧ plain "HTTP/1.0" = true
  ∧ blank " " = true ∧ ends_word C.CRLF = true
  ∧ Proxy.request_line
      [C.bytes ("" +:+ "get" +:+ " " +:+ "http://h/x" +:+ " " +:+ "HTTP/1.0" +:+ C.CRLF)]
      [] "" "" ""
    = ("get", "http://h/x", "HTTP/1.0")%string.
Proof.
  assert (Hm : plain "get" = true) by reflexivity.
  assert (Hu : plain "http://h/x" = true) by reflexivity.
  assert (Hv : plain "HTTP/1.0" = true) by reflexivity.
  assert (Hsp : blank " " = true) by reflexivity.
  assert (Ht : ends_word C.CRLF = true) by reflexivity.
  split; [exact Hm|]. split; [exact Hu|]. split; [exact Hv|].
  split; [exact Hsp|]. split; [exact Ht|].
  refine (request_line_words "" "get" " " "http://h/x" " " "HTTP/1.0" C.CRLF []
            [] "" "" "" Hm _ Hu _ Hv _ eq_refl Hsp _ Hsp _ Ht);
    intros H; discriminate H.
Defined.

Lemma short_request_line_keeps_arrays_witness :
  plain "GET" = true ∧ plain "/x" = true ∧ blank " " = true ∧ blank C.CRLF = true
  ∧ Proxy.request_line [C.bytes (" " +:+ C.CRLF)] [] "PUT" "http://old/" "v"
    = ("PUT", "http://old/", "v")%string
  ∧ Proxy.request_line [C.bytes (" " +:+ "GET" +:+ C.CRLF)] [] "PUT" "http://old/" "v"
    = ("GET", "http://old/", "v")%string
  ∧ Proxy.request_line [C.bytes (" " +:+ "GET" +:+ " " +:+ "/x" +:+ C.CRLF)]
      [] "PUT" "http://old/" "v"
    = ("GET", "/x", "v")%string.
Proof.
  assert (Hm : plain "GET" = true) by reflexivity.
  assert (Hu : plain "/x" = true) by reflexivity.
  assert (Hsp : blank " " = true) by reflexivity.
  assert (Hnl : blank C.CRLF = true) by reflexivity.
  split; [exact Hm|]. split; [exact Hu|]. split; [exact Hsp|]. split; [exact Hnl|].
  assert (Hmne : "GET"%string ≠ EmptyString) by (intros H; discriminate H).
  assert (Hune : "/x"%string ≠ EmptyString) by (intros H; discriminate H).
  assert (Hspne : " "%string ≠ EmptyString) by (intros H; discriminate H).
  destruct (short_request_line_keeps_arrays " " "GET" " " "/x" C.CRLF []
              [] "PUT" "http://old/" "v" Hm Hmne Hu Hune Hsp Hsp Hspne Hnl)
    as (_ & H2 & H3).
  destruct (short_request_line_keeps_arrays (" " +:+ C.CRLF) "GET" " " "/x" C.CRLF []
              [] "PUT" "http://old/" "v" Hm Hmne Hu Hune eq_refl Hsp Hspne Hnl)
    as (H1 & _ & _).
  split; [exact H1|]. split; [exact H2|exact H3].
Defined.

Lemma build_requesthdrs_spec_witness :
  Forall (λ l, Z.of_nat (length l) < MAXLINE) sample_headers
  ∧ Proxy.build_requesthdrs sample_headers "origin.test" "/x"
    = Some ("GET /x HTTP/1.0" +:+ C.CRLF
              +:+ "Accept: */*" +:+ C.CRLF
              +:+ "Host: h.example" +:+ C.CRLF
              +:+ Proxy.user_agent_hdr
              +:+ "Connection: close" +:+ C.CRLF
              +:+ "Proxy-Connection: close" +:+ C.CRLF +:+ C.CRLF,
            [C.bytes ("body" +:+ C.CRLF)]).
Proof.
  assert (Hl : Forall (λ l, Z.of_nat (length l) < MAXLINE) sample_headers).
  { repeat constructor; vm_compute; reflexivity. }
  split; [exact Hl|].
  exact (build_requesthdrs_spec sample_headers "origin.test" "/x" Hl).
Defined.

Lemma cached_uri_is_replayed_witness :
  Cache.reachable (after x_cached)
  ∧ cached "http://origin.test/x" (after x_cached) = Some [x68; x69]
  ∧ Proxy.serve [Proxy.Conn down_net 4 get_x [] "" "" "";
                 Proxy.Conn down_net 6 get_x [] "" "" ""] (after x_cached)
    = Some (after x_cached,
            [[Proxy.cache_probe "http://origin.test/x"; Proxy.send 4 [x68; x69]];
             [Proxy.cache_probe "http://origin.test/x"; Proxy.send 6 [x68; x69]]]).
Proof.
  assert (Hreach : Cache.reachable (after x_cached))
    by (exists x_cached; vm_compute; reflexivity).
  assert (Hc : cached "http://origin.test/x" (after x_cached) = Some [x68; x69])
    by (vm_compute; reflexivity).
  split; [exact Hreach|]. split; [exact Hc|].
  apply (cached_uri_is_replayed "http://origin.test/x" [x68; x69] (after x_cached)
           [Proxy.Conn down_net 4 get_x [] "" "" "";
            Proxy.Conn down_net 6 get_x [] "" "" ""]
           Hreach Hc).
  repeat constructor; exists "GET"%string, "HTTP/1.0"%string; split; reflexivity.
Defined.

Lemma unreachable_origin_gets_503_witness :
  Proxy.request_line get_x [] "" "" ""
  = ("GET", "http://origin.test/x", "HTTP/1.0")%string
  ∧ cached "http://origin.test/x" (Cache.cache_init Cache.boot) = None
  ∧ Proxy.upstream down_net "http://origin.test/x" < 0
  ∧ Z.of_nat (String.length (Proxy.parse_uri "http://origin.test/x").1.1) ≤ 8164
  ∧ ∃ tr rest,
      Proxy.doit down_net 4 get_x [] "" "" "" (Cache.cache_init Cache.boot)
      = Some (Cache.cache_init Cache.boot, tr)
      ∧ Proxy.sent 4 tr
        = C.bytes ("HTTP/1.0 503 Service Unavailable" +:+ C.CRLF) ++ rest.
Proof.
  assert (Hreach : Cache.reachable (Cache.cache_init Cache.boot))
    by (exists []; reflexivity).
  assert (Hline : Proxy.request_line get_x [] "" "" ""
                  = ("GET", "http://origin.test/x", "HTTP/1.0")%string) by reflexivity.
  assert (Hget : C.strcasecmp "GET" "GET" = 0) by reflexivity.
  assert (Hc : cached "http://origin.test/x" (Cache.cache_init Cache.boot) = None)
    by (vm_compute; reflexivity).
  assert (Hfd : Proxy.upstream down_net "http://origin.test/x" < 0)
    by (vm_compute; reflexivity).
  assert (Hlen : Z.of_nat (String.length (Proxy.parse_uri "http://origin.test/x").1.1)
                 ≤ 8164) by (vm_compute; intros H; discriminate H).
  split; [exact Hline|]. split; [exact Hc|]. split; [exact Hfd|]. split; [exact Hlen|].
  destruct (unreachable_origin_gets_503 down_net 4 get_x [] "" "" ""
              "GET" "http://origin.test/x" "HTTP/1.0" (Cache.cache_init Cache.boot)
              Hreach Hline Hget Hc Hfd Hlen) as (tr & rest & Hdoit & Hsent & _).
  exists tr, rest. split; [exact Hdoit|exact Hsent].
Defined.

Lemma miss_forwards_and_caches_witness :
  Proxy.parse_uri "http://origin.test/x" = ("origin.test", "/x", 80)%string
  ∧ Proxy.build_requesthdrs (tail get_x) "origin.test" "/x"
    = Some (built_request (tail get_x) "origin.test" "/x", [])
  ∧ Forall (λ l, 0 < Z.of_nat (length l) < MAXLINE)
      (Proxy.origin (fixed_net [short_line]) 5)
  ∧ ∃ m1 tr,
      Proxy.doit (fixed_net [short_line]) 4 get_x [] "" "" "" (Cache.cache_init Cache.boot)
      = Some (m1, tr)
      ∧ Proxy.sent 4 tr = short_line
      ∧ cached "http://origin.test/x" m1 = Some short_line.
Proof.
  assert (Hreach : Cache.reachable (Cache.cache_init Cache.boot))
    by (exists []; reflexivity).
  assert (Hline : Proxy.request_line get_x [] "" "" ""
                  = ("GET", "http://origin.test/x", "HTTP/1.0")%string) by reflexivity.
  assert (Hget : C.strcasecmp "GET" "GET" = 0) by reflexivity.
  assert (Hc : cached "http://origin.test/x" (Cache.cache_init Cache.boot) = None)
    by (vm_compute; reflexivity).
  assert (Hp : Proxy.parse_uri "http://origin.test/x"
               = ("origin.test", "/x", 80)%string) by reflexivity.
  assert (Hfd : 0 ≤ 5) by lia.
  assert (Hreq : Proxy.build_requesthdrs (tail get_x) "origin.test" "/x"
                 = Some (built_request (tail get_x) "origin.test" "/x", []))
    by (vm_compute; reflexivity).
  assert (Hl : Forall (λ l, 0 < Z.of_nat (length l) < MAXLINE)
                 (Proxy.origin (fixed_net [short_line]) 5)).
  { repeat constructor; unfold MAXLINE; simpl; lia. }
  split; [exact Hp|]. split; [exact Hreq|]. split; [exact Hl|].
  destruct (miss_forwards_and_caches (fixed_net [short_line]) 4 5 get_x [] "" "" ""
              "GET" "http://origin.test/x" "HTTP/1.0" "origin.test" "/x"
              (built_request (tail get_x) "origin.test" "/x") 80 []
              (Cache.cache_init Cache.boot) Hreach Hline Hget Hc Hp eq_refl Hfd Hreq Hl)
    as (m1 & Hdoit & _ & Hcached & _).
  eexists m1, _. split; [exact Hdoit|]. split; [reflexivity|exact Hcached].
Defined.

Lemma serve_never_faults_witness :
  Forall small [Proxy.Conn (fixed_net [short_line]) 4 get_x [] "" "" "";
                Proxy.Conn down_net 6 put_x [] "" "" ""]
  ∧ Cache.reachable (after x_cached)
  ∧ ∃ m1 trs,
      Proxy.serve [Proxy.Conn (fixed_net [short_line]) 4 get_x [] "" "" "";
                   Proxy.Conn down_net 6 put_x [] "" "" ""] (after x_cached)
      = Some (m1, trs)
      ∧ length trs = 2%nat
      ∧ Cache.run (cache_calls (concat trs)) (after x_cached) = Some m1
      ∧ Cache.reachable m1.
Proof.
  assert (Hsmall : Forall small
                     [Proxy.Conn (fixed_net [short_line]) 4 get_x [] "" "" "";
                      Proxy.Conn down_net 6 put_x [] "" "" ""]).
  { repeat constructor; vm_compute; intros H; discriminate H. }
  assert (Hreach : Cache.reachable (after x_cached))
    by (exists x_cached; vm_compute; reflexivity).
  split; [exact Hsmall|]. split; [exact Hreach|].
  exact (serve_never_faults [Proxy.Conn (fixed_net [short_line]) 4 get_x [] "" "" "";
                             Proxy.Conn down_net 6 put_x [] "" "" ""]
           (after x_cached) Hsmall Hreach).
Defined.

Lemma accepted_descriptors_served_in_order_witness :
  Z.of_nat (length two_rounds) ≤ C.INT_MAX
  ∧ Forall small_turn two_rounds
  ∧ queue_run SBUFSIZE (op_of <$> two_rounds) [] = Some ([4; 6], [])
  ∧ ∃ sp m trs,
      proxy_run two_rounds (Sbuf.sbuf_init SBUFSIZE) (Cache.cache_init Cache.boot)
      = Some (sp, m, zip_with (λ tr fd, tr ++ [Proxy.close fd]) trs [4; 6])
      ∧ holds sp []
      ∧ Proxy.serve (conns_of two_rounds [4; 6]) (Cache.cache_init Cache.boot)
        = Some (m, trs)
      ∧ Cache.reachable m.
Proof.
  assert (Hlen : Z.of_nat (length two_rounds) ≤ C.INT_MAX)
    by (unfold C.INT_MAX; simpl; lia).
  assert (Hsmall : Forall small_turn two_rounds).
  { repeat constructor; vm_compute; intros H; discriminate H. }
  split; [exact Hlen|]. split; [exact Hsmall|]. split; [reflexivity|].
  exact (accepted_descriptors_served_in_order two_rounds Hlen Hsmall).
Defined.

Lemma readers_share_writer_excludes_witness :
  repr two_readers []
  ∧ 0 ≤ Cache.readcnt (Cache.cache two_readers) < C.INT_MAX
  ∧ Cache.cache_insert "u" [x61] 1 two_readers = None
  ∧ Cache.cache_find "u" two_readers = Some (None, two_readers).
Proof.
  assert (Hr : repr two_readers []).
  { split; try done. constructor. }
  assert (Hrc : 0 ≤ Cache.readcnt (Cache.cache two_readers) < C.INT_MAX)
    by (unfold C.INT_MAX; simpl; lia).
  split; [exact Hr|]. split; [exact Hrc|].
  destruct (readers_share_writer_excludes two_readers [] "u" [x61] 1
              Hr eq_refl eq_refl Hrc) as (Hins & _ & Hfind).
  split.
  - apply Hins. unfold MAX_OBJECT_SIZE. lia.
  - apply Hfind. simpl. lia.
Defined.

Lemma doit_closes_what_it_opens_witness :
  Proxy.doit (fixed_net [short_line]) 4 get_x [] "" "" "" (Cache.cache_init Cache.boot)
  = Some (fetched.1, fetched.2)
  ∧ opened fetched.2 = [5]
  ∧ closed fetched.2 = opened fetched.2
  ∧ (length (opened fetched.2) ≤ 1)%nat.
Proof.
  assert (Hdoit : Proxy.doit (fixed_net [short_line]) 4 get_x [] "" "" ""
                    (Cache.cache_init Cache.boot) = Some (fetched.1, fetched.2))
    by (vm_compute; reflexivity).
  split; [exact Hdoit|]. split; [vm_compute; reflexivity|].
  exact (doit_closes_what_it_opens (fixed_net [short_line]) 4 get_x [] "" "" ""
           (Cache.cache_init Cache.boot) fetched.1 fetched.2 Hdoit).
Defined.

Lemma non_get_gets_501_witness :
  Proxy.request_line put_x [] "" "" "" = ("PUT", "http://x/", "HTTP/1.0")%string
  ∧ C.strcasecmp "PUT" "GET" ≠ 0
  ∧ Z.of_nat (String.length "PUT") ≤ 8146
  ∧ ∃ tr rest,
      Proxy.doit (fixed_net []) 4 put_x [] "" "" "" (Cache.cache_init Cache.boot)
      = Some (Cache.cache_init Cache.boot, tr)
      ∧ Proxy.sent 4 tr = C.bytes ("HTTP/1.0 501 Not Implemented" +:+ C.CRLF) ++ rest
      ∧ Forall (λ ev, Proxy.is_probe ev = false ∧ Proxy.is_admission ev = false
                      ∧ Proxy.is_connect ev = false) tr.
Proof.
  assert (Hline : Proxy.request_line put_x [] "" "" ""
                  = ("PUT", "http://x/", "HTTP/1.0")%string) by reflexivity.
  assert (Hput : C.strcasecmp "PUT" "GET" ≠ 0) by (vm_compute; discriminate).
  assert (Hlen : Z.of_nat (String.length "PUT") ≤ 8146) by (simpl; lia).
  split; [exact Hline|]. split; [exact Hput|]. split; [exact Hlen|].
  exact (non_get_gets_501 (fixed_net []) 4 put_x [] "" "" "" "PUT" "http://x/" "HTTP/1.0"
           (Cache.cache_init Cache.boot) Hline Hput Hlen).
Defined.

